(** * Media-job orchestration: playout scheduler and restream fan-out

    A shallow embedding of the two orchestration services of the streaming
    platform (the playout service and the restream service) together with
    the API route that issues the stop command of a restream destination.

    Both services are single-threaded Node.js programs: an [async] function
    runs without interruption until it reaches an [await], and is resumed
    when the awaited operation completes.  Each [async] handler is therefore
    modelled as a task with an explicit continuation ([PC]): the code
    between two [await]s is one atomic transition of [step], and the
    completions of awaited operations (database queries, subprocess exits,
    credential look-ups) are inputs supplied by the environment.

    Timestamps ([NOW()]) and console output are not modelled. *)

From stdpp Require Import gmap strings list fin_maps.
From Stdlib Require Import ZArith Lia.

Open Scope Z_scope.
Open Scope nat_scope.

(** ** The playout service *)

Module Playout.

Record PlaylistItem := {
  id : string;
  vodId : string;
  filePath : string;
  duration : Z;
  position : Z
}.

Record PlayoutStartEvent := {
  channelId : string;
  streamKey : string;
  loop : bool
}.

(** The value type of the [activePlayouts] map.  [process] is [None] for
    the [null] stored at registration; a child process is named by its
    pid, the number of processes spawned before it.  The stored [loop]
    field is never read by the service: the loop uses the event's flag. *)
Record PlayoutInfo := {
  process : option nat;
  currentItem : nat;
  playlist : list PlaylistItem;
  info_loop : bool
}.

Inductive ChannelStatus := stopped | running.

(** The columns of [linear_channels] the service writes. *)
Record ChannelRow := {
  status : ChannelStatus;
  current_item_index : nat
}.

(** Observable effects, in the order they happen. *)
Inductive Event :=
| EvSpawn (pid : nat) (ch : string) (item : PlaylistItem)
| EvKill (pid : nat)
| EvWriteIndex (ch : string) (idx : nat)
| EvWriteStatus (ch : string) (s : ChannelStatus).

(** Continuation of one invocation of [startPlayout]: the [await] it is
    suspended on, with the local variables that are live there. *)
Inductive PC :=
| AwaitPlaylist
| AwaitEmptyWrite
| AwaitIndexWrite (playoutInfo : nat) (item : PlaylistItem) (currentIndex : nat)
| AwaitPlay (playoutInfo : nat) (currentIndex : nat) (pid : nat)
| AwaitRefresh (playoutInfo : nat)
| AwaitFinalWrite
| Returned
| Rejected.

Record Task := {
  event : PlayoutStartEvent;
  pc : PC
}.

(** The service's memory and the part of the database it touches.
    [activePlayouts] maps a channel id to a reference into [heap]: the
    map's values are JavaScript objects, shared between the map and the
    loop that holds [playoutInfo].  [playlist_items] is what the query of
    [getPlaylist] returns for each channel (the ready items, ordered by
    position).  [procs] gives, for each pid, the task whose [playItem]
    promise the process settles.  [hung] is set when a handler entered a
    loop that never reaches an [await]: the event loop then never regains
    control. *)
Record State := {
  activePlayouts : gmap string nat;
  heap : list PlayoutInfo;
  procs : list nat;
  linear_channels : gmap string ChannelRow;
  playlist_items : gmap string (list PlaylistItem);
  tasks : list Task;
  trace : list Event;
  hung : bool
}.

Inductive Input :=
| Start (ev : PlayoutStartEvent)
| Stop (ch : string)
| Skip (ch : string)
| DbDone (tid : nat) (ok : bool)
| ProcClose (pid : nat) (code : option Z)
| ProcError (pid : nat)
| EditPlaylist (ch : string) (items : list PlaylistItem).

(** *** Field updates *)

Definition set_activePlayouts (m : gmap string nat) (st : State) : State :=
  {| activePlayouts := m; heap := heap st; procs := procs st;
     linear_channels := linear_channels st; playlist_items := playlist_items st;
     tasks := tasks st; trace := trace st; hung := hung st |}.

Definition set_heap (h : list PlayoutInfo) (st : State) : State :=
  {| activePlayouts := activePlayouts st; heap := h; procs := procs st;
     linear_channels := linear_channels st; playlist_items := playlist_items st;
     tasks := tasks st; trace := trace st; hung := hung st |}.

Definition set_procs (p : list nat) (st : State) : State :=
  {| activePlayouts := activePlayouts st; heap := heap st; procs := p;
     linear_channels := linear_channels st; playlist_items := playlist_items st;
     tasks := tasks st; trace := trace st; hung := hung st |}.

Definition set_linear_channels (c : gmap string ChannelRow) (st : State) : State :=
  {| activePlayouts := activePlayouts st; heap := heap st; procs := procs st;
     linear_channels := c; playlist_items := playlist_items st;
     tasks := tasks st; trace := trace st; hung := hung st |}.

Definition set_playlist_items (p : gmap string (list PlaylistItem)) (st : State) : State :=
  {| activePlayouts := activePlayouts st; heap := heap st; procs := procs st;
     linear_channels := linear_channels st; playlist_items := p;
     tasks := tasks st; trace := trace st; hung := hung st |}.

Definition set_tasks (t : list Task) (st : State) : State :=
  {| activePlayouts := activePlayouts st; heap := heap st; procs := procs st;
     linear_channels := linear_channels st; playlist_items := playlist_items st;
     tasks := t; trace := trace st; hung := hung st |}.

Definition log (e : Event) (st : State) : State :=
  {| activePlayouts := activePlayouts st; heap := heap st; procs := procs st;
     linear_channels := linear_channels st; playlist_items := playlist_items st;
     tasks := tasks st; trace := trace st ++ [e]; hung := hung st |}.

Definition set_hung (st : State) : State :=
  {| activePlayouts := activePlayouts st; heap := heap st; procs := procs st;
     linear_channels := linear_channels st; playlist_items := playlist_items st;
     tasks := tasks st; trace := trace st; hung := true |}.

Definition set_pc (tid : nat) (ev : PlayoutStartEvent) (k : PC) (st : State) : State :=
  set_tasks (<[tid := {| event := ev; pc := k |}]> (tasks st)) st.

Definition with_process (p : option nat) (i : PlayoutInfo) : PlayoutInfo :=
  {| process := p; currentItem := currentItem i; playlist := playlist i;
     info_loop := info_loop i |}.

Definition with_currentItem (n : nat) (i : PlayoutInfo) : PlayoutInfo :=
  {| process := process i; currentItem := n; playlist := playlist i;
     info_loop := info_loop i |}.

Definition with_playlist (p : list PlaylistItem) (i : PlayoutInfo) : PlayoutInfo :=
  {| process := process i; currentItem := currentItem i; playlist := p;
     info_loop := info_loop i |}.

Definition with_status (s : ChannelStatus) (r : ChannelRow) : ChannelRow :=
  {| status := s; current_item_index := current_item_index r |}.

Definition with_index (n : nat) (r : ChannelRow) : ChannelRow :=
  {| status := status r; current_item_index := n |}.

(** *** Database operations *)

(** [getPlaylist]: the rows of the query, already in item form. *)
Definition getPlaylist (st : State) (ch : string) : list PlaylistItem :=
  default [] (playlist_items st !! ch).

(** [UPDATE linear_channels SET status = 'stopped' WHERE id = $1]: a channel
    without a row is left alone. *)
Definition write_status (ch : string) (s : ChannelStatus) (st : State) : State :=
  log (EvWriteStatus ch s)
      (set_linear_channels (alter (with_status s) ch (linear_channels st)) st).

(** [UPDATE linear_channels SET current_item_index = $1 WHERE id = $2]. *)
Definition write_index (ch : string) (n : nat) (st : State) : State :=
  log (EvWriteIndex ch n)
      (set_linear_channels (alter (with_index n) ch (linear_channels st)) st).

(** *** playItem *)

(** The ['close'] handler of [playItem]: [true] resolves the promise,
    [false] rejects it.  [code] is [None] for the [null] Node reports when
    the child was ended by a signal. *)
Definition on_close (code : option Z) : bool :=
  match code with
  | Some c => (c =? 0)%Z || (c =? 255)%Z
  | None => false
  end.

(** The synchronous part of [playItem], run by task [tid]: spawn the
    child, then store it in whatever entry the map holds for the channel
    at that moment (none, if the entry was deleted meanwhile). *)
Definition playItem (tid : nat) (ch : string) (item : PlaylistItem) (st : State)
  : nat * State :=
  let pid := length (procs st) in
  let st1 := log (EvSpawn pid ch item) (set_procs (procs st ++ [tid]) st) in
  let st2 :=
    match activePlayouts st1 !! ch with
    | Some l => set_heap (alter (with_process (Some pid)) l (heap st1)) st1
    | None => st1
    end in
  (pid, st2).

(** *** startPlayout *)

(** Lines 203-208: delete the map entry and issue the final status write. *)
Definition cleanup (tid : nat) (ev : PlayoutStartEvent) (st : State) : State :=
  set_pc tid ev AwaitFinalWrite
         (set_activePlayouts (delete (channelId ev) (activePlayouts st)) st).

(** The head of the [while] loop, up to the [await] of the index write.
    When the item is missing and the loop flag is set, the source resets
    [currentIndex] to 0 and re-enters the loop without awaiting: if the
    entry's playlist is empty, that repeats forever. *)
Definition loop_head (tid : nat) (ev : PlayoutStartEvent) (running_ : bool)
    (currentIndex : nat) (st : State) : State :=
  if running_ then
    match activePlayouts st !! channelId ev with
    | None => cleanup tid ev st
    | Some l =>
        match heap st !! l with
        | None => set_pc tid ev Rejected st
        | Some info =>
            match playlist info !! currentIndex with
            | Some item => set_pc tid ev (AwaitIndexWrite l item currentIndex) st
            | None =>
                if loop ev then
                  match playlist info !! 0 with
                  | Some item => set_pc tid ev (AwaitIndexWrite l item 0) st
                  | None => set_hung st
                  end
                else cleanup tid ev st
            end
        end
    end
  else cleanup tid ev st.

(** The [catch] block (lines 188-200), entered with the value
    [currentIndex] had when the exception was raised. *)
Definition on_catch (tid : nat) (ev : PlayoutStartEvent) (l currentIndex : nat)
    (st : State) : State :=
  match heap st !! l with
  | None => set_pc tid ev Rejected st
  | Some info =>
      let currentIndex := S currentIndex in
      if length (playlist info) <=? currentIndex then
        if loop ev then loop_head tid ev true 0 st
        else loop_head tid ev false currentIndex st
      else loop_head tid ev true currentIndex st
  end.

(** The rest of the [try] block after [playItem] resolved (lines 175-187),
    up to the [await] of the refresh or to the next loop head. *)
Definition on_resolved (tid : nat) (ev : PlayoutStartEvent) (l currentIndex : nat)
    (st : State) : State :=
  match heap st !! l with
  | None => set_pc tid ev Rejected st
  | Some info =>
      let currentIndex := S currentIndex in
      let st1 := set_heap (<[l := with_currentItem currentIndex info]> (heap st)) st in
      if length (playlist info) <=? currentIndex then
        if loop ev then set_pc tid ev (AwaitRefresh l) st1
        else loop_head tid ev false currentIndex st1
      else loop_head tid ev true currentIndex st1
  end.

(** Lines 130-151, after [getPlaylist] returned [pl]. *)
Definition on_playlist (tid : nat) (ev : PlayoutStartEvent) (pl : list PlaylistItem)
    (st : State) : State :=
  match pl with
  | [] => set_pc tid ev AwaitEmptyWrite st
  | _ :: _ =>
      let l := length (heap st) in
      let info := {| process := None; currentItem := 0; playlist := pl;
                     info_loop := loop ev |} in
      let st1 := set_heap (heap st ++ [info]) st in
      let st2 := set_activePlayouts (<[channelId ev := l]> (activePlayouts st1)) st1 in
      loop_head tid ev true 0 st2
  end.

(** Completion of the database operation task [tid] awaits; [ok = false]
    is a rejected query.  Only the refresh sits inside the [try]. *)
Definition resume_db (tid : nat) (t : Task) (ok : bool) (st : State) : State :=
  let ev := event t in
  match pc t with
  | AwaitPlaylist =>
      if ok then on_playlist tid ev (getPlaylist st (channelId ev)) st
      else set_pc tid ev Rejected st
  | AwaitEmptyWrite =>
      if ok then set_pc tid ev Returned (write_status (channelId ev) stopped st)
      else set_pc tid ev Rejected st
  | AwaitIndexWrite l item currentIndex =>
      if ok then
        let st1 := write_index (channelId ev) currentIndex st in
        let '(pid, st2) := playItem tid (channelId ev) item st1 in
        set_pc tid ev (AwaitPlay l currentIndex pid) st2
      else set_pc tid ev Rejected st
  | AwaitRefresh l =>
      if ok then
        let pl := getPlaylist st (channelId ev) in
        loop_head tid ev true 0
                  (set_heap (alter (with_playlist pl) l (heap st)) st)
      else on_catch tid ev l 0 st
  | AwaitFinalWrite =>
      if ok then set_pc tid ev Returned (write_status (channelId ev) stopped st)
      else set_pc tid ev Rejected st
  | AwaitPlay _ _ _ | Returned | Rejected => st
  end.

(** A process event settles the promise of the [playItem] call that
    spawned it, if that promise is still pending. *)
Definition settle (pid : nat) (resolved : bool) (st : State) : State :=
  match procs st !! pid with
  | None => st
  | Some tid =>
      match tasks st !! tid with
      | None => st
      | Some t =>
          match pc t with
          | AwaitPlay l currentIndex pid' =>
              if decide (pid' = pid) then
                if resolved then on_resolved tid (event t) l currentIndex st
                else on_catch tid (event t) l currentIndex st
              else st
          | _ => st
          end
      end
  end.

(** *** stopPlayout and skipItem *)

Definition kill_current (ch : string) (st : State) : State :=
  match activePlayouts st !! ch with
  | Some l =>
      match heap st !! l with
      | Some info =>
          match process info with
          | Some pid => log (EvKill pid) st
          | None => st
          end
      | None => st
      end
  | None => st
  end.

Definition stopPlayout (ch : string) (st : State) : State :=
  let st1 := kill_current ch st in
  set_activePlayouts (delete ch (activePlayouts st1)) st1.

Definition skipItem (ch : string) (st : State) : State := kill_current ch st.

(** *** The event loop *)

Definition startPlayout (ev : PlayoutStartEvent) (st : State) : State :=
  set_tasks (tasks st ++ [{| event := ev; pc := AwaitPlaylist |}]) st.

Definition step (st : State) (i : Input) : State :=
  if hung st then st else
  match i with
  | Start ev => startPlayout ev st
  | Stop ch => stopPlayout ch st
  | Skip ch => skipItem ch st
  | DbDone tid ok =>
      match tasks st !! tid with
      | Some t => resume_db tid t ok st
      | None => st
      end
  | ProcClose pid code => settle pid (on_close code) st
  | ProcError pid => settle pid false st
  | EditPlaylist ch items =>
      set_playlist_items (<[ch := items]> (playlist_items st)) st
  end.

Definition run (st : State) (ins : list Input) : State := foldl step st ins.

#[global] Arguments run : simpl never.

Definition init : State :=
  {| activePlayouts := ∅; heap := []; procs := []; linear_channels := ∅;
     playlist_items := ∅; tasks := []; trace := []; hung := false |}.

End Playout.

(** ** The restream service *)

Module Restream.

Inductive DestStatus := pending | active | failed | stopped.

#[global] Instance DestStatus_eq_dec : EqDecision DestStatus.
Proof. solve_decision. Defined.

(** A row of [restream_destinations]. *)
Record Destination := {
  id : string;
  stream_id : string;
  social_account_id : string;
  status : DestStatus;
  rtmp_url : option string;
  error_message : option string
}.

(** The columns of [social_accounts] the service reads. *)
Record SocialAccount := {
  platform : string;
  is_active : bool;
  access_token : string
}.

Record StreamStartEvent := {
  streamId : string;
  streamKey : string;
  userId : string
}.

Record RestreamStartEvent := {
  destinationId : string;
  rs_streamKey : string;
  socialAccountId : string;
  rs_platform : string
}.

(** A row of the enumeration query of [handleStreamStart]. *)
Record DestRow := {
  dest_id : string;
  dest_social_account_id : string;
  dest_platform : string
}.

(** The result of [getPlatformRtmpUrl]; a field is [None] when the
    JavaScript value is [undefined]. *)
Record RtmpInfo := {
  rtmpUrl : option string;
  rtmpKey : option string
}.

(** What the outside world answers during one call of
    [getPlatformRtmpUrl]: the account query may reject, decryption may
    throw, the platform request (or the parse of a custom account) may
    throw or deliver the fields the function reads. *)
Inductive Reply :=
| QueryError (msg : string)
| DecryptError (msg : string)
| ApiError
| ApiData (url key alt : option string).

Inductive Outcome :=
| Threw (msg : string)
| Returns (r : option RtmpInfo).

Inductive Event :=
| EvSpawn (pid : nat) (dest : string) (sourceUrl destinationUrl : string)
| EvKill (pid : nat)
| EvWrite (dest : string) (s : DestStatus).

Inductive PC :=
| StartAwaitEnumerate (ev : StreamStartEvent)
| StartAwaitResolve (sourceUrl : string) (dest : DestRow) (rest : list DestRow)
| StartAwaitFailedWrite (sourceUrl : string) (dest : DestRow) (rest : list DestRow)
| StartAwaitActiveWrite (sourceUrl : string) (dest : DestRow) (rest : list DestRow)
    (rtmpInfo : RtmpInfo)
| StartAwaitCatchWrite (sourceUrl : string) (dest : DestRow) (rest : list DestRow)
    (error : string)
| StopAwaitSelect (streamId : string)
| StopAwaitUpdate (streamId : string)
| ManualAwaitResolve (ev : RestreamStartEvent)
| ManualAwaitFailedWrite (ev : RestreamStartEvent)
| ManualAwaitActiveWrite (ev : RestreamStartEvent)
| Returned
| Rejected.

(** [activeProcesses] maps a destination id to the pid of its child.
    [procs] records, per pid, the destination id captured by the child's
    ['close'] handler and whether the child has closed.  [streams] gives
    the owner ([user_id]) of each stream; only the API routes read it. *)
Record State := {
  activeProcesses : gmap string nat;
  procs : list (string * bool);
  restream_destinations : list Destination;
  social_accounts : gmap string SocialAccount;
  streams : gmap string string;
  tasks : list PC;
  trace : list Event
}.

Inductive Input :=
| StreamStart (ev : StreamStartEvent)
| StreamStop (streamId : string)
| RestreamStart (ev : RestreamStartEvent)
| RestreamStop (destinationId : string)
| DbDone (tid : nat) (error : option string)
| Resolved (tid : nat) (reply : Reply)
| ProcClose (pid : nat) (code : option Z).

(** *** Field updates *)

Definition set_activeProcesses (m : gmap string nat) (st : State) : State :=
  {| activeProcesses := m; procs := procs st;
     restream_destinations := restream_destinations st;
     social_accounts := social_accounts st; streams := streams st;
     tasks := tasks st; trace := trace st |}.

Definition set_procs (p : list (string * bool)) (st : State) : State :=
  {| activeProcesses := activeProcesses st; procs := p;
     restream_destinations := restream_destinations st;
     social_accounts := social_accounts st; streams := streams st;
     tasks := tasks st; trace := trace st |}.

Definition set_destinations (d : list Destination) (st : State) : State :=
  {| activeProcesses := activeProcesses st; procs := procs st;
     restream_destinations := d;
     social_accounts := social_accounts st; streams := streams st;
     tasks := tasks st; trace := trace st |}.

Definition set_tasks (t : list PC) (st : State) : State :=
  {| activeProcesses := activeProcesses st; procs := procs st;
     restream_destinations := restream_destinations st;
     social_accounts := social_accounts st; streams := streams st;
     tasks := t; trace := trace st |}.

Definition log (e : Event) (st : State) : State :=
  {| activeProcesses := activeProcesses st; procs := procs st;
     restream_destinations := restream_destinations st;
     social_accounts := social_accounts st; streams := streams st;
     tasks := tasks st; trace := trace st ++ [e] |}.

Definition set_pc (tid : nat) (k : PC) (st : State) : State :=
  set_tasks (<[tid := k]> (tasks st)) st.

Definition spawn_task (k : PC) (st : State) : State :=
  set_tasks (tasks st ++ [k]) st.

(** *** Database operations *)

Definition with_status (s : DestStatus) (d : Destination) : Destination :=
  {| id := id d; stream_id := stream_id d; social_account_id := social_account_id d;
     status := s; rtmp_url := rtmp_url d; error_message := error_message d |}.

Definition with_error (s : DestStatus) (m : string) (d : Destination) : Destination :=
  {| id := id d; stream_id := stream_id d; social_account_id := social_account_id d;
     status := s; rtmp_url := rtmp_url d; error_message := Some m |}.

Definition with_url (s : DestStatus) (u : option string) (d : Destination) : Destination :=
  {| id := id d; stream_id := stream_id d; social_account_id := social_account_id d;
     status := s; rtmp_url := u; error_message := error_message d |}.

(** [UPDATE restream_destinations SET ... WHERE cond]. *)
Definition update_where (cond : Destination → bool) (f : Destination → Destination)
    (rows : list Destination) : list Destination :=
  (λ d, if cond d then f d else d) <$> rows.

Definition has_id (i : string) (d : Destination) : bool := bool_decide (id d = i).

Definition is_status (s : DestStatus) (d : Destination) : bool :=
  bool_decide (status d = s).

(** [SET status = 'failed', error_message = $1 WHERE id = $2]. *)
Definition write_failed (i m : string) (st : State) : State :=
  log (EvWrite i failed)
      (set_destinations (update_where (has_id i) (with_error failed m)
                                      (restream_destinations st)) st).

(** [SET status = 'active', started_at = NOW(), rtmp_url = $1 WHERE id = $2]. *)
Definition write_active_url (i : string) (u : option string) (st : State) : State :=
  log (EvWrite i active)
      (set_destinations (update_where (has_id i) (with_url active u)
                                      (restream_destinations st)) st).

(** [SET status = $1 WHERE id = $2], other columns untouched. *)
Definition write_status (i : string) (s : DestStatus) (st : State) : State :=
  log (EvWrite i s)
      (set_destinations (update_where (has_id i) (with_status s)
                                      (restream_destinations st)) st).

(** The enumeration of [handleStreamStart]: destinations of the stream
    joined with their social account, active accounts only. *)
Definition enumerate (st : State) (sid : string) : list DestRow :=
  omap (λ d,
          if bool_decide (stream_id d = sid) then
            match social_accounts st !! social_account_id d with
            | Some sa =>
                if is_active sa then
                  Some {| dest_id := id d;
                          dest_social_account_id := social_account_id d;
                          dest_platform := platform sa |}
                else None
            | None => None
            end
          else None)
       (restream_destinations st).

(** The ids selected by [handleStreamStop]. *)
Definition select_active (st : State) (sid : string) : list string :=
  id <$> filter (λ d, stream_id d = sid ∧ status d = active)
                (restream_destinations st).

(** *** getPlatformRtmpUrl *)

(** JavaScript [x || d] on a possibly undefined string. *)
Definition js_or (x : option string) (d : string) : string :=
  match x with
  | Some s => if bool_decide (s = "") then d else s
  | None => d
  end.

(** A value inside a template literal. *)
Definition tpl (x : option string) : string := default "undefined" x.

Definition platform_case (platform_ : string) (reply : Reply) : option RtmpInfo :=
  match reply with
  | ApiData url key alt =>
      if bool_decide (platform_ = "facebook") then
        Some {| rtmpUrl := Some (js_or url "rtmps://live-api-s.facebook.com:443/rtmp/");
                rtmpKey := Some (js_or key (js_or alt "")) |}
      else if bool_decide (platform_ = "youtube") then
        Some {| rtmpUrl := Some (js_or url "rtmp://a.rtmp.youtube.com/live2");
                rtmpKey := Some (js_or key "") |}
      else if bool_decide (platform_ = "twitch") then
        Some {| rtmpUrl := Some "rtmp://live.twitch.tv/app";
                rtmpKey := Some (js_or key "") |}
      else if bool_decide (platform_ = "custom") then
        Some {| rtmpUrl := url; rtmpKey := key |}
      else None
  | _ => None
  end.

Definition getPlatformRtmpUrl (st : State) (platform_ socialAccountId_ : string)
    (reply : Reply) : Outcome :=
  match reply with
  | QueryError m => Threw m
  | _ =>
      match social_accounts st !! socialAccountId_ with
      | None => Returns None
      | Some _ =>
          match reply with
          | DecryptError m => Threw m
          | _ => Returns (platform_case platform_ reply)
          end
      end
  end.

(** *** startRestream *)

(** Spawn the child; its ['close'] handler captures [destinationId]. *)
Definition startRestream (sourceUrl destinationUrl destinationId_ : string)
    (st : State) : nat * State :=
  let pid := length (procs st) in
  (pid, log (EvSpawn pid destinationId_ sourceUrl destinationUrl)
            (set_procs (procs st ++ [(destinationId_, false)]) st)).

(** The ['close'] handler: the query is sent without being awaited; the
    model applies it when the event is handled.  (The ['error'] handler
    only prints.) *)
Definition on_close (pid : nat) (code : option Z) (st : State) : State :=
  match procs st !! pid with
  | Some (dest, false) =>
      let st1 := set_procs (<[pid := (dest, true)]> (procs st)) st in
      let st2 := set_activeProcesses (delete dest (activeProcesses st1)) st1 in
      write_status dest
        (match code with Some 0%Z => stopped | _ => failed end) st2
  | _ => st
  end.

Definition destinationUrl_of (i : RtmpInfo) : string :=
  (tpl (rtmpUrl i) ++ "/" ++ tpl (rtmpKey i))%string.

(** *** handleStreamStart *)

(** The head of the [for] loop: the next destination's resolution is
    awaited; with no destination left the handler returns. *)
Definition next_dest (tid : nat) (sourceUrl : string) (rows : list DestRow)
    (st : State) : State :=
  match rows with
  | [] => set_pc tid Returned st
  | dest :: rest => set_pc tid (StartAwaitResolve sourceUrl dest rest) st
  end.

Definition start_resolved (tid : nat) (sourceUrl : string) (dest : DestRow)
    (rest : list DestRow) (reply : Reply) (st : State) : State :=
  match getPlatformRtmpUrl st (dest_platform dest) (dest_social_account_id dest) reply with
  | Threw m => set_pc tid (StartAwaitCatchWrite sourceUrl dest rest m) st
  | Returns None => set_pc tid (StartAwaitFailedWrite sourceUrl dest rest) st
  | Returns (Some info) =>
      let '(pid, st1) := startRestream sourceUrl (destinationUrl_of info) (dest_id dest) st in
      let st2 := set_activeProcesses (<[dest_id dest := pid]> (activeProcesses st1)) st1 in
      set_pc tid (StartAwaitActiveWrite sourceUrl dest rest info) st2
  end.

(** *** handleStreamStop *)

Definition kill_registered (st : State) (i : string) : State :=
  match activeProcesses st !! i with
  | Some pid =>
      let st1 := log (EvKill pid) st in
      set_activeProcesses (delete i (activeProcesses st1)) st1
  | None => st
  end.

Definition stop_selected (tid : nat) (sid : string) (st : State) : State :=
  set_pc tid (StopAwaitUpdate sid) (foldl kill_registered st (select_active st sid)).

(** [SET status = 'stopped' WHERE stream_id = $1 AND status = 'active']. *)
Definition write_stopped_active (sid : string) (st : State) : State :=
  let hit := λ d, bool_decide (stream_id d = sid) && is_status active d in
  set_destinations (update_where hit (with_status stopped) (restream_destinations st))
    (foldl (λ s i, log (EvWrite i stopped) s) st (select_active st sid)).

(** *** handleRestreamStart and handleRestreamStop *)

Definition manual_resolved (tid : nat) (ev : RestreamStartEvent) (reply : Reply)
    (st : State) : State :=
  match getPlatformRtmpUrl st (rs_platform ev) (socialAccountId ev) reply with
  | Threw _ => set_pc tid Rejected st
  | Returns None => set_pc tid (ManualAwaitFailedWrite ev) st
  | Returns (Some info) =>
      let sourceUrl := ("rtmp://srs:1935/live/" ++ rs_streamKey ev)%string in
      let '(pid, st1) := startRestream sourceUrl (destinationUrl_of info) (destinationId ev) st in
      let st2 := set_activeProcesses (<[destinationId ev := pid]> (activeProcesses st1)) st1 in
      set_pc tid (ManualAwaitActiveWrite ev) st2
  end.

Definition handleRestreamStop (destinationId_ : string) (st : State) : State :=
  kill_registered st destinationId_.

(** *** The event loop *)

Definition resume_db (tid : nat) (k : PC) (error : option string) (st : State) : State :=
  match k, error with
  | StartAwaitEnumerate ev, None =>
      next_dest tid ("rtmp://srs:1935/live/" ++ streamKey ev)%string
                (enumerate st (streamId ev)) st
  | StartAwaitEnumerate _, Some _ => set_pc tid Rejected st
  | StartAwaitFailedWrite src dest rest, None =>
      next_dest tid src rest
        (write_failed (dest_id dest) "Failed to get platform RTMP credentials" st)
  | StartAwaitFailedWrite src dest rest, Some m =>
      set_pc tid (StartAwaitCatchWrite src dest rest m) st
  | StartAwaitActiveWrite src dest rest info, None =>
      next_dest tid src rest (write_active_url (dest_id dest) (rtmpUrl info) st)
  | StartAwaitActiveWrite src dest rest _, Some m =>
      set_pc tid (StartAwaitCatchWrite src dest rest m) st
  | StartAwaitCatchWrite src dest rest m, None =>
      next_dest tid src rest (write_failed (dest_id dest) m st)
  | StartAwaitCatchWrite _ _ _ _, Some _ => set_pc tid Rejected st
  | StopAwaitSelect sid, None => stop_selected tid sid st
  | StopAwaitSelect _, Some _ => set_pc tid Rejected st
  | StopAwaitUpdate sid, None => set_pc tid Returned (write_stopped_active sid st)
  | StopAwaitUpdate _, Some _ => set_pc tid Rejected st
  | ManualAwaitFailedWrite ev, None =>
      set_pc tid Returned
        (write_failed (destinationId ev) "Failed to get RTMP credentials" st)
  | ManualAwaitFailedWrite _, Some _ => set_pc tid Rejected st
  | ManualAwaitActiveWrite ev, None =>
      set_pc tid Returned (write_status (destinationId ev) active st)
  | ManualAwaitActiveWrite _, Some _ => set_pc tid Rejected st
  | _, _ => st
  end.

Definition resume_resolver (tid : nat) (k : PC) (reply : Reply) (st : State) : State :=
  match k with
  | StartAwaitResolve src dest rest => start_resolved tid src dest rest reply st
  | ManualAwaitResolve ev => manual_resolved tid ev reply st
  | _ => st
  end.

(** The three handlers that await: a delivery starts a task, which runs up
    to its first [await] (the enumeration, the selection, the resolver). *)
Definition handleStreamStart (ev : StreamStartEvent) (st : State) : State :=
  spawn_task (StartAwaitEnumerate ev) st.

Definition handleStreamStop (streamId_ : string) (st : State) : State :=
  spawn_task (StopAwaitSelect streamId_) st.

Definition handleRestreamStart (ev : RestreamStartEvent) (st : State) : State :=
  spawn_task (ManualAwaitResolve ev) st.

Definition step (st : State) (i : Input) : State :=
  match i with
  | StreamStart ev => handleStreamStart ev st
  | StreamStop sid => handleStreamStop sid st
  | RestreamStart ev => handleRestreamStart ev st
  | RestreamStop d => handleRestreamStop d st
  | DbDone tid error =>
      match tasks st !! tid with
      | Some k => resume_db tid k error st
      | None => st
      end
  | Resolved tid reply =>
      match tasks st !! tid with
      | Some k => resume_resolver tid k reply st
      | None => st
      end
  | ProcClose pid code => on_close pid code st
  end.

Definition run (st : State) (ins : list Input) : State := foldl step st ins.

#[global] Arguments run : simpl never.

(** The row with a given id ([id] is the table's primary key), and its
    status. *)
Fixpoint lookup_row (i : string) (rows : list Destination) : option Destination :=
  match rows with
  | [] => None
  | d :: rest => if has_id i d then Some d else lookup_row i rest
  end.

Definition status_of (st : State) (i : string) : option DestStatus :=
  status <$> lookup_row i (restream_destinations st).

End Restream.

(** ** The API route that stops a restream destination

    [POST /restream/:id/stop] runs in the API process; it shares the
    database with the restream service and reaches it through the message
    bus.  The route is one transition: its query, then the message it
    publishes (or the error it answers with). *)

Module Api.
Import Restream.

Inductive RouteResult :=
| AppError (statusCode : nat) (message : string)
| Publish (i : Input).

Definition owned_by (st : State) (user : string) (d : Destination) : bool :=
  bool_decide (streams st !! stream_id d = Some user).

(** [router.post('/:id/stop')]: [UPDATE ... SET status = 'stopped' ...
    WHERE rd.id = $1 AND rd.stream_id = s.id AND s.user_id = $2 RETURNING
    rd.id]; 404 when no row was updated, else publish [restream:stop]. *)
Definition stop_route (id_ user : string) (st : State) : State * RouteResult :=
  let hit := λ d, has_id id_ d && owned_by st user d in
  if existsb hit (restream_destinations st) then
    (log (EvWrite id_ stopped)
         (set_destinations
            (update_where hit (with_status stopped) (restream_destinations st)) st),
     Publish (RestreamStop id_))
  else (st, AppError 404 "Destination not found").

(** Deliver what a route published to the service. *)
Definition deliver (r : State * RouteResult) : State :=
  match r with
  | (st, Publish i) => step st i
  | (st, AppError _ _) => st
  end.

End Api.

(** ** Scripts and traces used in the statements *)

Module Scripts.
Import Playout.

(** Inputs that let [n] successive items of task [tid] play and exit with
    code 0, the first child having pid [pid0], followed by the completion
    of the final status write. *)
Fixpoint clean_items (tid pid0 n : nat) : list Input :=
  match n with
  | 0 => []
  | S n => DbDone tid true :: ProcClose pid0 (Some 0%Z) :: clean_items tid (S pid0) n
  end.

Definition clean_script (tid pid0 n : nat) : list Input :=
  clean_items tid pid0 n ++ [DbDone tid true].

(** The index write and the spawn of each item, in playing order. *)
Fixpoint play_events (ch : string) (pid idx : nat) (items : list PlaylistItem)
  : list Event :=
  match items with
  | [] => []
  | item :: rest =>
      EvWriteIndex ch idx :: EvSpawn pid ch item :: play_events ch (S pid) (S idx) rest
  end.

Definition is_spawn (e : Event) : bool :=
  match e with EvSpawn _ _ _ => true | _ => false end.

Definition is_kill (e : Event) : bool :=
  match e with EvKill _ => true | _ => false end.

Definition spawn_count (t : list Event) : nat := length (List.filter is_spawn t).

Definition kill_count (t : list Event) : nat := length (List.filter is_kill t).

(** A call of [startPlayout] that has returned or was rejected. *)
Definition finished (k : PC) : Prop := k = Returned ∨ k = Rejected.

(** The writes [startPlayout] awaits outside its [try] block. *)
Definition awaits_write (k : PC) : Prop :=
  k = AwaitEmptyWrite ∨ k = AwaitFinalWrite
  ∨ ∃ l item i, k = AwaitIndexWrite l item i.

(** Task [tid] is at the top of an iteration: it holds the channel's
    registered object [l], whose snapshot is [pl], and awaits the index
    write for item [k]. *)
Definition in_loop (st : State) (tid : nat) (ev : PlayoutStartEvent) (l k : nat)
    (item : PlaylistItem) (pl : list PlaylistItem) : Prop :=
  hung st = false
  ∧ tasks st !! tid = Some {| event := ev; pc := AwaitIndexWrite l item k |}
  ∧ activePlayouts st !! channelId ev = Some l
  ∧ playlist <$> heap st !! l = Some pl
  ∧ pl !! k = Some item.

(** The object a suspended call holds in [playoutInfo]. *)
Definition pc_ref (k : PC) : option nat :=
  match k with
  | AwaitIndexWrite l _ _ | AwaitPlay l _ _ | AwaitRefresh l => Some l
  | _ => None
  end.

(** Every reference in the map or held by a call denotes an allocated
    object. *)
Definition wf (st : State) : Prop :=
  (∀ ch l, activePlayouts st !! ch = Some l → l < length (heap st))
  ∧ (∀ tid t l, tasks st !! tid = Some t → pc_ref (pc t) = Some l →
                l < length (heap st)).

(** The object [startPlayout] stores in the map at registration. *)
Definition fresh_info (ev : PlayoutStartEvent) (pl : list PlaylistItem) : PlayoutInfo :=
  {| process := None; currentItem := 0; playlist := pl; info_loop := loop ev |}.

(** The state right after [startPlayout] registered the channel. *)
Definition registered (ev : PlayoutStartEvent) (pl : list PlaylistItem) (st : State)
  : State :=
  set_activePlayouts (<[channelId ev := length (heap st)]> (activePlayouts st))
                     (set_heap (heap st ++ [fresh_info ev pl]) st).

(** *** A two-item channel *)

Definition item (n : string) (d : Z) (p : Z) : PlaylistItem :=
  {| id := n; vodId := ("vod-" ++ n)%string; filePath := ("/storage/" ++ n)%string;
     duration := d; position := p |}.

Definition item1 : PlaylistItem := item "item1" 10 0.
Definition item2 : PlaylistItem := item "item2" 5 1.
Definition item3 : PlaylistItem := item "item3" 7 0.

Definition startC (l : bool) : PlayoutStartEvent :=
  {| channelId := "C"; streamKey := "key-C"; loop := l |}.

(** A looping channel with a single item. *)
Definition channelL : State :=
  set_linear_channels {[ "C" := {| status := running; current_item_index := 0 |} ]}
    (set_playlist_items {[ "C" := [item1] ]} init).

(** [channelL] while its only item plays, after the playlist was edited
    to hold [item3] instead. *)
Definition channelL_playing : State :=
  run channelL [Start (startC true); DbDone 0 true; DbDone 0 true;
                EditPlaylist "C" [item3]].

Definition channelC : State :=
  set_linear_channels {[ "C" := {| status := running; current_item_index := 0 |} ]}
    (set_playlist_items {[ "C" := [item1; item2] ]} init).

End Scripts.

(** ** Scripts and traces used in the statements on restreaming *)

Module Fanout.
Import Restream.

(** Inputs that let task [tid] handle one destination per reply: the
    resolver's answer, then the completion of the status write. *)
Definition fanout_script (tid : nat) (replies : list Reply) : list Input :=
  flat_map (λ r, [Resolved tid r; DbDone tid None]) replies.

Definition outcome (st : State) (d : DestRow) (r : Reply) : Outcome :=
  getPlatformRtmpUrl st (dest_platform d) (dest_social_account_id d) r.

(** Credential resolution succeeded / failed (returned null or threw). *)
Definition resolves (st : State) (d : DestRow) (r : Reply) : Prop :=
  ∃ info, outcome st d r = Returns (Some info).

Definition failure_message (o : Outcome) : option string :=
  match o with
  | Threw m => Some m
  | Returns None => Some "Failed to get platform RTMP credentials"%string
  | Returns (Some _) => None
  end.

Definition fails (st : State) (d : DestRow) (r : Reply) : Prop :=
  is_Some (failure_message (outcome st d r)).

(** What handling one destination does to its row. *)
Definition dest_effect (o : Outcome) (row : Destination) : Destination :=
  match o with
  | Returns (Some info) => with_url active (rtmpUrl info) row
  | Returns None => with_error failed "Failed to get platform RTMP credentials" row
  | Threw m => with_error failed m row
  end.

(** The effects of a fan-out, destination by destination. *)
Fixpoint fanout_events (st : State) (src : string) (pid : nat)
    (rows : list DestRow) (replies : list Reply) : list Event :=
  match rows, replies with
  | d :: rows, r :: replies =>
      match outcome st d r with
      | Returns (Some info) =>
          EvSpawn pid (dest_id d) src (destinationUrl_of info)
          :: EvWrite (dest_id d) active
          :: fanout_events st src (S pid) rows replies
      | _ => EvWrite (dest_id d) failed :: fanout_events st src pid rows replies
      end
  | _, _ => []
  end.

(** The pc of [handleStreamStart] at the head of its loop. *)
Definition at_head (src : string) (rows : list DestRow) : PC :=
  match rows with
  | [] => Returned
  | d :: rest => StartAwaitResolve src d rest
  end.

(** *** A stream with three destinations *)

Definition account (p : string) : SocialAccount :=
  {| platform := p; is_active := true; access_token := "token" |}.

Definition destination (i sa : string) : Destination :=
  {| id := i; stream_id := "S"; social_account_id := sa; status := pending;
     rtmp_url := None; error_message := None |}.

Definition streamS : State :=
  {| activeProcesses := ∅; procs := [];
     restream_destinations :=
       [destination "A" "sa-A"; destination "B" "sa-B"; destination "C" "sa-C"];
     social_accounts :=
       {[ "sa-A" := account "facebook"; "sa-B" := account "youtube";
          "sa-C" := account "twitch" ]};
     streams := {[ "S" := "u1"%string ]};
     tasks := []; trace := [] |}.

Definition startS : StreamStartEvent :=
  {| streamId := "S"; streamKey := "key-S"; userId := "u1" |}.

Definition rowOf (i sa p : string) : DestRow :=
  {| dest_id := i; dest_social_account_id := sa; dest_platform := p |}.

Definition rowsS : list DestRow :=
  [rowOf "A" "sa-A" "facebook"; rowOf "B" "sa-B" "youtube"; rowOf "C" "sa-C" "twitch"].

Definition good : Reply := ApiData (Some "rtmp://ingest"%string) (Some "k"%string) None.

(** [handleStreamStart] on [streamS] up to the point where B's resolver
    has returned null and B's failed write is awaited. *)
Definition streamS_B_failed : State :=
  run streamS [StreamStart startS; DbDone 0 None;
               Resolved 0 good; DbDone 0 None; Resolved 0 ApiError].

(** The stream with a single destination X, made active by a fan-out. *)
Definition streamX : State :=
  run {| activeProcesses := ∅; procs := [];
         restream_destinations := [destination "X" "sa-X"];
         social_accounts := {[ "sa-X" := account "twitch" ]};
         streams := {[ "S" := "u1"%string ]};
         tasks := []; trace := [] |}
      [StreamStart startS; DbDone 0 None; Resolved 0 good; DbDone 0 None].

End Fanout.

(** ** States of a playout run used in further statements *)

Module PlayoutCases.
Import Playout Scripts.

(** Task [tid] awaits the exit of child [pid], which plays item [k] of
    the snapshot [pl] held in the channel's registered object [l]; the
    child is the one stored in that object. *)
Definition playing (st : State) (tid : nat) (ev : PlayoutStartEvent) (l k pid : nat)
    (pl : list PlaylistItem) : Prop :=
  hung st = false
  ∧ tasks st !! tid = Some {| event := ev; pc := AwaitPlay l k pid |}
  ∧ procs st !! pid = Some tid
  ∧ activePlayouts st !! channelId ev = Some l
  ∧ playlist <$> heap st !! l = Some pl
  ∧ process <$> heap st !! l = Some (Some pid).

(** Task [tid] of a looping channel awaits the refresh of the snapshot of
    its object [l], whose current snapshot is [pl]. *)
Definition refreshing (st : State) (tid : nat) (ev : PlayoutStartEvent) (l : nat)
    (pl : list PlaylistItem) : Prop :=
  hung st = false
  ∧ loop ev = true
  ∧ tasks st !! tid = Some {| event := ev; pc := AwaitRefresh l |}
  ∧ activePlayouts st !! channelId ev = Some l
  ∧ playlist <$> heap st !! l = Some pl.

(** Task [tid] has left the loop: the channel is unregistered and the
    final status write is awaited. *)
Definition leaving (st : State) (tid : nat) (ev : PlayoutStartEvent) : Prop :=
  hung st = false
  ∧ tasks st !! tid = Some {| event := ev; pc := AwaitFinalWrite |}
  ∧ activePlayouts st !! channelId ev = None.

(** [channelC] while its first item plays. *)
Definition channelC_playing : State :=
  run channelC [Start (startC false); DbDone 0 true; DbDone 0 true].

(** [channelC], looping, while its second and last item plays. *)
Definition channelC_last : State :=
  run channelC [Start (startC true); DbDone 0 true; DbDone 0 true;
                ProcClose 0 (Some 0%Z); DbDone 0 true].

(** [channelC], looping, awaiting the refresh after its last item. *)
Definition channelC_refreshing : State :=
  run channelC_last [ProcClose 1 (Some 0%Z)].

End PlayoutCases.

(** ** States of the restream service used in further statements *)

Module RestreamCases.
Import Restream Fanout.

(** A call that has returned or was rejected. *)
Definition done_pc (k : PC) : Prop := k = Returned ∨ k = Rejected.

(** The condition of the enumeration of [handleStreamStart] on a row. *)
Definition selected (st : State) (sid : string) (d : Destination) : Prop :=
  stream_id d = sid
  ∧ ∃ sa, social_accounts st !! social_account_id d = Some sa ∧ is_active sa = true.

(** The condition of the update of [handleStreamStop] on a row. *)
Definition active_in (sid : string) (d : Destination) : bool :=
  bool_decide (stream_id d = sid) && is_status active d.

Definition known_platform (p : string) : Prop :=
  p = "facebook"%string ∨ p = "youtube"%string ∨ p = "twitch"%string
  ∨ p = "custom"%string.

(** A manual start of destination X of [streamX]. *)
Definition startX : RestreamStartEvent :=
  {| destinationId := "X"; rs_streamKey := "key-S"; socialAccountId := "sa-X";
     rs_platform := "twitch" |}.

(** [streamX] after X, already running child 0, was started manually once
    more: child 1 is registered in place of child 0. *)
Definition streamX_restarted : State :=
  run streamX [RestreamStart startX; Resolved 1 good; DbDone 1 None].

(** [streamS] with two more destinations: D belongs to another stream, E
    to an account that is not active. *)
Definition destD : Destination :=
  {| id := "D"; stream_id := "T"; social_account_id := "sa-A"; status := pending;
     rtmp_url := None; error_message := None |}.

Definition destE : Destination := destination "E" "sa-E".

Definition streamS_more : State :=
  set_destinations
    (restream_destinations streamS ++ [destD; destE])
    {| activeProcesses := ∅; procs := [];
       restream_destinations := [];
       social_accounts :=
         <["sa-E" := {| platform := "twitch"; is_active := false;
                        access_token := "token" |}]> (social_accounts streamS);
       streams := {[ "S" := "u1"%string; "T" := "u2"%string ]};
       tasks := []; trace := [] |}.

(** [streamS] at the point where the status write of A's catch block is
    awaited (the resolver for A threw). *)
Definition streamS_A_threw : State :=
  run streamS [StreamStart startS; DbDone 0 None; Resolved 0 (QueryError "down")].

(** [streamS] at the point where A's child runs and A's active write is
    awaited. *)
Definition streamS_A_spawned : State :=
  run streamS [StreamStart startS; DbDone 0 None; Resolved 0 good].

End RestreamCases.

(** ** More routes of the restream API

    [POST /restream/:id/start] and [DELETE /restream/:id], each as one
    transition like [Api.stop_route].  The [stream_key] column of
    [streams], which [Restream.State] does not hold, is a parameter. *)

Module RestreamRoutes.
Import Restream Api.

(** The rows of the start route's query: the destination joined with its
    stream (of the caller) and its social account. *)
Definition start_rows (id_ user : string) (st : State)
  : list (Destination * SocialAccount) :=
  omap (λ d,
          if has_id id_ d && owned_by st user d then
            (λ sa, (d, sa)) <$> social_accounts st !! social_account_id d
          else None)
       (restream_destinations st).

(** [router.post('/:id/start')]: 404 without a row; else the status is
    set to pending, whatever it was, and [restream:start] is published. *)
Definition start_route (stream_key : string → string) (id_ user : string) (st : State)
  : State * RouteResult :=
  match start_rows id_ user st with
  | [] => (st, AppError 404 "Destination not found")
  | (dest, sa) :: _ =>
      (write_status (id dest) pending st,
       Publish (RestreamStart
                  {| destinationId := id dest;
                     rs_streamKey := stream_key (stream_id dest);
                     socialAccountId := social_account_id dest;
                     rs_platform := platform sa |}))
  end.

Inductive DeleteResult :=
| Removed
| NotFound.

(** [router.delete('/:id')]: the rows with the given id whose stream
    belongs to the caller are deleted; 404 when there is none.  Nothing is
    published. *)
Definition delete_route (id_ user : string) (st : State) : State * DeleteResult :=
  let hit := λ d, has_id id_ d && owned_by st user d in
  if existsb hit (restream_destinations st) then
    (set_destinations (List.filter (λ d, negb (hit d)) (restream_destinations st)) st,
     Removed)
  else (st, NotFound).

End RestreamRoutes.

(** ** The playlist and playout routes of the linear-channel API

    The routes of [src/api/src/routes/linear.ts] over the three tables
    they touch, with the constraints the schema puts on [playlist_items]:
    [channel_id] references an existing channel, and [(channel_id,
    position)] is unique, checked at every statement.  A statement that
    violates a constraint is rejected; the routes turn that into a 500.
    [position] is an INTEGER column: a statement that is given or that
    computes a position outside the 32-bit range is rejected as well.
    Each route is one transition; the row id of an insert is given.  The
    ids in a request are texts of UUIDs and the positions in a request
    are integers, as the columns they are compared with or stored in. *)

Module LinearApi.

Record Channel := {
  user_id : string;
  stream_key : string;
  loop_playlist : bool;
  status : Playout.ChannelStatus
}.

Record Item := {
  item_id : string;
  channel_id : string;
  vod_id : string;
  position : Z
}.

(** The columns of [vod_files] the routes read. *)
Record Vod := {
  vod_user : string;
  vod_ready : bool
}.

Record Db := {
  linear_channels : gmap string Channel;
  playlist_items : list Item;
  vod_files : gmap string Vod
}.

Inductive Response :=
| Ok (message : string)
| Created (item : Item)
| Error (statusCode : nat) (message : string).

Definition set_items (items : list Item) (db : Db) : Db :=
  {| linear_channels := linear_channels db; playlist_items := items;
     vod_files := vod_files db |}.

Definition set_channels (c : gmap string Channel) (db : Db) : Db :=
  {| linear_channels := c; playlist_items := playlist_items db;
     vod_files := vod_files db |}.

Definition with_position (p : Z) (i : Item) : Item :=
  {| item_id := item_id i; channel_id := channel_id i; vod_id := vod_id i;
     position := p |}.

Definition with_status (s : Playout.ChannelStatus) (c : Channel) : Channel :=
  {| user_id := user_id c; stream_key := stream_key c;
     loop_playlist := loop_playlist c; status := s |}.

Definition in_channel (ch : string) (i : Item) : bool :=
  bool_decide (channel_id i = ch).

Definition owns (db : Db) (user ch : string) : bool :=
  match linear_channels db !! ch with
  | Some c => bool_decide (user_id c = user)
  | None => false
  end.

(** The positions taken in a channel. *)
Definition positions (ch : string) (items : list Item) : list Z :=
  position <$> List.filter (in_channel ch) items.

(** The values of an INTEGER column. *)
Definition int32 (p : Z) : bool :=
  (-2147483648 <=? p)%Z && (p <=? 2147483647)%Z.




(** [UPDATE playlist_items SET position = $1 WHERE id = $2 AND channel_id
    = $3]: rejected when [$1] is not an INTEGER (whether or not a row
    matches), and when it changes the position of a row to one that
    another row of the channel holds. *)
Definition hits (ch id_ : string) (i : Item) : bool :=
  bool_decide (item_id i = id_) && in_channel ch i.

Definition update_position (ch id_ : string) (p : Z) (items : list Item)
  : option (list Item) :=
  let others := List.filter (λ i, negb (hits ch id_ i)) items in
  if negb (int32 p) then None
  else if existsb (hits ch id_) items
          && bool_decide (p ∈ positions ch others)
  then None
  else Some ((λ i, if hits ch id_ i then with_position p i else i) <$> items).



(** [router.delete('/:id/playlist/:itemId')]. *)
Definition remove_item (ch itemId user : string) (db : Db) : Db * Response :=
  if owns db user ch then
    if existsb (hits ch itemId) (playlist_items db) then
      (set_items (List.filter (λ i, negb (hits ch itemId i)) (playlist_items db)) db,
       Ok "Item removed from playlist")
    else (db, Error 404 "Playlist item not found")
  else (db, Error 404 "Channel not found").

(** The loop of the reorder route: one update per entry, in order, each
    committed on its own; the first rejected one ends the loop. *)
Fixpoint reorder_loop (ch : string) (entries : list (string * Z)) (items : list Item)
  : list Item * bool :=
  match entries with
  | [] => (items, true)
  | (id_, p) :: rest =>
      match update_position ch id_ p items with
      | Some items' => reorder_loop ch rest items'
      | None => (items, false)
      end
  end.

(** [router.put('/:id/playlist/reorder')]; [entries] is [None] when the
    body's [items] is not an array. *)
Definition reorder (ch user : string) (entries : option (list (string * Z))) (db : Db)
  : Db * Response :=
  match entries with
  | None => (db, Error 400 "Items array is required")
  | Some es =>
      if owns db user ch then
        let '(items', ok) := reorder_loop ch es (playlist_items db) in
        (set_items items' db,
         if ok then Ok "Playlist reordered" else Error 500 "Failed to reorder playlist")
      else (db, Error 404 "Channel not found")
  end.

(** [router.post('/:id/start')]: the count is over all items of the
    channel, ready or not; the status is not looked at. *)
Definition start (ch user : string) (db : Db)
  : Db * Response * list Playout.Input :=
  match linear_channels db !! ch with
  | Some c =>
      if bool_decide (user_id c = user) then
        if bool_decide (length (List.filter (in_channel ch) (playlist_items db)) = 0)
        then (db, Error 400 "Playlist is empty", [])
        else (set_channels (<[ch := with_status Playout.running c]> (linear_channels db)) db,
              Ok "Playout started",
              [Playout.Start {| Playout.channelId := ch;
                                Playout.streamKey := stream_key c;
                                Playout.loop := loop_playlist c |}])
      else (db, Error 404 "Channel not found", [])
  | None => (db, Error 404 "Channel not found", [])
  end.

(** [router.post('/:id/stop')]. *)
Definition stop (ch user : string) (db : Db) : Db * Response * list Playout.Input :=
  match linear_channels db !! ch with
  | Some c =>
      if bool_decide (user_id c = user) then
        (set_channels (<[ch := with_status Playout.stopped c]> (linear_channels db)) db,
         Ok "Playout stopped", [Playout.Stop ch])
      else (db, Error 404 "Channel not found", [])
  | None => (db, Error 404 "Channel not found", [])
  end.

(** [router.delete('/:id')]: the stop is published before the delete is
    tried; deleting a channel deletes its items (ON DELETE CASCADE). *)
Definition delete_channel (ch user : string) (db : Db)
  : Db * Response * list Playout.Input :=
  if owns db user ch then
    (set_items (List.filter (λ i, negb (in_channel ch i)) (playlist_items db))
       (set_channels (delete ch (linear_channels db)) db),
     Ok "Channel deleted", [Playout.Stop ch])
  else (db, Error 404 "Channel not found", [Playout.Stop ch]).


(** The position of the item with a given id in a channel. *)
Fixpoint position_of (ch id_ : string) (items : list Item) : option Z :=
  match items with
  | [] => None
  | i :: rest => if hits ch id_ i then Some (position i) else position_of ch id_ rest
  end.

(** The rows after an accepted [update_position]. *)
Definition moved (ch a : string) (p : Z) (items : list Item) : list Item :=
  (λ i, if hits ch a i then with_position p i else i) <$> items.

(** *** A channel of user u1 with two items *)

Definition itemA : Item :=
  {| item_id := "a"; channel_id := "C"; vod_id := "v1"; position := 0 |}.
Definition itemB : Item :=
  {| item_id := "b"; channel_id := "C"; vod_id := "v2"; position := 1 |}.

Definition dbC : Db :=
  {| linear_channels :=
       {[ "C" := {| user_id := "u1"; stream_key := "key-C"; loop_playlist := false;
                    status := Playout.stopped |} ]};
     playlist_items := [itemA; itemB];
     vod_files := {[ "v1" := {| vod_user := "u1"; vod_ready := true |};
                     "v2" := {| vod_user := "u1"; vod_ready := true |};
                     "v9" := {| vod_user := "u2"; vod_ready := true |} ]} |}.

End LinearApi.

(** ** Viewer counting

    The viewer counters of [src/api/src/services/redis.ts] and the two
    hooks of [src/api/src/routes/hooks.ts] that use them.  A counter is
    the integer Redis holds under [stream:viewers:<key>] (absent: 0 for
    INCR and DECR); [streams] is keyed by the unique [stream_key].

    A hook request is a task, as in the services: each Redis command and
    each statement takes effect when it completes, and requests that
    overlap interleave at these points.  The [viewer_sessions] statements
    that end both hooks touch neither the counters nor [streams] and are
    left out. *)

Module Viewers.

Record StreamRow := {
  viewer_count : Z;
  peak_viewers : Z
}.

(** Where a hook request waits. *)
Inductive PC :=
| AwaitIncr                       (* /srs/play: [client.incr] *)
| AwaitPlayUpdate (count : Z)     (* /srs/play: [UPDATE streams] *)
| AwaitDecr                       (* /srs/stop: [client.decr] *)
| AwaitReset                      (* /srs/stop: [client.set(.., '0')] *)
| AwaitStopUpdate (count : Z)     (* /srs/stop: [UPDATE streams] *)
| Responded.

Record Request := {
  key : string;
  pc : PC
}.

Record State := {
  counters : gmap string Z;
  streams : gmap string StreamRow;
  requests : list Request
}.

Inductive Input :=
| PlayHook (k : string)                (* POST /srs/play *)
| StopHook (k : string)                (* POST /srs/stop *)
| RedisDone (tid : nat) (ok : bool)    (* the awaited Redis command completes *)
| DbDone (tid : nat) (ok : bool).      (* the awaited statement completes *)

Definition counter (st : State) (k : string) : Z := default 0%Z (counters st !! k).

Definition set_counter (k : string) (v : Z) (st : State) : State :=
  {| counters := <[k := v]> (counters st); streams := streams st;
     requests := requests st |}.

Definition update_stream (k : string) (f : StreamRow → StreamRow) (st : State) : State :=
  {| counters := counters st; streams := alter f k (streams st);
     requests := requests st |}.

Definition set_pc (tid : nat) (p : PC) (st : State) : State :=
  {| counters := counters st; streams := streams st;
     requests := alter (λ r, {| key := key r; pc := p |}) tid (requests st) |}.

Definition arrive (k : string) (p : PC) (st : State) : State :=
  {| counters := counters st; streams := streams st;
     requests := requests st ++ [{| key := k; pc := p |}] |}.

(** [count ? parseInt(count, 10) : 0]: an absent key reads 0. *)
Definition getViewerCount (k : string) (st : State) : Z := counter st k.

(** A Redis command of request [tid] completes.  A rejected command
    takes the hook to its [catch], which answers. *)
Definition resume_redis (tid : nat) (r : Request) (ok : bool) (st : State) : State :=
  if negb ok then set_pc tid Responded st else
  match pc r with
  | AwaitIncr =>
      (* incrementViewers returns the new value *)
      let v := (counter st (key r) + 1)%Z in
      set_pc tid (AwaitPlayUpdate v) (set_counter (key r) v st)
  | AwaitDecr =>
      let count := (counter st (key r) - 1)%Z in
      let st1 := set_counter (key r) count st in
      if (count <? 0)%Z then set_pc tid AwaitReset st1
      else set_pc tid (AwaitStopUpdate count) st1
  | AwaitReset =>
      set_pc tid (AwaitStopUpdate 0) (set_counter (key r) 0 st)
  | _ => st
  end.

(** A statement of request [tid] completes. *)
Definition resume_db (tid : nat) (r : Request) (ok : bool) (st : State) : State :=
  match pc r with
  | AwaitPlayUpdate count =>
      set_pc tid Responded
        (if ok then
           update_stream (key r)
             (λ row, {| viewer_count := count;
                        peak_viewers := Z.max (peak_viewers row) count |}) st
         else st)
  | AwaitStopUpdate count =>
      set_pc tid Responded
        (if ok then
           update_stream (key r)
             (λ row, {| viewer_count := count; peak_viewers := peak_viewers row |}) st
         else st)
  | _ => st
  end.

Definition step (st : State) (i : Input) : State :=
  match i with
  | PlayHook k => arrive k AwaitIncr st
  | StopHook k => arrive k AwaitDecr st
  | RedisDone tid ok =>
      match requests st !! tid with
      | Some r => resume_redis tid r ok st
      | None => st
      end
  | DbDone tid ok =>
      match requests st !! tid with
      | Some r => resume_db tid r ok st
      | None => st
      end
  end.

Definition run (st : State) (ins : list Input) : State := foldl step st ins.

(** *** Hooks handled one at a time *)

(** One hook request from its arrival to its answer, with nothing in
    between, by the outcomes of the commands it awaits.  [db_ok] tells
    whether its [UPDATE streams] is accepted. *)
Inductive Hook :=
| Play (k : string) (db_ok : bool)          (* the increment is accepted *)
| StopWatching (k : string) (db_ok : bool)  (* the decrement, and the reset
                                               if one is sent, are accepted *)
| PlayRefused (k : string)                  (* the increment is rejected *)
| StopRefused (k : string)                  (* the decrement is rejected *)
| StopNotReset (k : string) (db_ok : bool). (* the decrement is accepted; the
                                               reset, if one is sent, is
                                               rejected *)

Definition handle (st : State) (h : Hook) : State :=
  let tid := length (requests st) in
  match h with
  | Play k ok => run st [PlayHook k; RedisDone tid true; DbDone tid ok]
  | StopWatching k ok =>
      let st1 := run st [StopHook k; RedisDone tid true] in
      let st2 := if (counter st1 k <? 0)%Z then step st1 (RedisDone tid true) else st1 in
      step st2 (DbDone tid ok)
  | PlayRefused k => run st [PlayHook k; RedisDone tid false]
  | StopRefused k => run st [StopHook k; RedisDone tid false]
  | StopNotReset k ok =>
      let st1 := run st [StopHook k; RedisDone tid true] in
      if (counter st1 k <? 0)%Z then step st1 (RedisDone tid false)
      else step st1 (DbDone tid ok)
  end.

Definition hooks (st : State) (hs : list Hook) : State := foldl handle st hs.

Definition hook_key (h : Hook) : string :=
  match h with
  | Play k _ | StopWatching k _ | PlayRefused k | StopRefused k | StopNotReset k _ => k
  end.

(** The hooks that keep the counts sane: a play hook whose increment is
    accepted must have its update accepted, and no reset may be rejected. *)
Definition accepted (h : Hook) : bool :=
  match h with
  | Play _ ok => ok
  | StopNotReset _ _ => false
  | _ => true
  end.

(** A play hook and a stop hook by the outcome of their first command:
    [None] when it is rejected, [Some db_ok] when every Redis command of
    the hook is accepted. *)
Definition join (k : string) (o : option bool) : Hook :=
  match o with
  | Some ok => Play k ok
  | None => PlayRefused k
  end.

Definition leave (k : string) (o : option bool) : Hook :=
  match o with
  | Some ok => StopWatching k ok
  | None => StopRefused k
  end.

(** How many of the hooks had their first command accepted. *)
Definition counted (os : list (option bool)) : Z :=
  Z.of_nat (length (omap id os)).

(** Counters are not negative; no row shows a negative count or more
    viewers than its peak, and the counter of a row's key is at most the
    row's peak. *)
Definition sane (st : State) : Prop :=
  (∀ k v, counters st !! k = Some v → (0 ≤ v)%Z)
  ∧ (∀ k r, streams st !! k = Some r →
            (0 ≤ viewer_count r ≤ peak_viewers r)%Z
            ∧ (counter st k ≤ peak_viewers r)%Z).

Definition fresh : State :=
  {| counters := ∅;
     streams := {[ "key-S"%string := {| viewer_count := 0; peak_viewers := 0 |} ]};
     requests := [] |}.

End Viewers.

(** * Properties of the playout service *)

Module PlayoutSpec.
Import Playout Scripts.

Lemma set_activePlayouts_same st : set_activePlayouts (activePlayouts st) st = st.
Proof. by destruct st. Qed.

Lemma task_lookup_fresh (ts : list Task) t : (ts ++ [t]) !! length ts = Some t.
Proof. rewrite lookup_app_r; [|lia]. by rewrite Nat.sub_diag. Qed.

Lemma task_insert_fresh (ts : list Task) t t' :
  <[length ts := t']> (ts ++ [t]) = ts ++ [t'].
Proof. rewrite insert_app_r_alt; [|lia]. by rewrite Nat.sub_diag. Qed.


Theorem stop_unregistered_noop st ch :
  activePlayouts st !! ch = None → step st (Stop ch) = st.
Proof.
  intros Hnone. unfold step. destruct (hung st); [done|].
  unfold stopPlayout, kill_current. rewrite Hnone.
  rewrite delete_id by done. apply set_activePlayouts_same.
Qed.

Lemma run_cons st i ins : run st (i :: ins) = run (step st i) ins.
Proof. done. Qed.

Lemma run_nil st : run st [] = st.
Proof. done. Qed.

Lemma run_app st ins1 ins2 : run st (ins1 ++ ins2) = run (run st ins1) ins2.
Proof. apply foldl_app. Qed.

Lemma step_Start st ev : hung st = false → step st (Start ev) = startPlayout ev st.
Proof. intros H. unfold step. by rewrite H. Qed.

Lemma step_DbDone st tid t ok :
  hung st = false → tasks st !! tid = Some t →
  step st (DbDone tid ok) = resume_db tid t ok st.
Proof. intros H Ht. unfold step. by rewrite H, Ht. Qed.

Lemma step_ProcClose st pid code :
  hung st = false → step st (ProcClose pid code) = settle pid (on_close code) st.
Proof. intros H. unfold step. by rewrite H. Qed.

Lemma getPlaylist_tasks st ts ch : getPlaylist (set_tasks ts st) ch = getPlaylist st ch.
Proof. done. Qed.

(** C9.  When the playlist snapshot loaded by a start is empty, the call
    writes status stopped for the channel and returns: nothing is spawned
    and the registry is left exactly as it was, so no entry is created
    for the channel. *)
Theorem empty_playlist_start st ev :
  hung st = false →
  getPlaylist st (channelId ev) = [] →
  let tid := length (tasks st) in
  let st' := run st [Start ev; DbDone tid true; DbDone tid true] in
  trace st' = trace st ++ [EvWriteStatus (channelId ev) stopped]
  ∧ activePlayouts st' = activePlayouts st
  ∧ procs st' = procs st
  ∧ tasks st' = tasks st ++ [{| event := ev; pc := Returned |}]
  ∧ ∀ row, linear_channels st !! channelId ev = Some row →
           linear_channels st' !! channelId ev = Some (with_status stopped row).
Proof.
  intros Hh Hpl tid st'.
  assert (E : st' = set_pc tid ev Returned
                      (write_status (channelId ev) stopped
                         (set_pc tid ev AwaitEmptyWrite (startPlayout ev st)))).
  { subst st'. rewrite run_cons, step_Start by done.
    rewrite run_cons, (step_DbDone _ tid {| event := ev; pc := AwaitPlaylist |})
      by (done || apply task_lookup_fresh).
    unfold resume_db at 1; simpl. unfold startPlayout at 1.
    rewrite getPlaylist_tasks, Hpl. unfold on_playlist.
    rewrite run_cons, (step_DbDone _ tid {| event := ev; pc := AwaitEmptyWrite |});
      [done | done | simpl; subst tid; by rewrite task_insert_fresh, task_lookup_fresh]. }
  rewrite E. simpl. subst tid. rewrite !task_insert_fresh.
  repeat split; try done.
  intros row Hrow. by rewrite lookup_alter_eq, Hrow.
Qed.

Lemma empty_playlist_start_witness :
  let st := set_linear_channels
              {[ "C" := {| status := running; current_item_index := 0 |} ]} init in
  let st' := run st [Start (startC false); DbDone 0 true; DbDone 0 true] in
  trace st' = [EvWriteStatus "C" stopped]
  ∧ activePlayouts st' = ∅
  ∧ procs st' = []
  ∧ tasks st' = [{| event := startC false; pc := Returned |}]
  ∧ ∀ row, linear_channels st !! "C" = Some row →
           linear_channels st' !! "C" = Some (with_status stopped row).
Proof.
  exact (empty_playlist_start
           (set_linear_channels
              {[ "C" := {| status := running; current_item_index := 0 |} ]} init)
           (startC false) eq_refl eq_refl).
Defined.

(** Registration: the playlist query of a start returns a non-empty
    snapshot. *)
Lemma resume_playlist st tid ev item pl :
  hung st = false →
  tasks st !! tid = Some {| event := ev; pc := AwaitPlaylist |} →
  getPlaylist st (channelId ev) = item :: pl →
  step st (DbDone tid true)
  = set_pc tid ev (AwaitIndexWrite (length (heap st)) item 0)
           (registered ev (item :: pl) st).
Proof.
  intros Hh Ht Hpl. rewrite (step_DbDone _ _ _ _ Hh Ht).
  unfold resume_db; simpl. rewrite Hpl. unfold on_playlist, loop_head.
  simpl. rewrite lookup_insert_eq. rewrite lookup_app_r by lia.
  by rewrite Nat.sub_diag.
Qed.

(** The index write completes and the item's child is spawned while the
    channel is registered under [l']. *)
Lemma resume_index_write st tid ev l item k l' :
  hung st = false →
  tasks st !! tid = Some {| event := ev; pc := AwaitIndexWrite l item k |} →
  activePlayouts st !! channelId ev = Some l' →
  step st (DbDone tid true)
  = set_pc tid ev (AwaitPlay l k (length (procs st)))
      (set_heap (alter (with_process (Some (length (procs st)))) l' (heap st))
         (log (EvSpawn (length (procs st)) (channelId ev) item)
            (set_procs (procs st ++ [tid]) (write_index (channelId ev) k st)))).
Proof.
  intros Hh Ht Hreg. rewrite (step_DbDone _ _ _ _ Hh Ht).
  unfold resume_db, playItem; simpl. by rewrite Hreg.
Qed.

(** The two completions that take a pending start of a non-empty channel
    to its first playing item. *)
Lemma start_to_first_item st tid ev item pl :
  hung st = false →
  tasks st !! tid = Some {| event := ev; pc := AwaitPlaylist |} →
  getPlaylist st (channelId ev) = item :: pl →
  let st' := run st [DbDone tid true; DbDone tid true] in
  trace st' = trace st ++ [EvWriteIndex (channelId ev) 0;
                           EvSpawn (length (procs st)) (channelId ev) item]
  ∧ activePlayouts st' = <[channelId ev := length (heap st)]> (activePlayouts st)
  ∧ heap st' = heap st ++ [with_process (Some (length (procs st)))
                                        (fresh_info ev (item :: pl))]
  ∧ tasks st' = <[tid := {| event := ev;
                            pc := AwaitPlay (length (heap st)) 0 (length (procs st)) |}]>
                  (tasks st)
  ∧ procs st' = procs st ++ [tid]
  ∧ hung st' = false.
Proof.
  intros Hh Ht Hpl st'. subst st'.
  pose proof (lookup_lt_Some _ _ _ Ht) as Hlt.
  rewrite run_cons, (resume_playlist _ _ _ _ _ Hh Ht Hpl).
  rewrite run_cons, (resume_index_write _ tid ev (length (heap st)) item 0 (length (heap st)));
    [ | done | simpl; by apply list_lookup_insert_eq | simpl; by rewrite lookup_insert_eq ].
  rewrite run_nil. simpl. rewrite list_insert_insert_eq.
  rewrite alter_app_r_alt by lia. rewrite Nat.sub_diag. simpl.
  by rewrite <- app_assoc.
Qed.

(** C2 (as amended).  A stop delivered after a start, but before the start
    handler has registered the channel, changes nothing: no cancellation
    is recorded.  The start handler then registers the channel and spawns
    its first child, and no kill is sent to that child. *)
Theorem stop_before_registration_is_dropped st tid ev item pl :
  hung st = false →
  tasks st !! tid = Some {| event := ev; pc := AwaitPlaylist |} →
  activePlayouts st !! channelId ev = None →
  getPlaylist st (channelId ev) = item :: pl →
  step st (Stop (channelId ev)) = st
  ∧ let st' := run st [Stop (channelId ev); DbDone tid true; DbDone tid true] in
    trace st' = trace st ++ [EvWriteIndex (channelId ev) 0;
                             EvSpawn (length (procs st)) (channelId ev) item]
    ∧ activePlayouts st' !! channelId ev = Some (length (heap st))
    ∧ heap st' !! length (heap st)
      = Some (with_process (Some (length (procs st))) (fresh_info ev (item :: pl)))
    ∧ tasks st' !! tid
      = Some {| event := ev;
                pc := AwaitPlay (length (heap st)) 0 (length (procs st)) |}.
Proof.
  intros Hh Ht Hnone Hpl.
  pose proof (stop_unregistered_noop st (channelId ev) Hnone) as Hstop.
  split; [done|]. intros st'. subst st'. rewrite run_cons, Hstop.
  destruct (start_to_first_item st tid ev item pl Hh Ht Hpl)
    as (Htr & Hreg & Hheap & Htasks & _ & _).
  rewrite Htr, Hreg, Hheap, Htasks. repeat split.
  - by rewrite lookup_insert_eq.
  - rewrite lookup_app_r by lia. by rewrite Nat.sub_diag.
  - apply list_lookup_insert_eq. by eapply lookup_lt_Some.
Qed.

Lemma stop_before_registration_is_dropped_witness :
  let st := step channelC (Start (startC false)) in
  let st' := run st [Stop "C"; DbDone 0 true; DbDone 0 true] in
  step st (Stop "C") = st
  ∧ trace st' = [EvWriteIndex "C" 0; EvSpawn 0 "C" item1]
  ∧ activePlayouts st' !! "C" = Some 0
  ∧ heap st' !! 0 = Some (with_process (Some 0) (fresh_info (startC false) [item1; item2]))
  ∧ tasks st' !! 0 = Some {| event := startC false; pc := AwaitPlay 0 0 0 |}.
Proof.
  exact (stop_before_registration_is_dropped
           (step channelC (Start (startC false))) 0 (startC false) item1 [item2]
           eq_refl eq_refl eq_refl eq_refl).
Defined.

(** C2 as stated fails: the stop delivered between the start and its
    registration is dropped, and the child spawned afterwards is running,
    registered, and was never sent a kill. *)
Lemma stop_before_registration_counterexample :
  let st' := run channelC [Start (startC false); Stop "C"; DbDone 0 true; DbDone 0 true] in
  spawn_count (trace st') = 1
  ∧ kill_count (trace st') = 0
  ∧ activePlayouts st' !! "C" = Some 0
  ∧ process <$> heap st' !! 0 = Some (Some 0)
  ∧ pc <$> tasks st' !! 0 = Some (AwaitPlay 0 0 0).
Proof. vm_compute. repeat split. Qed.

Lemma spawn_count_app t1 t2 : spawn_count (t1 ++ t2) = spawn_count t1 + spawn_count t2.
Proof. unfold spawn_count. by rewrite List.filter_app, length_app. Qed.

(** C1 (as amended).  A second start for a channel that is already
    registered, with a non-empty playlist snapshot, is not a no-op: the
    size of the registry is unchanged, but the channel's entry is replaced
    by a fresh object and, once the index write completes, one more child
    is spawned and stored in that new entry. *)
Theorem start_on_running_channel_replaces_entry st ev l item pl :
  hung st = false →
  activePlayouts st !! channelId ev = Some l →
  l < length (heap st) →
  getPlaylist st (channelId ev) = item :: pl →
  let tid := length (tasks st) in
  let st' := run st [Start ev; DbDone tid true; DbDone tid true] in
  size (activePlayouts st') = size (activePlayouts st)
  ∧ activePlayouts st' !! channelId ev = Some (length (heap st))
  ∧ length (heap st) ≠ l
  ∧ heap st' !! length (heap st)
    = Some (with_process (Some (length (procs st))) (fresh_info ev (item :: pl)))
  ∧ trace st' = trace st ++ [EvWriteIndex (channelId ev) 0;
                             EvSpawn (length (procs st)) (channelId ev) item]
  ∧ spawn_count (trace st') = S (spawn_count (trace st)).
Proof.
  intros Hh Hreg Hl Hpl tid st'. subst st'.
  rewrite run_cons, step_Start by done.
  destruct (start_to_first_item (startPlayout ev st) tid ev item pl)
    as (Htr & Hmap & Hheap & _ & _ & _);
    [done | apply task_lookup_fresh | done |].
  simpl in Htr, Hmap, Hheap. rewrite Htr, Hmap, Hheap.
  repeat split.
  - apply map_size_insert_Some. by rewrite Hreg.
  - by rewrite lookup_insert_eq.
  - lia.
  - rewrite lookup_app_r by lia. by rewrite Nat.sub_diag.
  - rewrite spawn_count_app. unfold spawn_count at 2. simpl. lia.
Qed.

Lemma start_on_running_channel_replaces_entry_witness :
  let st := run channelC [Start (startC false); DbDone 0 true; DbDone 0 true] in
  let st' := run st [Start (startC false); DbDone 1 true; DbDone 1 true] in
  size (activePlayouts st') = size (activePlayouts st)
  ∧ activePlayouts st' !! "C" = Some 1
  ∧ 1 ≠ 0
  ∧ heap st' !! 1 = Some (with_process (Some 1) (fresh_info (startC false) [item1; item2]))
  ∧ trace st' = trace st ++ [EvWriteIndex "C" 0; EvSpawn 1 "C" item1]
  ∧ spawn_count (trace st') = S (spawn_count (trace st)).
Proof.
  refine (start_on_running_channel_replaces_entry
            (run channelC [Start (startC false); DbDone 0 true; DbDone 0 true])
            (startC false) 0 item1 [item2] eq_refl eq_refl _ eq_refl).
  vm_compute. lia.
Defined.

(** C1 as stated fails: after the second start the channel that was
    running one child has two of them alive (neither was killed), and its
    registry entry is another object than before. *)
Lemma start_on_running_channel_counterexample :
  let st := run channelC [Start (startC false); DbDone 0 true; DbDone 0 true] in
  let st' := run st [Start (startC false); DbDone 1 true; DbDone 1 true] in
  activePlayouts st !! "C" = Some 0
  ∧ spawn_count (trace st) = 1
  ∧ activePlayouts st' !! "C" = Some 1
  ∧ spawn_count (trace st') = 2
  ∧ kill_count (trace st') = 0
  ∧ pc <$> tasks st' !! 0 = Some (AwaitPlay 0 0 0)
  ∧ pc <$> tasks st' !! 1 = Some (AwaitPlay 1 0 1).
Proof. vm_compute. repeat split. Qed.

(** *** References are never dangling

    The [None] branches of the heap look-ups in the model are not taken in
    any state reached from [init]. *)

Lemma wf_init : wf init.
Proof. split; simpl; intros *; [by rewrite lookup_empty | by rewrite lookup_nil]. Qed.

Lemma wf_set_pc tid ev k st :
  wf st → (∀ l, pc_ref k = Some l → l < length (heap st)) → wf (set_pc tid ev k st).
Proof.
  intros [Hm Ht] Hk. split; simpl; [done|].
  intros tid' t l [(-> & <- & _)|[_ Hold]]%list_lookup_insert_Some Hl; eauto.
Qed.

Lemma wf_set_heap h st : wf st → length (heap st) ≤ length h → wf (set_heap h st).
Proof.
  intros [Hm Ht] Hlen. split; simpl.
  - intros ch l Hl. specialize (Hm ch l Hl). lia.
  - intros tid t l Hl Hr. specialize (Ht tid t l Hl Hr). lia.
Qed.

Lemma wf_log e st : wf st → wf (log e st).
Proof. by intros [Hm Ht]. Qed.

Lemma wf_set_procs p st : wf st → wf (set_procs p st).
Proof. by intros [Hm Ht]. Qed.

Lemma wf_set_linear_channels c st : wf st → wf (set_linear_channels c st).
Proof. by intros [Hm Ht]. Qed.

Lemma wf_write_status ch s st : wf st → wf (write_status ch s st).
Proof. by intros [Hm Ht]. Qed.

Lemma wf_write_index ch n st : wf st → wf (write_index ch n st).
Proof. by intros [Hm Ht]. Qed.

Lemma wf_unregister ch st :
  wf st → wf (set_activePlayouts (delete ch (activePlayouts st)) st).
Proof.
  intros [Hm Ht]. split; simpl; [|done].
  intros ch' l [_ Hl]%lookup_delete_Some. eauto.
Qed.

Lemma wf_cleanup tid ev st : wf st → wf (cleanup tid ev st).
Proof. intros H. apply wf_set_pc; [by apply wf_unregister | done]. Qed.

Lemma wf_loop_head tid ev r k st : wf st → wf (loop_head tid ev r k st).
Proof.
  intros H. pose proof H as [Hm _]. unfold loop_head.
  repeat case_match; try (by apply wf_cleanup); try (by apply wf_set_pc);
    try (apply wf_set_pc; [done|]; simpl; intros ? [= <-]; by eapply Hm).
  by destruct H.
Qed.

Lemma wf_on_catch tid ev l k st : wf st → wf (on_catch tid ev l k st).
Proof.
  intros H. unfold on_catch.
  repeat case_match; try (by apply wf_loop_head); by apply wf_set_pc.
Qed.

Lemma wf_on_resolved tid ev l k st :
  wf st → l < length (heap st) → wf (on_resolved tid ev l k st).
Proof.
  intros H Hl. unfold on_resolved.
  repeat case_match; try (by apply wf_set_pc);
    try (apply wf_loop_head, wf_set_heap; [done | by rewrite length_insert]).
  apply wf_set_pc; [apply wf_set_heap; [done | by rewrite length_insert]|].
  simpl. intros ? [= <-]. by rewrite length_insert.
Qed.

Lemma wf_on_playlist tid ev pl st : wf st → wf (on_playlist tid ev pl st).
Proof.
  intros H. unfold on_playlist. destruct pl as [|item pl]; [by apply wf_set_pc|].
  apply wf_loop_head. destruct H as [Hm Ht]. split; simpl.
  - intros ch l [[_ <-]|[_ Hl]]%lookup_insert_Some;
      rewrite length_app; simpl; [lia|]. specialize (Hm _ _ Hl). lia.
  - intros tid' t l Hl Hr. rewrite length_app. specialize (Ht _ _ _ Hl Hr). lia.
Qed.

Lemma wf_resume_db tid t ok st :
  wf st → tasks st !! tid = Some t → wf (resume_db tid t ok st).
Proof.
  intros H Ht. unfold resume_db.
  destruct (pc t) as [| |l item k|l k pid|l| | |] eqn:Hpc; destruct ok;
    try done; try (by apply wf_set_pc);
    try (by apply wf_on_playlist); try (by apply wf_on_catch);
    try (apply wf_set_pc; [by apply wf_write_status|done]).
  - assert (Hl : l < length (heap st))
      by (destruct H as [_ H]; eapply H; [done|by rewrite Hpc]).
    assert (Hsp : wf (log (EvSpawn (length (procs st)) (channelId (event t)) item)
                       (set_procs (procs st ++ [tid])
                          (write_index (channelId (event t)) k st))))
      by (by apply wf_log, wf_set_procs, wf_write_index).
    unfold playItem. simpl. case_match.
    + apply wf_set_pc; [apply wf_set_heap; [done | by rewrite length_alter]|].
      simpl. intros ? [= <-]. by rewrite length_alter.
    + apply wf_set_pc; [done|]. by intros ? [= <-].
  - apply wf_loop_head, wf_set_heap; [done | by rewrite length_alter].
Qed.

Lemma wf_settle pid r st : wf st → wf (settle pid r st).
Proof.
  intros H. unfold settle.
  destruct (procs st !! pid) as [tid|]; [|done].
  destruct (tasks st !! tid) as [t|] eqn:Ht; [|done].
  destruct (pc t) as [| |l item k|l k pid'|l| | |] eqn:Hpc; try done.
  assert (Hl : l < length (heap st))
    by (destruct H as [_ H]; eapply H; [done|by rewrite Hpc]).
  case_decide; [|done]. by destruct r; [apply wf_on_resolved | apply wf_on_catch].
Qed.

Lemma wf_kill_current ch st : wf st → wf (kill_current ch st).
Proof. intros H. unfold kill_current. repeat case_match; by try apply wf_log. Qed.

(** The invariant is kept by every transition, hence holds in every state
    reached from [init]. *)
Lemma wf_step st i : wf st → wf (step st i).
Proof.
  intros H. unfold step. destruct (hung st); [done|].
  destruct i as [ev|ch|ch|tid ok|pid code|pid|ch items].
  - destruct H as [Hm Ht]. split; simpl; [done|].
    intros tid t l [Hl|[_ Hl]]%lookup_app_Some Hr; [by eapply Ht|].
    destruct (tid - length (tasks st)) as [|n]; simpl in Hl;
      [|by rewrite lookup_nil in Hl].
    by injection Hl as <-.
  - by apply wf_unregister, wf_kill_current.
  - by apply wf_kill_current.
  - destruct (tasks st !! tid) as [t|] eqn:Ht; [|done]. by apply wf_resume_db.
  - by apply wf_settle.
  - by apply wf_settle.
  - by destruct H.
Qed.

Lemma wf_run ins : ∀ st, wf st → wf (run st ins).
Proof.
  induction ins as [|i ins IH]; intros st H; [done|].
  rewrite run_cons. by apply IH, wf_step.
Qed.

Lemma held_object_allocated ins tid t l :
  tasks (run init ins) !! tid = Some t → pc_ref (pc t) = Some l →
  is_Some (heap (run init ins) !! l).
Proof.
  intros Ht Hl. apply lookup_lt_is_Some_2.
  destruct (wf_run ins init wf_init) as [_ H]. by eapply H.
Qed.

Lemma registered_object_allocated ins ch l :
  activePlayouts (run init ins) !! ch = Some l → is_Some (heap (run init ins) !! l).
Proof.
  intros Hl. apply lookup_lt_is_Some_2.
  destruct (wf_run ins init wf_init) as [H _]. by eapply H.
Qed.

(** *** Tasks other than the resumed one are not touched *)

Ltac frame_tasks :=
  intros; simpl;
  repeat (case_match; simpl);
  rewrite ?list_lookup_insert_ne by done; done.

Lemma cleanup_frame tid' ev st tid :
  tid' ≠ tid → tasks (cleanup tid' ev st) !! tid = tasks st !! tid.
Proof. unfold cleanup. frame_tasks. Qed.

Lemma loop_head_frame tid' ev r k st tid :
  tid' ≠ tid → tasks (loop_head tid' ev r k st) !! tid = tasks st !! tid.
Proof. unfold loop_head, cleanup. frame_tasks. Qed.

Lemma on_catch_frame tid' ev l k st tid :
  tid' ≠ tid → tasks (on_catch tid' ev l k st) !! tid = tasks st !! tid.
Proof.
  intros Hne. unfold on_catch.
  repeat case_match; rewrite ?loop_head_frame by done; simpl;
    rewrite ?list_lookup_insert_ne by done; done.
Qed.

Lemma on_resolved_frame tid' ev l k st tid :
  tid' ≠ tid → tasks (on_resolved tid' ev l k st) !! tid = tasks st !! tid.
Proof.
  intros Hne. unfold on_resolved.
  repeat case_match; rewrite ?loop_head_frame by done; simpl;
    rewrite ?list_lookup_insert_ne by done; done.
Qed.

Lemma resume_db_frame tid' t ok st tid :
  tid' ≠ tid → tasks (resume_db tid' t ok st) !! tid = tasks st !! tid.
Proof.
  intros Hne. unfold resume_db, on_playlist, playItem.
  repeat case_match; rewrite ?loop_head_frame, ?on_catch_frame by done; simpl;
    rewrite ?list_lookup_insert_ne by done; done.
Qed.

(** A task that returned or was rejected never moves again. *)
Lemma finished_stable st i tid t :
  tasks st !! tid = Some t → finished (pc t) → tasks (step st i) !! tid = Some t.
Proof.
  intros Ht Hfin. unfold step. destruct (hung st); [done|].
  destruct i as [ev|ch|ch|tid' ok|pid code|pid|ch items]; simpl.
  - by apply lookup_app_l_Some.
  - unfold stopPlayout, kill_current. by repeat case_match.
  - unfold skipItem, kill_current. by repeat case_match.
  - destruct (tasks st !! tid') as [t'|] eqn:Ht'; [|done].
    destruct (decide (tid' = tid)) as [->|Hne].
    + assert (t' = t) as -> by congruence.
      unfold resume_db. by destruct Hfin as [-> | ->].
    + by rewrite resume_db_frame.
  - unfold settle. destruct (procs st !! pid) as [tid'|]; [|done].
    destruct (tasks st !! tid') as [t'|] eqn:Ht'; [|done].
    destruct (decide (tid' = tid)) as [->|Hne].
    + assert (t' = t) as -> by congruence.
      by destruct Hfin as [-> | ->].
    + repeat case_match; rewrite ?on_resolved_frame, ?on_catch_frame by done; done.
  - unfold settle. destruct (procs st !! pid) as [tid'|]; [|done].
    destruct (tasks st !! tid') as [t'|] eqn:Ht'; [|done].
    destruct (decide (tid' = tid)) as [->|Hne].
    + assert (t' = t) as -> by congruence.
      by destruct Hfin as [-> | ->].
    + repeat case_match; rewrite ?on_resolved_frame, ?on_catch_frame by done; done.
  - done.
Qed.

Lemma finished_stable_run ins : ∀ st tid t,
  tasks st !! tid = Some t → finished (pc t) → tasks (run st ins) !! tid = Some t.
Proof.
  induction ins as [|i ins IH]; intros st tid t Ht Hfin; [done|].
  rewrite run_cons. apply IH; [|done]. by apply finished_stable.
Qed.

(** C7 (as amended).  A failed status or index write is not retried: the
    rejected query rejects the [startPlayout] call.  Nothing else changes
    in that step (no write is applied or issued again, the registry is left
    as it was), and whatever arrives later, the call stays rejected: the
    loop has been aborted. *)
Theorem write_failure_aborts_loop st tid ev k :
  hung st = false →
  tasks st !! tid = Some {| event := ev; pc := k |} →
  awaits_write k →
  step st (DbDone tid false) = set_pc tid ev Rejected st
  ∧ ∀ ins, tasks (run (step st (DbDone tid false)) ins) !! tid
           = Some {| event := ev; pc := Rejected |}.
Proof.
  intros Hh Ht Hk.
  assert (E : step st (DbDone tid false) = set_pc tid ev Rejected st).
  { rewrite (step_DbDone _ _ _ _ Hh Ht). unfold resume_db; simpl.
    destruct Hk as [-> | [-> | (l & item & i & ->)]]; done. }
  split; [done|]. intros ins. rewrite E.
  apply finished_stable_run; [|by right].
  simpl. apply list_lookup_insert_eq. by eapply lookup_lt_Some.
Qed.

Lemma write_failure_aborts_loop_witness :
  let st := run channelC [Start (startC false); DbDone 0 true] in
  step st (DbDone 0 false) = set_pc 0 (startC false) Rejected st
  ∧ ∀ ins, tasks (run (step st (DbDone 0 false)) ins) !! 0
           = Some {| event := startC false; pc := Rejected |}.
Proof.
  refine (write_failure_aborts_loop
            (run channelC [Start (startC false); DbDone 0 true]) 0 (startC false)
            (AwaitIndexWrite 0 item1 0) eq_refl eq_refl _).
  right; right. by exists 0, item1, 0.
Defined.

(** C7 as stated fails: when the first index write fails, the call is
    rejected with the channel still registered, nothing was written, no
    child was spawned, and a later completion does not revive the loop. *)
Lemma write_failure_counterexample :
  let st' := run channelC [Start (startC false); DbDone 0 true; DbDone 0 false;
                           DbDone 0 true] in
  pc <$> tasks st' !! 0 = Some Rejected
  ∧ trace st' = []
  ∧ activePlayouts st' !! "C" = Some 0
  ∧ linear_channels st' !! "C" = Some {| status := running; current_item_index := 0 |}.
Proof. vm_compute. repeat split. Qed.

(** *** One iteration of the loop *)

Lemma play_one st tid ev l k item pl :
  in_loop st tid ev l k item pl →
  let st2 := run st [DbDone tid true; ProcClose (length (procs st)) (Some 0%Z)] in
  trace st2 = trace st ++ [EvWriteIndex (channelId ev) k;
                           EvSpawn (length (procs st)) (channelId ev) item]
  ∧ length (procs st2) = S (length (procs st))
  ∧ linear_channels st2 = alter (with_index k) (channelId ev) (linear_channels st)
  ∧ match pl !! S k with
    | Some item' => in_loop st2 tid ev l (S k) item' pl
    | None =>
        loop ev = false →
        hung st2 = false
        ∧ tasks st2 !! tid = Some {| event := ev; pc := AwaitFinalWrite |}
        ∧ activePlayouts st2 !! channelId ev = None
    end.
Proof.
  intros (Hh & Ht & Hreg & Hpl & Hk) st2. subst st2.
  destruct (heap st !! l) as [info|] eqn:Hinfo; [|done].
  injection Hpl as Hpl.
  pose proof (lookup_lt_Some _ _ _ Ht) as Hlt.
  pose proof (lookup_lt_Some _ _ _ Hinfo) as Hllt.
  rewrite run_cons, (resume_index_write _ _ _ _ _ _ l Hh Ht Hreg).
  rewrite run_cons, step_ProcClose by done. rewrite run_nil.
  unfold settle; simpl.
  rewrite lookup_app_r by lia. rewrite Nat.sub_diag; simpl.
  rewrite list_lookup_insert_eq by done. simpl.
  rewrite decide_True by done.
  unfold on_resolved; simpl.
  rewrite list_lookup_alter_eq, Hinfo; simpl. rewrite Hpl.
  destruct (pl !! S k) as [item'|] eqn:Hnext.
  - pose proof (lookup_lt_Some _ _ _ Hnext) as Hlen.
    destruct (Nat.leb_spec (length pl) (S k)) as [?|_]; [lia|].
    unfold loop_head; simpl. rewrite Hreg.
    rewrite list_lookup_insert_eq by (by rewrite length_alter). simpl.
    rewrite Hpl, Hnext. simpl.
    repeat split; try done.
    + by rewrite <- app_assoc.
    + by rewrite length_app, Nat.add_1_r.
    + simpl. rewrite list_lookup_insert_eq; [done|]. by rewrite length_insert.
    + simpl. rewrite list_lookup_insert_eq by (by rewrite length_alter).
      simpl. by rewrite Hpl.
  - pose proof (lookup_ge_None_1 _ _ Hnext) as Hlen.
    destruct (Nat.leb_spec (length pl) (S k)) as [_|?]; [|lia].
    destruct (loop ev) eqn:Hloop; simpl.
    + repeat split; try done.
      * by rewrite <- app_assoc.
      * by rewrite length_app, Nat.add_1_r.
    + repeat split; try done.
      * by rewrite <- app_assoc.
      * by rewrite length_app, Nat.add_1_r.
      * rewrite list_lookup_insert_eq; [done|]. by rewrite length_insert.
      * apply lookup_delete_eq.
Qed.

(** *** The whole run of a playlist that is not looped *)

Lemma clean_items_S tid pid0 n :
  clean_items tid pid0 (S n)
  = [DbDone tid true; ProcClose pid0 (Some 0%Z)] ++ clean_items tid (S pid0) n.
Proof. done. Qed.

Lemma clean_loop n : ∀ st tid ev l k item pl row,
  loop ev = false →
  in_loop st tid ev l k item pl →
  length pl = k + S n →
  linear_channels st !! channelId ev = Some row →
  let st' := run st (clean_script tid (length (procs st)) (S n)) in
  trace st' = trace st
              ++ play_events (channelId ev) (length (procs st)) k (drop k pl)
              ++ [EvWriteStatus (channelId ev) stopped]
  ∧ activePlayouts st' !! channelId ev = None
  ∧ linear_channels st' !! channelId ev
    = Some {| status := stopped; current_item_index := k + n |}
  ∧ tasks st' !! tid = Some {| event := ev; pc := Returned |}.
Proof.
  induction n as [|n IH]; intros st tid ev l k item pl row Hloop Hin Hlen Hrow st';
    subst st'; pose proof Hin as (Hh & Ht & Hreg & Hpl & Hk);
    destruct (play_one st tid ev l k item pl Hin) as (Htr & Hprocs & Hch & Hnext);
    unfold clean_script; rewrite clean_items_S, <- app_assoc, run_app;
    set (st2 := run st [DbDone tid true; ProcClose (length (procs st)) (Some 0%Z)]) in *;
    rewrite (drop_S _ _ _ Hk).
  - rewrite lookup_ge_None_2 in Hnext by lia.
    destruct (Hnext Hloop) as (Hh2 & Ht2 & Hreg2).
    rewrite drop_ge by lia. simpl.
    rewrite run_cons, (step_DbDone _ _ _ _ Hh2 Ht2), run_nil.
    unfold resume_db; simpl. rewrite Htr, Hch, <- app_assoc. simpl.
    repeat split; try done.
    + rewrite !lookup_alter_eq, Hrow. simpl. by rewrite Nat.add_0_r.
    + apply list_lookup_insert_eq. by eapply lookup_lt_Some.
  - destruct (pl !! S k) as [item'|] eqn:Hnx;
      [| apply lookup_ge_None_1 in Hnx; lia].
    assert (Hrow2 : linear_channels st2 !! channelId ev = Some (with_index k row))
      by (by rewrite Hch, lookup_alter_eq, Hrow).
    destruct (IH st2 tid ev l (S k) item' pl _ Hloop Hnext ltac:(lia) Hrow2)
      as (Htr' & Hreg' & Hch' & Ht').
    unfold clean_script in Htr', Hreg', Hch', Ht'. rewrite Hprocs in *.
    rewrite Htr', Htr, Hreg', Hch', Ht', <- !app_assoc. simpl.
    repeat split; try done. do 3 f_equal. lia.
Qed.

(** C4.  For a non-empty playlist that is not looped, starting playout and
    letting every child exit with code 0 writes [current_item_index] 0,
    1, ..., N-1 in turn, each write preceding the spawn of its item; after
    the last exit the channel's row says stopped (its index is still N-1),
    the channel is not in the registry, and the call has returned. *)
Theorem nonlooping_clean_run st ev pl row :
  hung st = false →
  loop ev = false →
  getPlaylist st (channelId ev) = pl →
  pl ≠ [] →
  linear_channels st !! channelId ev = Some row →
  let tid := length (tasks st) in
  let st' := run st (Start ev :: DbDone tid true
                       :: clean_script tid (length (procs st)) (length pl)) in
  trace st' = trace st
              ++ play_events (channelId ev) (length (procs st)) 0 pl
              ++ [EvWriteStatus (channelId ev) stopped]
  ∧ activePlayouts st' !! channelId ev = None
  ∧ linear_channels st' !! channelId ev
    = Some {| status := stopped; current_item_index := length pl - 1 |}
  ∧ tasks st' !! tid = Some {| event := ev; pc := Returned |}.
Proof.
  intros Hh Hloop Hpl Hne Hrow tid st'. subst st'.
  destruct pl as [|item pl']; [done|].
  rewrite run_cons, step_Start by done.
  rewrite run_cons, (resume_playlist _ tid ev item pl');
    [ | done | apply task_lookup_fresh | done ].
  set (st1 := set_pc _ _ _ _).
  assert (Hin : in_loop st1 tid ev (length (heap st)) 0 item (item :: pl')).
  { subst st1. repeat split; simpl.
    - done.
    - subst tid. by rewrite task_insert_fresh, task_lookup_fresh.
    - by rewrite lookup_insert_eq.
    - rewrite lookup_app_r by lia. by rewrite Nat.sub_diag. }
  destruct (clean_loop (length pl') st1 tid ev _ 0 item (item :: pl') row Hloop Hin)
    as (Htr & Hreg & Hch & Ht); [done | done |].
  change (procs st1) with (procs st) in *. change (trace st1) with (trace st) in *.
  change (length (item :: pl')) with (S (length pl')).
  rewrite Htr, Hreg, Hch, Ht. simpl. by rewrite Nat.sub_0_r.
Qed.

Lemma nonlooping_clean_run_witness :
  let st' := run channelC (Start (startC false) :: DbDone 0 true :: clean_script 0 0 2) in
  trace st' = [EvWriteIndex "C" 0; EvSpawn 0 "C" item1;
               EvWriteIndex "C" 1; EvSpawn 1 "C" item2;
               EvWriteStatus "C" stopped]
  ∧ activePlayouts st' !! "C" = None
  ∧ linear_channels st' !! "C" = Some {| status := stopped; current_item_index := 1 |}
  ∧ tasks st' !! 0 = Some {| event := startC false; pc := Returned |}.
Proof.
  refine (nonlooping_clean_run channelC (startC false) [item1; item2]
            {| status := running; current_item_index := 0 |}
            eq_refl eq_refl eq_refl _ eq_refl).
  discriminate.
Defined.

(** C5, at the failing input.  The only item of a looping channel is
    playing and the playlist has been edited meanwhile.  After a clean
    exit the snapshot is refreshed and the loop goes on with the new first
    item; after an exit with code 1 the index is reset to 0 as well, but
    the snapshot is not refreshed: the loop goes on with the old item. *)
Theorem abnormal_exit_on_last_item_skips_refresh :
  let clean := run channelL_playing [ProcClose 0 (Some 0%Z); DbDone 0 true] in
  let abnormal := run channelL_playing [ProcClose 0 (Some 1%Z)] in
  pc <$> tasks clean !! 0 = Some (AwaitIndexWrite 0 item3 0)
  ∧ playlist <$> heap clean !! 0 = Some [item3]
  ∧ pc <$> tasks abnormal !! 0 = Some (AwaitIndexWrite 0 item1 0)
  ∧ playlist <$> heap abnormal !! 0 = Some [item1]
  ∧ getPlaylist abnormal "C" = [item3].
Proof. vm_compute. repeat split. Qed.

End PlayoutSpec.

(** * Properties of the restream service *)

Module RestreamSpec.
Import Restream Fanout Api.

Lemma rs_run_cons st i ins : run st (i :: ins) = run (step st i) ins.
Proof. done. Qed.

Lemma rs_run_nil st : run st [] = st.
Proof. done. Qed.

Lemma rs_run_app st ins1 ins2 : run st (ins1 ++ ins2) = run (run st ins1) ins2.
Proof. apply foldl_app. Qed.

(** *** Rows and updates *)

Lemma has_id_true i d : has_id i d = true ↔ id d = i.
Proof. unfold has_id. by rewrite bool_decide_eq_true. Qed.

Lemma lookup_row_update i j f rows :
  (∀ d, id (f d) = id d) →
  lookup_row j (update_where (has_id i) f rows)
  = if bool_decide (i = j) then f <$> lookup_row j rows else lookup_row j rows.
Proof.
  intros Hid. unfold update_where. induction rows as [|d rows IH]; csimpl.
  - by case_bool_decide.
  - rewrite IH. unfold has_id.
    destruct (decide (id d = i)) as [Hdi|Hdi].
    + rewrite (bool_decide_eq_true_2 (id d = i)) by done.
      rewrite Hid. repeat case_bool_decide; simpl; congruence.
    + rewrite (bool_decide_eq_false_2 (id d = i)) by done.
      repeat case_bool_decide; simpl; congruence.
Qed.

Lemma lookup_row_update_eq i f rows :
  (∀ d, id (f d) = id d) →
  lookup_row i (update_where (has_id i) f rows) = f <$> lookup_row i rows.
Proof. intros Hid. rewrite lookup_row_update by done. by rewrite bool_decide_eq_true_2. Qed.

Lemma lookup_row_update_ne i j f rows :
  (∀ d, id (f d) = id d) → i ≠ j →
  lookup_row j (update_where (has_id i) f rows) = lookup_row j rows.
Proof. intros Hid Hne. rewrite lookup_row_update by done. by rewrite bool_decide_eq_false_2. Qed.

Lemma dest_effect_id o d : id (dest_effect o d) = id d.
Proof. by destruct o as [m|[info|]]. Qed.

Lemma rs_step_DbDone st tid k error :
  tasks st !! tid = Some k → step st (DbDone tid error) = resume_db tid k error st.
Proof. intros Ht. unfold step. by rewrite Ht. Qed.

(** *** One destination of the fan-out *)

Lemma next_dest_head tid src rows st :
  next_dest tid src rows st = set_pc tid (at_head src rows) st.
Proof. by destruct rows. Qed.

Lemma one_dest st tid src d rest r :
  tasks st !! tid = Some (StartAwaitResolve src d rest) →
  let st2 := run st [Resolved tid r; DbDone tid None] in
  tasks st2 = <[tid := at_head src rest]> (tasks st)
  ∧ social_accounts st2 = social_accounts st
  ∧ restream_destinations st2
    = update_where (has_id (dest_id d)) (dest_effect (outcome st d r))
                   (restream_destinations st)
  ∧ match outcome st d r with
    | Returns (Some info) =>
        activeProcesses st2 = <[dest_id d := length (procs st)]> (activeProcesses st)
        ∧ procs st2 = procs st ++ [(dest_id d, false)]
        ∧ trace st2 = trace st ++ [EvSpawn (length (procs st)) (dest_id d) src
                                           (destinationUrl_of info);
                                   EvWrite (dest_id d) active]
    | _ =>
        activeProcesses st2 = activeProcesses st
        ∧ procs st2 = procs st
        ∧ trace st2 = trace st ++ [EvWrite (dest_id d) failed]
    end.
Proof.
  intros Ht st2. subst st2.
  pose proof (lookup_lt_Some _ _ _ Ht) as Hlt.
  rewrite !rs_run_cons, !rs_run_nil.
  assert (E1 : step st (Resolved tid r) = start_resolved tid src d rest r st)
    by (unfold step; by rewrite Ht).
  rewrite E1. unfold start_resolved. fold (outcome st d r).
  destruct (outcome st d r) as [m|[info|]] eqn:Ho;
    erewrite rs_step_DbDone by (simpl; by apply list_lookup_insert_eq);
    unfold resume_db; rewrite next_dest_head;
    simpl; rewrite list_insert_insert_eq;
    repeat split; try done; by rewrite <- app_assoc.
Qed.

(** *** The whole fan-out *)

Lemma outcome_accounts st1 st2 d r :
  social_accounts st1 = social_accounts st2 → outcome st1 d r = outcome st2 d r.
Proof. intros H. unfold outcome, getPlatformRtmpUrl. by rewrite H. Qed.

Lemma fanout_events_accounts st1 st2 src rows : ∀ pid replies,
  social_accounts st1 = social_accounts st2 →
  fanout_events st1 src pid rows replies = fanout_events st2 src pid rows replies.
Proof.
  induction rows as [|d rows IH]; intros pid [|r replies] H; simpl; try done.
  rewrite (outcome_accounts st1 st2) by done.
  destruct (outcome st2 d r) as [m|[info|]]; by rewrite IH.
Qed.

Lemma fanout_run tid src : ∀ rows replies st,
  length rows = length replies →
  tasks st !! tid = Some (at_head src rows) →
  NoDup (dest_id <$> rows) →
  let st' := run st (fanout_script tid replies) in
  tasks st' !! tid = Some Returned
  ∧ social_accounts st' = social_accounts st
  ∧ trace st' = trace st ++ fanout_events st src (length (procs st)) rows replies
  ∧ (∀ i, i ∉ dest_id <$> rows →
       lookup_row i (restream_destinations st') = lookup_row i (restream_destinations st)
       ∧ activeProcesses st' !! i = activeProcesses st !! i)
  ∧ (∀ k d r, rows !! k = Some d → replies !! k = Some r →
       lookup_row (dest_id d) (restream_destinations st')
       = dest_effect (outcome st d r)
           <$> lookup_row (dest_id d) (restream_destinations st)
       ∧ (resolves st d r → is_Some (activeProcesses st' !! dest_id d))
       ∧ (fails st d r →
          activeProcesses st' !! dest_id d = activeProcesses st !! dest_id d)).
Proof.
  induction rows as [|d rows IH]; intros [|r replies] st Hlen Ht Hnd st';
    try discriminate; subst st'.
  { rewrite rs_run_nil. simpl. rewrite app_nil_r. repeat split; try done.
    all: intros k d r Hk; by rewrite lookup_nil in Hk. }
  simpl in Ht. injection Hlen as Hlen.
  rewrite fmap_cons in Hnd. apply NoDup_cons in Hnd as [Hfresh Hnd].
  change (fanout_script tid (r :: replies))
    with ([Resolved tid r; DbDone tid None] ++ fanout_script tid replies).
  rewrite rs_run_app.
  destruct (one_dest st tid src d rows r Ht) as (Ht2 & Hsa2 & Hrows2 & Hcase).
  set (st2 := run st [Resolved tid r; DbDone tid None]) in *.
  assert (Hhead : tasks st2 !! tid = Some (at_head src rows)).
  { rewrite Ht2. apply list_lookup_insert_eq. by eapply lookup_lt_Some. }
  destruct (IH replies st2 Hlen Hhead Hnd) as (Hret & Hsa & Htr & Hout & Hin).
  assert (Hreg2 : ∀ i, i ≠ dest_id d →
                       activeProcesses st2 !! i = activeProcesses st !! i).
  { intros i Hi. destruct (outcome st d r) as [m|[info|]];
      destruct Hcase as (-> & _ & _); by rewrite ?lookup_insert_ne. }
  assert (Htrace : trace st2 ++ fanout_events st src (length (procs st2)) rows replies
                   = trace st ++ fanout_events st src (length (procs st))
                                               (d :: rows) (r :: replies)).
  { simpl. destruct (outcome st d r) as [m|[info|]];
      destruct Hcase as (_ & -> & ->); rewrite <- app_assoc; simpl; try done.
    by rewrite length_app, Nat.add_1_r. }
  split; [done|]. split; [congruence|]. split.
  { rewrite Htr, (fanout_events_accounts st2 st) by done. apply Htrace. }
  split.
  - intros i Hi. rewrite fmap_cons, not_elem_of_cons in Hi. destruct Hi as [Hne Hi].
    destruct (Hout i Hi) as [-> ->]. split; [|by apply Hreg2].
    rewrite Hrows2. apply lookup_row_update_ne; [apply dest_effect_id | done].
  - intros [|k] d' r' Hk Hr; simpl in Hk, Hr.
    + injection Hk as <-. injection Hr as <-.
      destruct (Hout (dest_id d) Hfresh) as [-> ->]. split; [|split].
      * rewrite Hrows2. apply lookup_row_update_eq, dest_effect_id.
      * intros [info Hinfo]. rewrite Hinfo in Hcase. destruct Hcase as (-> & _).
        rewrite lookup_insert_eq. by eexists.
      * intros [m Hm]. destruct (outcome st d r) as [m'|[info|]];
          [ | done | ]; by destruct Hcase as (-> & _).
    + assert (Hne : dest_id d ≠ dest_id d').
      { intros Heq. apply Hfresh. rewrite Heq.
        apply list_elem_of_fmap. exists d'. split; [done|].
        by eapply list_elem_of_lookup_2. }
      destruct (Hin k d' r' Hk Hr) as (Hrow & Hres & Hfail).
      rewrite (outcome_accounts st2 st) in Hrow by done.
      unfold resolves, fails in *.
      rewrite (outcome_accounts st2 st) in Hres, Hfail by done.
      split; [|split].
      * rewrite Hrow, Hrows2.
        by rewrite lookup_row_update_ne by (apply dest_effect_id || done).
      * done.
      * intros Hf. rewrite (Hfail Hf). by apply Hreg2.
Qed.

(** *** The enumeration *)

Lemma lookup_row_elem d rows : d ∈ rows → is_Some (lookup_row (id d) rows).
Proof.
  induction rows as [|x rows IH]; intros Hd; [by apply elem_of_nil in Hd|].
  simpl. destruct (has_id (id d) x) eqn:Hx; [by eexists|].
  apply elem_of_cons in Hd as [->|Hd]; [|by apply IH].
  unfold has_id in Hx. by rewrite bool_decide_eq_true_2 in Hx.
Qed.

Lemma enumerate_elem st sid d :
  d ∈ enumerate st sid → ∃ x, x ∈ restream_destinations st ∧ id x = dest_id d.
Proof.
  unfold enumerate. rewrite list_elem_of_omap. intros (x & Hx & Hfx).
  exists x. split; [done|]. repeat case_match; try done. by injection Hfx as <-.
Qed.

Lemma enumerate_row st sid d :
  d ∈ enumerate st sid → is_Some (lookup_row (dest_id d) (restream_destinations st)).
Proof.
  intros (x & Hx & <-)%enumerate_elem. by apply lookup_row_elem.
Qed.

Lemma enumerate_NoDup st sid :
  NoDup (id <$> restream_destinations st) → NoDup (dest_id <$> enumerate st sid).
Proof.
  assert (G : ∀ rows,
    NoDup (id <$> rows) →
    (∀ d, d ∈ enumerate (set_destinations rows st) sid → dest_id d ∈ id <$> rows)
    ∧ NoDup (dest_id <$> enumerate (set_destinations rows st) sid)).
  { induction rows as [|x rows IH]; intros Hnd.
    - split; [|constructor]. intros d Hd. by apply elem_of_nil in Hd.
    - rewrite fmap_cons in Hnd. apply NoDup_cons in Hnd as [Hx Hnd].
      destruct (IH Hnd) as [Hsub Hnd']. unfold enumerate in *. simpl in *.
      destruct (decide (stream_id x = sid)) as [Hs|Hs];
        [rewrite (bool_decide_eq_true_2 _ Hs)|rewrite (bool_decide_eq_false_2 _ Hs)].
      2: { split; [|done]. intros d Hd. right. by apply Hsub. }
      destruct (social_accounts st !! social_account_id x) as [sa|].
      2: { split; [|done]. intros d Hd. right. by apply Hsub. }
      destruct (is_active sa).
      2: { split; [|done]. intros d Hd. right. by apply Hsub. }
      split.
      + intros d Hd. apply elem_of_cons in Hd as [->|Hd]; [by left|].
        right. by apply Hsub.
      + rewrite fmap_cons. apply NoDup_cons. split; [|done]. simpl.
        intros (d & Hd & Hin)%list_elem_of_fmap. apply Hx. rewrite Hd.
        by apply Hsub. }
  intros Hnd. destruct (G (restream_destinations st) Hnd) as [_ H].
  by destruct st.
Qed.

(** C3 (as amended).  In a fan-out over the enabled destinations of a
    stream in which the resolution of exactly one destination, the [j]th,
    fails (by returning null or by throwing), while all status writes
    succeed: every other destination ends active with a registered
    child, the failing one ends failed with an error message and gets no
    child, and the handler returns.  The effects happen destination by
    destination in enumeration order ([fanout_events]): a destination is
    started only after the status write of every destination before it,
    the failed one included. *)
Theorem fanout_failure_is_isolated st ev rows replies j b rb :
  NoDup (id <$> restream_destinations st) →
  enumerate st (streamId ev) = rows →
  length rows = length replies →
  rows !! j = Some b →
  replies !! j = Some rb →
  fails st b rb →
  (∀ k d r, k ≠ j → rows !! k = Some d → replies !! k = Some r → resolves st d r) →
  let tid := length (tasks st) in
  let src := ("rtmp://srs:1935/live/" ++ streamKey ev)%string in
  let st' := run st (StreamStart ev :: DbDone tid None :: fanout_script tid replies) in
  tasks st' !! tid = Some Returned
  ∧ trace st' = trace st ++ fanout_events st src (length (procs st)) rows replies
  ∧ (∀ k d, k ≠ j → rows !! k = Some d →
       status_of st' (dest_id d) = Some active
       ∧ is_Some (activeProcesses st' !! dest_id d))
  ∧ (∃ row, lookup_row (dest_id b) (restream_destinations st') = Some row
            ∧ status row = failed ∧ is_Some (error_message row))
  ∧ activeProcesses st' !! dest_id b = activeProcesses st !! dest_id b.
Proof.
  intros Hkey Hrows Hlen Hb Hrb Hfail Hothers tid src st'.
  set (st1 := set_pc tid (at_head src rows) (spawn_task (StartAwaitEnumerate ev) st)).
  assert (E : st' = run st1 (fanout_script tid replies)).
  { subst st' st1. rewrite rs_run_cons. unfold step at 1, handleStreamStart.
    rewrite rs_run_cons, (rs_step_DbDone _ tid (StartAwaitEnumerate ev));
      [|simpl; rewrite lookup_app_r by lia; by rewrite Nat.sub_diag].
    unfold resume_db. rewrite next_dest_head.
    change (enumerate (spawn_task _ st) (streamId ev)) with (enumerate st (streamId ev)).
    by rewrite Hrows. }
  rewrite E. clear E st'.
  assert (Hhead : tasks st1 !! tid = Some (at_head src rows)).
  { subst st1 tid. simpl. rewrite list_lookup_insert_eq; [done|].
    rewrite length_app. simpl. lia. }
  assert (Hnd : NoDup (dest_id <$> rows)) by (subst rows; by apply enumerate_NoDup).
  destruct (fanout_run tid src rows replies st1 Hlen Hhead Hnd)
    as (Hret & _ & Htr & _ & Hin).
  split; [done|]. split.
  { rewrite Htr. by rewrite (fanout_events_accounts st1 st). }
  assert (Hrow : ∀ k d, rows !! k = Some d →
                 is_Some (lookup_row (dest_id d) (restream_destinations st))).
  { intros k d Hk. apply (enumerate_row st (streamId ev)). rewrite Hrows.
    by eapply list_elem_of_lookup_2. }
  split; [|split].
  - intros k d Hkj Hk.
    destruct (lookup_lt_is_Some_2 replies k) as [r Hr];
      [rewrite <- Hlen; by eapply lookup_lt_Some|].
    destruct (Hin k d r Hk Hr) as (Hd & Hreg & _).
    destruct (Hothers k d r Hkj Hk Hr) as [info Hinfo].
    rewrite (outcome_accounts st1 st) in Hd by done.
    split; [|apply Hreg; exists info; by rewrite (outcome_accounts st1 st)].
    unfold status_of. rewrite Hd, Hinfo.
    destruct (Hrow k d Hk) as [x Hx]. change (restream_destinations st1)
      with (restream_destinations st). by rewrite Hx.
  - destruct (Hin j b rb Hb Hrb) as (Hd & _ & _).
    rewrite (outcome_accounts st1 st) in Hd by done.
    destruct (Hrow j b Hb) as [x Hx].
    change (restream_destinations st1) with (restream_destinations st) in Hd.
    rewrite Hx in Hd. eexists. split; [exact Hd|].
    destruct Hfail as [m Hm].
    destruct (outcome st b rb) as [m'|[info|]]; [ | done | ]; simpl; by eauto.
  - destruct (Hin j b rb Hb Hrb) as (_ & _ & Hreg). apply Hreg.
    unfold fails. by rewrite (outcome_accounts st1 st).
Qed.

Lemma fanout_failure_is_isolated_witness :
  let src := "rtmp://srs:1935/live/key-S"%string in
  let st' := run streamS (StreamStart startS :: DbDone 0 None
                            :: fanout_script 0 [good; ApiError; good]) in
  tasks st' !! 0 = Some Returned
  ∧ trace st' = fanout_events streamS src 0 rowsS [good; ApiError; good]
  ∧ (∀ k d, k ≠ 1 → rowsS !! k = Some d →
       status_of st' (dest_id d) = Some active
       ∧ is_Some (activeProcesses st' !! dest_id d))
  ∧ (∃ row, lookup_row "B" (restream_destinations st') = Some row
            ∧ status row = failed ∧ is_Some (error_message row))
  ∧ activeProcesses st' !! "B" = None.
Proof.
  refine (fanout_failure_is_isolated streamS startS rowsS [good; ApiError; good] 1
            (rowOf "B" "sa-B" "youtube") ApiError _ eq_refl eq_refl eq_refl eq_refl _ _).
  - apply (bool_decide_unpack _). vm_compute. exact I.
  - vm_compute. by eexists.
  - intros [|[|[|k]]] d r Hk Hd Hr; try done; simpl in Hd, Hr;
      injection Hd as <-; injection Hr as <-; eexists; vm_compute; reflexivity.
Defined.

(** C3 as stated fails on "delays": once B's resolution has failed, C is
    not started until B's failed write has completed.  In that state C is
    still pending and has no child, an answer of the resolver is not
    accepted (none has been asked for C), and C becomes active only after
    the completion of B's write. *)
Lemma fanout_failure_delays_counterexample :
  tasks streamS_B_failed !! 0
  = Some (StartAwaitFailedWrite "rtmp://srs:1935/live/key-S"
            (rowOf "B" "sa-B" "youtube") [rowOf "C" "sa-C" "twitch"])
  ∧ status_of streamS_B_failed "C" = Some pending
  ∧ activeProcesses streamS_B_failed !! "C" = None
  ∧ step streamS_B_failed (Resolved 0 good) = streamS_B_failed
  ∧ status_of (run streamS_B_failed [Resolved 0 good; DbDone 0 None]) "C"
    = Some pending
  ∧ status_of (run streamS_B_failed [DbDone 0 None; Resolved 0 good; DbDone 0 None]) "C"
    = Some active.
Proof. vm_compute. repeat split. Qed.

(** C6, at the failing input.  Destination X is active with child 0.  A
    stream stop kills the child and writes stopped; the child then closes
    with code 255 (or, ended by the signal, without a code) and its close
    handler overwrites stopped with failed.  The same final status
    results when the close is handled before the stop's update
    completes. *)
Theorem stream_stop_ends_failed :
  let stop := [StreamStop "S"; DbDone 1 None; DbDone 1 None] in
  status_of streamX "X" = Some active
  ∧ activeProcesses streamX !! "X" = Some 0
  ∧ status_of (run streamX stop) "X" = Some stopped
  ∧ trace (run streamX (stop ++ [ProcClose 0 (Some 255%Z)]))
    = trace streamX ++ [EvKill 0; EvWrite "X" stopped; EvWrite "X" failed]
  ∧ status_of (run streamX (stop ++ [ProcClose 0 (Some 255%Z)])) "X" = Some failed
  ∧ status_of (run streamX (stop ++ [ProcClose 0 None])) "X" = Some failed
  ∧ status_of (run streamX [StreamStop "S"; DbDone 1 None;
                            ProcClose 0 (Some 255%Z); DbDone 1 None]) "X"
    = Some failed.
Proof. vm_compute. repeat split. Qed.

(** *** Stopping a destination whose child has already exited *)

Lemma lookup_row_update_hit i hit f rows d :
  (∀ x, id (f x) = id x) →
  (∀ x, hit x = true → id x = i) →
  lookup_row i rows = Some d → hit d = true →
  existsb hit rows = true
  ∧ lookup_row i (update_where hit f rows) = Some (f d).
Proof.
  intros Hid Hhit. unfold update_where.
  induction rows as [|x rows IH]; intros Hd Hdhit; [done|]. csimpl in *.
  unfold has_id in *. destruct (decide (id x = i)) as [Hx|Hx].
  - rewrite (bool_decide_eq_true_2 _ Hx) in Hd. injection Hd as ->.
    rewrite Hdhit, Hid, (bool_decide_eq_true_2 _ Hx). done.
  - rewrite (bool_decide_eq_false_2 _ Hx) in Hd.
    destruct (IH Hd Hdhit) as [-> ->]. rewrite orb_true_r.
    destruct (hit x) eqn:Hhx; [by apply Hhit in Hhx|].
    by rewrite (bool_decide_eq_false_2 _ Hx).
Qed.

Lemma stop_route_unregistered st X user row :
  activeProcesses st !! X = None →
  lookup_row X (restream_destinations st) = Some row →
  streams st !! stream_id row = Some user →
  let r := stop_route X user st in
  let st' := deliver r in
  r.2 = Publish (RestreamStop X)
  ∧ status_of st' X = Some stopped
  ∧ tasks st' = tasks st
  ∧ activeProcesses st' = activeProcesses st
  ∧ trace st' = trace st ++ [EvWrite X stopped]
  ∧ step st' (RestreamStop X) = st'.
Proof.
  intros Hreg Hrow Hown r st'. subst st' r. unfold stop_route.
  assert (Hid : id row = X).
  { clear -Hrow. induction (restream_destinations st) as [|x rows IH]; [done|].
    simpl in Hrow. destruct (has_id X x) eqn:Hx; [|by apply IH].
    injection Hrow as <-. by apply has_id_true. }
  destruct (lookup_row_update_hit X
              (λ d, has_id X d && owned_by st user d) (with_status stopped)
              (restream_destinations st) row) as [Hex Hlook]; try done.
  { intros x [Hx _]%andb_true_iff. by apply has_id_true. }
  { apply andb_true_iff. split; [by apply has_id_true|].
    unfold owned_by. by apply bool_decide_eq_true_2. }
  rewrite Hex. simpl. unfold handleRestreamStop, kill_registered. simpl.
  rewrite Hreg. simpl. unfold status_of. simpl. rewrite Hlook, Hreg. done.
Qed.

(** The close of the child registered for X: the entry is removed and
    the row gets the status of the exit code. *)
Lemma close_of_registered st X p code row :
  procs st !! p = Some (X, false) →
  lookup_row X (restream_destinations st) = Some row →
  let closed := match code with Some 0%Z => stopped | _ => failed end in
  let st1 := step st (ProcClose p code) in
  activeProcesses st1 !! X = None
  ∧ tasks st1 = tasks st
  ∧ streams st1 = streams st
  ∧ trace st1 = trace st ++ [EvWrite X closed]
  ∧ lookup_row X (restream_destinations st1) = Some (with_status closed row)
  ∧ step st1 (RestreamStop X) = st1.
Proof.
  intros Hp Hrow closed st1.
  assert (E : st1 = write_status X closed
                      (set_activeProcesses (delete X (activeProcesses st))
                         (set_procs (<[p := (X, true)]> (procs st)) st))).
  { subst st1. simpl. unfold on_close. by rewrite Hp. }
  assert (Hreg1 : activeProcesses st1 !! X = None).
  { rewrite E. simpl. apply lookup_delete_eq. }
  split; [done|]. split; [by rewrite E|]. split; [by rewrite E|].
  split; [by rewrite E|]. split.
  - rewrite E. simpl. rewrite lookup_row_update_eq by done. by rewrite Hrow.
  - simpl. unfold handleRestreamStop, kill_registered. by rewrite Hreg1.
Qed.

(** C8 (as amended).  Destination X is registered with a running child,
    and the child exits on its own.  A [restream:stop] for X delivered
    afterwards raises no error and changes nothing at all: the handler
    finds no child, sends no kill and writes no status, so X keeps the
    status the close handler wrote, stopped for exit code 0 and failed
    otherwise.  X reads stopped after another exit only through the stop
    route, called by the owner of X's stream after the close: the route
    writes stopped before it publishes.  When the child closes between
    the route's write and the delivery of the event, the close handler
    overwrites stopped, and X ends with the status of the exit code
    again. *)
Theorem stop_after_external_exit_keeps_close_status st X p code row :
  activeProcesses st !! X = Some p →
  procs st !! p = Some (X, false) →
  lookup_row X (restream_destinations st) = Some row →
  let closed := match code with Some 0%Z => stopped | _ => failed end in
  let st1 := step st (ProcClose p code) in
  step st1 (RestreamStop X) = st1
  ∧ activeProcesses st1 !! X = None
  ∧ tasks st1 = tasks st
  ∧ trace st1 = trace st ++ [EvWrite X closed]
  ∧ status_of st1 X = Some closed
  ∧ ∀ user, streams st !! stream_id row = Some user →
      (let r := stop_route X user st1 in
       r.2 = Publish (RestreamStop X)
       ∧ status_of (deliver r) X = Some stopped
       ∧ trace (deliver r) = trace st1 ++ [EvWrite X stopped]
       ∧ tasks (deliver r) = tasks st)
      ∧ (let r := stop_route X user st in
         let st2 := step r.1 (ProcClose p code) in
         r.2 = Publish (RestreamStop X)
         ∧ status_of r.1 X = Some stopped
         ∧ step st2 (RestreamStop X) = st2
         ∧ trace st2 = trace st ++ [EvWrite X stopped; EvWrite X closed]
         ∧ status_of st2 X = Some closed).
Proof.
  intros Hreg Hp Hrow closed st1.
  destruct (close_of_registered st X p code row Hp Hrow)
    as (Hreg1 & Htasks & Hstreams & Htrace & Hrow1 & Hstop).
  fold closed in Htrace, Hrow1. fold st1 in Hreg1, Htasks, Hstreams, Htrace, Hrow1, Hstop.
  split; [done|]. split; [done|]. split; [done|]. split; [done|].
  split; [unfold status_of; by rewrite Hrow1|].
  intros user Hown. split.
  - assert (Hown1 : streams st1 !! stream_id (with_status closed row) = Some user)
      by (by rewrite Hstreams).
    destruct (stop_route_unregistered st1 X user _ Hreg1 Hrow1 Hown1)
      as (H1 & H2 & H3 & _ & H5 & _).
    intros r. subst r. by rewrite <- Htasks.
  - assert (Hid : id row = X).
    { clear -Hrow. induction (restream_destinations st) as [|x rows IH]; [done|].
      simpl in Hrow. destruct (has_id X x) eqn:Hx; [|by apply IH].
      injection Hrow as <-. by apply has_id_true. }
    destruct (lookup_row_update_hit X
                (λ d, has_id X d && owned_by st user d) (with_status stopped)
                (restream_destinations st) row) as [Hex Hlook]; try done.
    { intros x [Hx _]%andb_true_iff. by apply has_id_true. }
    { apply andb_true_iff. split; [by apply has_id_true|].
      unfold owned_by. by apply bool_decide_eq_true_2. }
    intros r st2.
    assert (Er : r = (log (EvWrite X stopped)
                        (set_destinations
                           (update_where (λ d, has_id X d && owned_by st user d)
                              (with_status stopped) (restream_destinations st)) st),
                      Publish (RestreamStop X))).
    { subst r. unfold stop_route. by rewrite Hex. }
    subst st2. rewrite Er. cbn [fst snd]. clear Er r.
    set (st0 := log (EvWrite X stopped) _).
    assert (Hp0 : procs st0 !! p = Some (X, false)) by done.
    assert (Hrow0 : lookup_row X (restream_destinations st0)
                    = Some (with_status stopped row)) by exact Hlook.
    destruct (close_of_registered st0 X p code _ Hp0 Hrow0)
      as (_ & _ & _ & Htrace2 & Hrow2 & Hstop2).
    split; [done|]. split; [unfold status_of; by rewrite Hrow0|].
    split; [done|]. split.
    + rewrite Htrace2. subst st0. simpl. by rewrite <- app_assoc.
    + unfold status_of. by rewrite Hrow2.
Qed.

Lemma stop_after_external_exit_keeps_close_status_witness :
  let st1 := step streamX (ProcClose 0 (Some 1%Z)) in
  step st1 (RestreamStop "X") = st1
  ∧ activeProcesses st1 !! "X" = None
  ∧ tasks st1 = tasks streamX
  ∧ trace st1 = trace streamX ++ [EvWrite "X" failed]
  ∧ status_of st1 "X" = Some failed
  ∧ ∀ user, streams streamX !! "S"%string = Some user →
      (let r := stop_route "X" user st1 in
       r.2 = Publish (RestreamStop "X")
       ∧ status_of (deliver r) "X" = Some stopped
       ∧ trace (deliver r) = trace st1 ++ [EvWrite "X" stopped]
       ∧ tasks (deliver r) = tasks streamX)
      ∧ (let r := stop_route "X" user streamX in
         let st2 := step r.1 (ProcClose 0 (Some 1%Z)) in
         r.2 = Publish (RestreamStop "X")
         ∧ status_of r.1 "X" = Some stopped
         ∧ step st2 (RestreamStop "X") = st2
         ∧ trace st2 = trace streamX ++ [EvWrite "X" stopped; EvWrite "X" failed]
         ∧ status_of st2 "X" = Some failed).
Proof.
  exact (stop_after_external_exit_keeps_close_status streamX "X" 0 (Some 1%Z)
           (with_url active (Some "rtmp://live.twitch.tv/app"%string)
                     (destination "X" "sa-X"))
           eq_refl eq_refl eq_refl).
Defined.

(** C8 as stated fails.  The child of X exits on its own with code 1 and
    [restream:stop] is then delivered: nothing is raised, but X ends
    failed, not stopped.  The same holds when the stop comes through the
    route and the child closes after the route's write and before the
    delivery. *)
Lemma stop_after_external_exit_counterexample :
  let st1 := step streamX (ProcClose 0 (Some 1%Z)) in
  let st' := step st1 (RestreamStop "X") in
  let r := stop_route "X" "u1" streamX in
  let st2 := run r.1 [ProcClose 0 (Some 1%Z); RestreamStop "X"] in
  status_of streamX "X" = Some active
  ∧ activeProcesses st1 !! "X" = None
  ∧ st' = st1
  ∧ status_of st' "X" = Some failed
  ∧ r.2 = Publish (RestreamStop "X")
  ∧ status_of st2 "X" = Some failed.
Proof. vm_compute. repeat split. Qed.

End RestreamSpec.

(** * Further properties of the playout service *)

Module PlayoutMore.
Import Playout Scripts PlayoutCases PlayoutSpec.

Lemma step_Stop st ch : hung st = false → step st (Stop ch) = stopPlayout ch st.
Proof. intros H. unfold step. by rewrite H. Qed.

Lemma step_Skip st ch : hung st = false → step st (Skip ch) = skipItem ch st.
Proof. intros H. unfold step. by rewrite H. Qed.

Lemma step_Edit st ch items :
  hung st = false →
  step st (EditPlaylist ch items)
  = set_playlist_items (<[ch := items]> (playlist_items st)) st.
Proof. intros H. unfold step. by rewrite H. Qed.

Lemma kill_current_playing st tid ev l k pid pl :
  playing st tid ev l k pid pl →
  kill_current (channelId ev) st = log (EvKill pid) st.
Proof.
  intros (_ & _ & _ & Hreg & _ & Hproc). unfold kill_current. rewrite Hreg.
  destruct (heap st !! l) as [info|]; [|done]. injection Hproc as Hproc.
  by rewrite Hproc.
Qed.

(** The index write of an iteration completes: the item is playing. *)
Lemma in_loop_playing st tid ev l k item pl :
  in_loop st tid ev l k item pl →
  let st' := step st (DbDone tid true) in
  playing st' tid ev l k (length (procs st)) pl
  ∧ trace st' = trace st ++ [EvWriteIndex (channelId ev) k;
                             EvSpawn (length (procs st)) (channelId ev) item]
  ∧ linear_channels st' = alter (with_index k) (channelId ev) (linear_channels st).
Proof.
  intros (Hh & Ht & Hreg & Hpl & Hk) st'. subst st'.
  rewrite (resume_index_write _ _ _ _ _ _ l Hh Ht Hreg).
  pose proof (lookup_lt_Some _ _ _ Ht) as Hlt.
  destruct (heap st !! l) as [info|] eqn:Hinfo; [|done].
  unfold playing; simpl.
  rewrite list_lookup_insert_eq by done.
  rewrite lookup_app_r by lia. rewrite Nat.sub_diag.
  rewrite list_lookup_alter_eq, Hinfo. simpl.
  repeat split; try done. by rewrite <- app_assoc.
Qed.

(** What the loop does when the playing child's promise resolves. *)
Lemma playing_resolved st tid ev l k pid pl :
  playing st tid ev l k pid pl →
  let st' := on_resolved tid ev l k st in
  trace st' = trace st
  ∧ linear_channels st' = linear_channels st
  ∧ procs st' = procs st
  ∧ playlist_items st' = playlist_items st
  ∧ match pl !! S k with
    | Some item' => in_loop st' tid ev l (S k) item' pl
    | None => if loop ev then refreshing st' tid ev l pl else leaving st' tid ev
    end.
Proof.
  intros (Hh & Ht & Hp & Hreg & Hpl & Hproc) st'. subst st'.
  pose proof (lookup_lt_Some _ _ _ Ht) as Hlt.
  destruct (heap st !! l) as [info|] eqn:Hinfo; [|done].
  pose proof (lookup_lt_Some _ _ _ Hinfo) as Hllt.
  injection Hpl as Hpl. unfold on_resolved. rewrite Hinfo, Hpl.
  destruct (pl !! S k) as [item'|] eqn:Hnext.
  - pose proof (lookup_lt_Some _ _ _ Hnext) as Hlen.
    destruct (Nat.leb_spec (length pl) (S k)) as [?|_]; [lia|].
    unfold loop_head; simpl. rewrite Hreg.
    rewrite list_lookup_insert_eq by done. simpl. rewrite Hpl, Hnext.
    unfold in_loop; simpl.
    rewrite !list_lookup_insert_eq by done. simpl. by rewrite Hpl.
  - pose proof (lookup_ge_None_1 _ _ Hnext) as Hlen.
    destruct (Nat.leb_spec (length pl) (S k)) as [_|?]; [|lia].
    destruct (loop ev) eqn:Hloop.
    + unfold refreshing; simpl.
      rewrite !list_lookup_insert_eq by done. simpl. by rewrite Hpl.
    + unfold loop_head, cleanup, leaving; simpl.
      rewrite list_lookup_insert_eq by done. by rewrite lookup_delete_eq.
Qed.

Lemma playing_log e st tid ev l k pid pl :
  playing st tid ev l k pid pl → playing (log e st) tid ev l k pid pl.
Proof. done. Qed.

Lemma playing_edit ch items st tid ev l k pid pl :
  playing st tid ev l k pid pl →
  playing (set_playlist_items (<[ch := items]> (playlist_items st)) st) tid ev l k pid pl.
Proof. done. Qed.

Lemma playing_close st tid ev l k pid pl code :
  playing st tid ev l k pid pl →
  step st (ProcClose pid code)
  = if on_close code then on_resolved tid ev l k st else on_catch tid ev l k st.
Proof.
  intros (Hh & Ht & Hp & _). rewrite step_ProcClose by done. unfold settle.
  rewrite Hp, Ht. simpl. by rewrite decide_True.
Qed.







(** X1.  Skipping while an item plays sends one kill, to the playing
    child, and changes nothing else; when that child then closes with
    code 255 the loop goes on exactly as after a clean finish: to the next
    item of the snapshot, or at the end of the snapshot to the refresh
    (looping channel) or out of the loop with the channel unregistered. *)
Theorem skip_moves_to_next_item st tid ev l k pid pl :
  playing st tid ev l k pid pl →
  let st1 := step st (Skip (channelId ev)) in
  let st' := step st1 (ProcClose pid (Some 255%Z)) in
  st1 = log (EvKill pid) st
  ∧ trace st' = trace st ++ [EvKill pid]
  ∧ linear_channels st' = linear_channels st
  ∧ match pl !! S k with
    | Some item' => in_loop st' tid ev l (S k) item' pl
    | None => if loop ev then refreshing st' tid ev l pl else leaving st' tid ev
    end.
Proof.
  intros Hplay st1 st'.
  assert (E1 : st1 = log (EvKill pid) st).
  { subst st1. rewrite step_Skip by apply Hplay.
    by eapply kill_current_playing. }
  pose proof (playing_log (EvKill pid) _ _ _ _ _ _ _ Hplay) as Hplay1.
  rewrite <- E1 in Hplay1.
  destruct (playing_resolved st1 tid ev l k pid pl Hplay1) as (Htr & Hch & _ & _ & Hnext).
  assert (E2 : st' = on_resolved tid ev l k st1)
    by (subst st'; by rewrite (playing_close _ _ _ _ _ _ _ _ Hplay1)).
  rewrite E2, Htr, Hch. split; [done|].
  split; [by rewrite E1|]. split; [by rewrite E1|]. exact Hnext.
Qed.

Lemma skip_moves_to_next_item_witness :
  let st1 := step channelC_playing (Skip "C") in
  let st' := step st1 (ProcClose 0 (Some 255%Z)) in
  st1 = log (EvKill 0) channelC_playing
  ∧ trace st' = trace channelC_playing ++ [EvKill 0]
  ∧ linear_channels st' = linear_channels channelC_playing
  ∧ in_loop st' 0 (startC false) 0 1 item2 [item1; item2].
Proof.
  refine (skip_moves_to_next_item channelC_playing 0 (startC false) 0 0 0
            [item1; item2] _).
  repeat split.
Defined.

(** Out of the loop, the final write is all that is left. *)
Lemma leaving_returns st tid ev :
  leaving st tid ev →
  let st' := step st (DbDone tid true) in
  tasks st' !! tid = Some {| event := ev; pc := Returned |}
  ∧ trace st' = trace st ++ [EvWriteStatus (channelId ev) stopped]
  ∧ procs st' = procs st
  ∧ activePlayouts st' = activePlayouts st.
Proof.
  intros (Hh & Ht & Hreg) st'. subst st'.
  rewrite (step_DbDone _ _ _ _ Hh Ht). unfold resume_db; simpl.
  repeat split. apply list_lookup_insert_eq. by eapply lookup_lt_Some.
Qed.

(** X2.  Stopping while an item plays kills the playing child and
    unregisters the channel.  Whatever code the child then closes with,
    the loop spawns nothing more: it leaves the loop at once, or (clean
    close of the last item of a looping channel) still awaits the refresh
    of the snapshot and leaves when that completes or fails. *)
Theorem stop_ends_the_run st tid ev l k pid pl code :
  playing st tid ev l k pid pl →
  let st1 := run st [Stop (channelId ev); ProcClose pid code] in
  trace st1 = trace st ++ [EvKill pid]
  ∧ procs st1 = procs st
  ∧ linear_channels st1 = linear_channels st
  ∧ activePlayouts st1 !! channelId ev = None
  ∧ (leaving st1 tid ev
     ∨ (tasks st1 !! tid = Some {| event := ev; pc := AwaitRefresh l |}
        ∧ ∀ ok, let st2 := step st1 (DbDone tid ok) in
                leaving st2 tid ev ∧ trace st2 = trace st1 ∧ procs st2 = procs st1
                ∧ linear_channels st2 = linear_channels st1)).
Proof.
  intros Hplay st1. pose proof Hplay as (Hh & Ht & Hp & Hreg & Hpl & Hproc).
  pose proof (lookup_lt_Some _ _ _ Ht) as Hlt.
  destruct (heap st !! l) as [info|] eqn:Hinfo; [|done].
  pose proof (lookup_lt_Some _ _ _ Hinfo) as Hllt.
  injection Hpl as Hpl.
  set (st0 := set_activePlayouts (delete (channelId ev) (activePlayouts st))
                                 (log (EvKill pid) st)).
  assert (E0 : step st (Stop (channelId ev)) = st0).
  { rewrite step_Stop by done. unfold stopPlayout.
    by rewrite (kill_current_playing _ _ _ _ _ _ _ Hplay). }
  assert (E1 : st1 = if on_close code then on_resolved tid ev l k st0
                     else on_catch tid ev l k st0).
  { subst st1. rewrite run_cons, E0, run_cons, run_nil.
    rewrite step_ProcClose by done. unfold settle. subst st0. simpl.
    rewrite Hp, Ht. simpl. by rewrite decide_True. }
  assert (Hreg0 : activePlayouts st0 !! channelId ev = None)
    by apply lookup_delete_eq.
  rewrite E1. clear E1 st1.
  destruct (on_close code).
  - unfold on_resolved. change (heap st0) with (heap st). rewrite Hinfo, Hpl.
    destruct (length pl <=? S k) eqn:Hlen; [destruct (loop ev) eqn:Hloop|].
    + simpl. do 4 (split; [done || apply lookup_delete_eq|]). right.
      split; [by apply list_lookup_insert_eq|].
      intros ok.
      erewrite step_DbDone; [|done|simpl; by apply list_lookup_insert_eq].
      unfold resume_db; simpl. destruct ok.
      * unfold loop_head, cleanup, leaving; simpl.
        rewrite !lookup_delete_eq; simpl.
        rewrite lookup_delete_eq, list_lookup_insert_eq; [done|].
        by rewrite length_insert.
      * unfold on_catch; simpl. rewrite list_lookup_insert_eq by done.
        simpl. rewrite Hloop.
        destruct (length (playlist info) <=? 1);
          unfold loop_head, cleanup, leaving; simpl;
          rewrite !lookup_delete_eq; simpl;
          rewrite lookup_delete_eq, list_lookup_insert_eq; try done;
          by rewrite length_insert.
    + unfold loop_head, cleanup, leaving; simpl.
      rewrite !lookup_delete_eq, list_lookup_insert_eq by done.
      repeat split; try done. by left.
    + unfold loop_head, cleanup, leaving; simpl.
      rewrite !lookup_delete_eq; simpl.
      rewrite !lookup_delete_eq, list_lookup_insert_eq by done.
      repeat split; try done. by left.
  - unfold on_catch. change (heap st0) with (heap st). rewrite Hinfo, Hpl.
    destruct (length pl <=? S k); [destruct (loop ev)|];
      unfold loop_head, cleanup, leaving; simpl;
      rewrite ?lookup_delete_eq; simpl;
      rewrite ?lookup_delete_eq, ?list_lookup_insert_eq by done;
      repeat split; try done; by left.
Qed.

Lemma stop_ends_the_run_witness :
  let st1 := run channelC_playing [Stop "C"; ProcClose 0 (Some 255%Z)] in
  trace st1 = trace channelC_playing ++ [EvKill 0]
  ∧ procs st1 = procs channelC_playing
  ∧ linear_channels st1 = linear_channels channelC_playing
  ∧ activePlayouts st1 !! "C" = None
  ∧ (leaving st1 0 (startC false)
     ∨ (tasks st1 !! 0 = Some {| event := startC false; pc := AwaitRefresh 0 |}
        ∧ ∀ ok, let st2 := step st1 (DbDone 0 ok) in
                leaving st2 0 (startC false) ∧ trace st2 = trace st1
                ∧ procs st2 = procs st1
                ∧ linear_channels st2 = linear_channels st1)).
Proof.
  refine (stop_ends_the_run channelC_playing 0 (startC false) 0 0 0
            [item1; item2] (Some 255%Z) _).
  repeat split.
Defined.

(** X3.  A stop delivered twice does what one stop does. *)
Theorem stop_is_idempotent st ch :
  step (step st (Stop ch)) (Stop ch) = step st (Stop ch).
Proof.
  destruct (hung st) eqn:Hh.
  - unfold step. by rewrite Hh, Hh.
  - apply stop_unregistered_noop. rewrite step_Stop by done.
    unfold stopPlayout. simpl. apply lookup_delete_eq.
Qed.

(** X4.  At the end of the snapshot of a looping channel, a clean close
    makes the loop reload the playlist: what the database holds when the
    refresh completes becomes the snapshot, and the loop goes on with its
    first item at index 0.  Nothing is written or spawned in between. *)
Theorem loop_wraps_with_refreshed_playlist st tid ev l k pid pl item' pl' :
  playing st tid ev l k pid pl →
  loop ev = true →
  pl !! S k = None →
  let st' := run st [EditPlaylist (channelId ev) (item' :: pl');
                     ProcClose pid (Some 0%Z); DbDone tid true] in
  in_loop st' tid ev l 0 item' (item' :: pl')
  ∧ trace st' = trace st
  ∧ procs st' = procs st
  ∧ linear_channels st' = linear_channels st.
Proof.
  intros Hplay Hloop Hlast st'.
  pose proof Hplay as (Hh & _).
  set (st1 := set_playlist_items
                (<[channelId ev := item' :: pl']> (playlist_items st)) st).
  pose proof (playing_edit (channelId ev) (item' :: pl') _ _ _ _ _ _ _ Hplay) as Hplay1.
  fold st1 in Hplay1.
  destruct (playing_resolved st1 tid ev l k pid pl Hplay1)
    as (Htr & Hch & Hpr & Hitems & Hnext).
  rewrite Hlast, Hloop in Hnext.
  set (st2 := on_resolved tid ev l k st1) in *.
  assert (E : st' = step st2 (DbDone tid true)).
  { subst st'. rewrite run_cons, step_Edit by done. fold st1.
    rewrite run_cons, (playing_close _ _ _ _ _ _ _ _ Hplay1). done. }
  destruct Hnext as (Hh2 & _ & Ht2 & Hreg2 & Hpl2).
  destruct (heap st2 !! l) as [info|] eqn:Hinfo; [|done].
  pose proof (lookup_lt_Some _ _ _ Ht2) as Hlt.
  rewrite E, (step_DbDone _ _ _ _ Hh2 Ht2). unfold resume_db; simpl.
  assert (Hget : getPlaylist st2 (channelId ev) = item' :: pl').
  { unfold getPlaylist. rewrite Hitems. subst st1. simpl.
    by rewrite lookup_insert_eq. }
  rewrite Hget. unfold loop_head; simpl. rewrite Hreg2.
  rewrite list_lookup_alter_eq, Hinfo. simpl.
  unfold in_loop; simpl. rewrite Hreg2, list_lookup_alter_eq, Hinfo. simpl.
  rewrite list_lookup_insert_eq by done.
  repeat split; try done.
Qed.

Lemma loop_wraps_with_refreshed_playlist_witness :
  let st' := run channelC_last [EditPlaylist "C" [item3; item1];
                                ProcClose 1 (Some 0%Z); DbDone 0 true] in
  in_loop st' 0 (startC true) 0 0 item3 [item3; item1]
  ∧ trace st' = trace channelC_last
  ∧ procs st' = procs channelC_last
  ∧ linear_channels st' = linear_channels channelC_last.
Proof.
  refine (loop_wraps_with_refreshed_playlist channelC_last 0 (startC true) 0 1 1
            [item1; item2] item3 [item1] _ eq_refl eq_refl).
  repeat split.
Defined.

(** X5.  An edit of the playlist made while an item plays is not seen
    before the end of the snapshot: after a clean close the loop goes on
    with the next item of the snapshot it holds, whatever the database
    now says. *)
Theorem edit_is_not_applied_mid_snapshot st tid ev l k pid pl item' ch items :
  playing st tid ev l k pid pl →
  pl !! S k = Some item' →
  let st' := run st [EditPlaylist ch items; ProcClose pid (Some 0%Z)] in
  in_loop st' tid ev l (S k) item' pl
  ∧ trace st' = trace st.
Proof.
  intros Hplay Hnext st'. pose proof Hplay as (Hh & _).
  pose proof (playing_edit ch items _ _ _ _ _ _ _ Hplay) as Hplay1.
  destruct (playing_resolved _ tid ev l k pid pl Hplay1) as (Htr & _ & _ & _ & Hn).
  rewrite Hnext in Hn.
  assert (E : st' = on_resolved tid ev l k
                      (set_playlist_items (<[ch := items]> (playlist_items st)) st)).
  { subst st'. rewrite run_cons, step_Edit by done.
    by rewrite run_cons, (playing_close _ _ _ _ _ _ _ _ Hplay1). }
  rewrite E. by split.
Qed.

Lemma edit_is_not_applied_mid_snapshot_witness :
  let st' := run channelC_playing [EditPlaylist "C" [item3]; ProcClose 0 (Some 0%Z)] in
  in_loop st' 0 (startC false) 0 1 item2 [item1; item2]
  ∧ trace st' = trace channelC_playing.
Proof.
  refine (edit_is_not_applied_mid_snapshot channelC_playing 0 (startC false) 0 0 0
            [item1; item2] item2 "C" [item3] _ eq_refl).
  repeat split.
Defined.

Lemma hung_absorbs ins : ∀ st, hung st = true → run st ins = st.
Proof.
  induction ins as [|i ins IH]; intros st Hh; [done|].
  rewrite run_cons. unfold step at 1. rewrite Hh. by apply IH.
Qed.

(** X6.  When the refresh of a looping channel finds the playlist empty,
    the loop spins without ever awaiting: the service handles no input
    from then on (no start, stop or skip for any channel, no completion),
    and the channel stays registered with nothing playing. *)
Theorem empty_refresh_hangs_the_service st tid ev l pl :
  refreshing st tid ev l pl →
  getPlaylist st (channelId ev) = [] →
  let st' := step st (DbDone tid true) in
  hung st' = true
  ∧ (∀ ins, run st' ins = st')
  ∧ activePlayouts st' !! channelId ev = Some l
  ∧ trace st' = trace st
  ∧ linear_channels st' = linear_channels st.
Proof.
  intros (Hh & Hloop & Ht & Hreg & Hpl) Hempty st'.
  destruct (heap st !! l) as [info|] eqn:Hinfo; [|done].
  assert (E : st' = set_hung (set_heap (alter (with_playlist []) l (heap st)) st)).
  { subst st'. rewrite (step_DbDone _ _ _ _ Hh Ht). unfold resume_db; simpl.
    rewrite Hempty. unfold loop_head; simpl.
    by rewrite Hreg, list_lookup_alter_eq, Hinfo, Hloop. }
  rewrite E. repeat split; try done. intros ins. by apply hung_absorbs.
Qed.

Lemma empty_refresh_hangs_the_service_witness :
  let st := step channelC_refreshing (EditPlaylist "C" []) in
  let st' := step st (DbDone 0 true) in
  hung st' = true
  ∧ (∀ ins, run st' ins = st')
  ∧ activePlayouts st' !! "C" = Some 0
  ∧ trace st' = trace st
  ∧ linear_channels st' = linear_channels st.
Proof.
  refine (empty_refresh_hangs_the_service
            (step channelC_refreshing (EditPlaylist "C" [])) 0 (startC true) 0
            [item1; item2] _ eq_refl).
  repeat split.
Defined.

(** X7.  When the refresh query of a looping channel fails, the loop is
    not aborted, but the failure is counted as a failed item: the loop
    keeps the old snapshot and goes on with its second item (index 1), or
    with the first one again when the snapshot has a single item. *)
Theorem failed_refresh_skips_first_item st tid ev l pl item0 :
  refreshing st tid ev l pl →
  pl !! 0 = Some item0 →
  let st' := step st (DbDone tid false) in
  trace st' = trace st
  ∧ match pl !! 1 with
    | Some item1 => in_loop st' tid ev l 1 item1 pl
    | None => in_loop st' tid ev l 0 item0 pl
    end.
Proof.
  intros (Hh & Hloop & Ht & Hreg & Hpl) H0 st'.
  destruct (heap st !! l) as [info|] eqn:Hinfo; [|done].
  injection Hpl as Hpl.
  pose proof (lookup_lt_Some _ _ _ Ht) as Hlt.
  subst st'. rewrite (step_DbDone _ _ _ _ Hh Ht). unfold resume_db; simpl.
  unfold on_catch. rewrite Hinfo, Hpl, Hloop.
  destruct (pl !! 1) as [item1|] eqn:H1.
  - pose proof (lookup_lt_Some _ _ _ H1) as Hlen.
    destruct (Nat.leb_spec (length pl) 1) as [?|_]; [lia|].
    unfold loop_head. rewrite Hreg, Hinfo, Hpl, H1.
    unfold in_loop; simpl.
    rewrite list_lookup_insert_eq by done. rewrite Hinfo. simpl. by rewrite Hpl.
  - pose proof (lookup_ge_None_1 _ _ H1) as Hlen.
    destruct (Nat.leb_spec (length pl) 1) as [_|?]; [|lia].
    unfold loop_head. rewrite Hreg, Hinfo, Hpl, H0.
    unfold in_loop; simpl.
    rewrite list_lookup_insert_eq by done. rewrite Hinfo. simpl. by rewrite Hpl.
Qed.

Lemma failed_refresh_skips_first_item_witness :
  let st' := step channelC_refreshing (DbDone 0 false) in
  trace st' = trace channelC_refreshing
  ∧ in_loop st' 0 (startC true) 0 1 item2 [item1; item2].
Proof.
  refine (failed_refresh_skips_first_item channelC_refreshing 0 (startC true) 0
            [item1; item2] item1 _ eq_refl).
  repeat split.
Defined.

Lemma resume_index_write_unregistered st tid ev l item k :
  hung st = false →
  tasks st !! tid = Some {| event := ev; pc := AwaitIndexWrite l item k |} →
  activePlayouts st !! channelId ev = None →
  step st (DbDone tid true)
  = set_pc tid ev (AwaitPlay l k (length (procs st)))
      (log (EvSpawn (length (procs st)) (channelId ev) item)
         (set_procs (procs st ++ [tid]) (write_index (channelId ev) k st))).
Proof.
  intros Hh Ht Hreg. rewrite (step_DbDone _ _ _ _ Hh Ht).
  unfold resume_db, playItem; simpl. by rewrite Hreg.
Qed.

(** X8.  A stop that arrives while the index write of an item is awaited
    does not keep the item from starting: the channel is unregistered,
    yet when the write completes the child is spawned all the same.  The
    child is stored nowhere, so a further stop or skip for the channel
    changes nothing and reaches no child. *)
Theorem stop_during_index_write_leaks_child st tid ev l k item pl :
  in_loop st tid ev l k item pl →
  let st' := run st [Stop (channelId ev); DbDone tid true] in
  procs st' = procs st ++ [tid]
  ∧ spawn_count (trace st') = S (spawn_count (trace st))
  ∧ heap st' = heap st
  ∧ activePlayouts st' !! channelId ev = None
  ∧ tasks st' !! tid
    = Some {| event := ev; pc := AwaitPlay l k (length (procs st)) |}
  ∧ step st' (Stop (channelId ev)) = st'
  ∧ step st' (Skip (channelId ev)) = st'.
Proof.
  intros (Hh & Ht & Hreg & Hpl & Hk) st'.
  pose proof (lookup_lt_Some _ _ _ Ht) as Hlt.
  set (st0 := stopPlayout (channelId ev) st).
  assert (Hreg0 : activePlayouts st0 !! channelId ev = None)
    by apply lookup_delete_eq.
  assert (Hh0 : hung st0 = false).
  { subst st0. unfold stopPlayout, kill_current. by repeat case_match. }
  assert (Ht0 : tasks st0 = tasks st).
  { subst st0. unfold stopPlayout, kill_current. by repeat case_match. }
  assert (Hp0 : procs st0 = procs st).
  { subst st0. unfold stopPlayout, kill_current. by repeat case_match. }
  assert (Hheap0 : heap st0 = heap st).
  { subst st0. unfold stopPlayout, kill_current. by repeat case_match. }
  assert (Hsp0 : spawn_count (trace st0) = spawn_count (trace st)).
  { subst st0. unfold stopPlayout, kill_current.
    repeat case_match; simpl; try done.
    rewrite spawn_count_app. unfold spawn_count at 2. simpl. lia. }
  assert (E : st' = set_pc tid ev (AwaitPlay l k (length (procs st0)))
                      (log (EvSpawn (length (procs st0)) (channelId ev) item)
                         (set_procs (procs st0 ++ [tid])
                            (write_index (channelId ev) k st0)))).
  { subst st'. rewrite run_cons, step_Stop by done. fold st0.
    rewrite run_cons, run_nil.
    apply resume_index_write_unregistered; [done | by rewrite Ht0 | done]. }
  clearbody st0.
  assert (Hreg' : activePlayouts st' !! channelId ev = None) by (by rewrite E).
  assert (Hh' : hung st' = false) by (by rewrite E).
  split; [by rewrite E; simpl; rewrite Hp0|].
  split.
  { rewrite E. simpl. rewrite !spawn_count_app, Hsp0.
    unfold spawn_count at 2 3. simpl. lia. }
  split; [by rewrite E|]. split; [done|]. split.
  { rewrite E. simpl. rewrite Ht0, Hp0. by apply list_lookup_insert_eq. }
  split.
  - by apply stop_unregistered_noop.
  - rewrite step_Skip by done. unfold skipItem, kill_current. by rewrite Hreg'.
Qed.

Lemma stop_during_index_write_leaks_child_witness :
  let st := run channelC [Start (startC false); DbDone 0 true] in
  let st' := run st [Stop "C"; DbDone 0 true] in
  procs st' = procs st ++ [0]
  ∧ spawn_count (trace st') = S (spawn_count (trace st))
  ∧ heap st' = heap st
  ∧ activePlayouts st' !! "C" = None
  ∧ tasks st' !! 0 = Some {| event := startC false; pc := AwaitPlay 0 0 0 |}
  ∧ step st' (Stop "C") = st'
  ∧ step st' (Skip "C") = st'.
Proof.
  refine (stop_during_index_write_leaks_child
            (run channelC [Start (startC false); DbDone 0 true]) 0 (startC false)
            0 0 item1 [item1; item2] _).
  repeat split.
Defined.

End PlayoutMore.

(** * Further properties of the restream service *)

Module RestreamMore.
Import Restream Fanout Api RestreamCases RestreamSpec.

#[local] Set Warnings "-clear-no-such-hyp,-unused-intro-pattern".

Lemma lookup_row_update_where c f rows i :
  (∀ d, id (f d) = id d) →
  lookup_row i (update_where c f rows)
  = (λ d, if c d then f d else d) <$> lookup_row i rows.
Proof.
  intros Hid. unfold update_where. induction rows as [|d rows IH]; csimpl; [done|].
  rewrite IH. unfold has_id.
  assert (id (if c d then f d else d) = id d) as -> by (destruct (c d); by rewrite ?Hid).
  by case_bool_decide.
Qed.

Lemma lookup_row_id i rows d : lookup_row i rows = Some d → id d = i.
Proof.
  induction rows as [|x rows IH]; [done|]. simpl.
  destruct (has_id i x) eqn:Hx; [|done]. intros [= <-]. by apply has_id_true.
Qed.

Lemma NoDup_id_inj (rows : list Destination) d1 d2 :
  NoDup (id <$> rows) → d1 ∈ rows → d2 ∈ rows → id d1 = id d2 → d1 = d2.
Proof.
  induction rows as [|x rows IH]; intros Hnd H1 H2 Heq; [by apply elem_of_nil in H1|].
  rewrite fmap_cons in Hnd. apply NoDup_cons in Hnd as [Hx Hnd].
  apply elem_of_cons in H1 as [->|H1]; apply elem_of_cons in H2 as [->|H2]; try done.
  - exfalso. apply Hx. rewrite Heq. by apply list_elem_of_fmap_2.
  - exfalso. apply Hx. rewrite <- Heq. by apply list_elem_of_fmap_2.
  - by apply IH.
Qed.

(** A row that the enumeration does not select is not among its results. *)
Lemma not_selected_not_enumerated st sid d :
  NoDup (id <$> restream_destinations st) →
  d ∈ restream_destinations st →
  ¬ selected st sid d →
  id d ∉ dest_id <$> enumerate st sid.
Proof.
  intros Hnd Hd Hns (x & Hx & Hin)%list_elem_of_fmap.
  unfold enumerate in Hin. apply list_elem_of_omap in Hin as (d' & Hd' & Hf).
  case_bool_decide as Hs; [|done].
  destruct (social_accounts st !! social_account_id d') as [sa|] eqn:Hsa; [|done].
  destruct (is_active sa) eqn:Hact; [|done]. injection Hf as <-. simpl in Hx.
  assert (d = d') as -> by (by eapply NoDup_id_inj).
  apply Hns. split; [done|]. by exists sa.
Qed.

Lemma lookup_row_unique (rows : list Destination) d :
  NoDup (id <$> rows) → d ∈ rows → lookup_row (id d) rows = Some d.
Proof.
  intros Hnd Hd. destruct (lookup_row_elem d rows Hd) as [x Hx].
  rewrite Hx. f_equal. eapply NoDup_id_inj; eauto.
  - clear -Hx. induction rows as [|y rows IH]; [done|]. simpl in Hx.
    destruct (has_id (id d) y); [injection Hx as ->; by left|right; by apply IH].
  - by eapply lookup_row_id.
Qed.

Lemma fanout_start st ev replies :
  let tid := length (tasks st) in
  let src := ("rtmp://srs:1935/live/" ++ streamKey ev)%string in
  run st (StreamStart ev :: DbDone tid None :: fanout_script tid replies)
  = run (set_pc tid (at_head src (enumerate st (streamId ev)))
                (spawn_task (StartAwaitEnumerate ev) st))
        (fanout_script tid replies).
Proof.
  intros tid src. rewrite rs_run_cons. unfold step at 1, handleStreamStart.
  rewrite rs_run_cons, (rs_step_DbDone _ tid (StartAwaitEnumerate ev));
    [|simpl; rewrite lookup_app_r by lia; by rewrite Nat.sub_diag].
  unfold resume_db. by rewrite next_dest_head.
Qed.

Lemma fanout_start_head st ev :
  let tid := length (tasks st) in
  let src := ("rtmp://srs:1935/live/" ++ streamKey ev)%string in
  tasks (set_pc tid (at_head src (enumerate st (streamId ev)))
                (spawn_task (StartAwaitEnumerate ev) st)) !! tid
  = Some (at_head src (enumerate st (streamId ev))).
Proof.
  intros tid src. simpl. rewrite list_lookup_insert_eq; [done|].
  rewrite length_app. simpl. lia.
Qed.

(** X9.  In a fan-out whose status writes all succeed, every enumerated
    destination ends as its own resolution decides, whatever happens to
    the others and however many of them fail: active with the resolved
    url and a registered child when the resolver delivered, failed with
    the error text and no new registration when it returned null or
    threw.  The handler returns. *)
Theorem fanout_each_by_own_outcome st ev replies :
  NoDup (id <$> restream_destinations st) →
  length (enumerate st (streamId ev)) = length replies →
  let tid := length (tasks st) in
  let st' := run st (StreamStart ev :: DbDone tid None :: fanout_script tid replies) in
  tasks st' !! tid = Some Returned
  ∧ ∀ k d r, enumerate st (streamId ev) !! k = Some d → replies !! k = Some r →
      ∃ row, lookup_row (dest_id d) (restream_destinations st) = Some row
        ∧ lookup_row (dest_id d) (restream_destinations st')
          = Some (dest_effect (outcome st d r) row)
        ∧ (resolves st d r → is_Some (activeProcesses st' !! dest_id d))
        ∧ (fails st d r →
           activeProcesses st' !! dest_id d = activeProcesses st !! dest_id d).
Proof.
  intros Hkey Hlen tid st'. subst st'. rewrite fanout_start.
  set (src := ("rtmp://srs:1935/live/" ++ streamKey ev)%string).
  set (st1 := set_pc tid (at_head src (enumerate st (streamId ev)))
                     (spawn_task (StartAwaitEnumerate ev) st)).
  destruct (fanout_run tid src (enumerate st (streamId ev)) replies st1 Hlen
              (fanout_start_head st ev) (enumerate_NoDup st _ Hkey))
    as (Hret & _ & _ & _ & Hin).
  split; [done|]. intros k d r Hk Hr.
  destruct (Hin k d r Hk Hr) as (Hrow & Hres & Hfail).
  destruct (enumerate_row st (streamId ev) d) as [row Hrow0];
    [by eapply list_elem_of_lookup_2|].
  exists row. split; [done|].
  change (restream_destinations st1) with (restream_destinations st) in Hrow.
  rewrite Hrow0 in Hrow. unfold resolves, fails in *.
  rewrite (outcome_accounts st1 st) in Hrow, Hres, Hfail by done.
  done.
Qed.

Lemma fanout_each_by_own_outcome_witness :
  let st' := run streamS (StreamStart startS :: DbDone 0 None
                            :: fanout_script 0 [ApiError; QueryError "down"; good]) in
  tasks st' !! 0 = Some Returned
  ∧ ∀ k d r, enumerate streamS "S" !! k = Some d →
      [ApiError; QueryError "down"; good] !! k = Some r →
      ∃ row, lookup_row (dest_id d) (restream_destinations streamS) = Some row
        ∧ lookup_row (dest_id d) (restream_destinations st')
          = Some (dest_effect (outcome streamS d r) row)
        ∧ (resolves streamS d r → is_Some (activeProcesses st' !! dest_id d))
        ∧ (fails streamS d r →
           activeProcesses st' !! dest_id d = activeProcesses streamS !! dest_id d).
Proof.
  refine (fanout_each_by_own_outcome streamS startS
            [ApiError; QueryError "down"; good] _ eq_refl).
  apply (bool_decide_unpack _). vm_compute. exact I.
Defined.

(** X10.  A fan-out touches only what it enumerates: a destination of
    another stream, or one whose social account is missing or not active,
    keeps its row and its registry entry, whatever the resolver answers
    for the others. *)
Theorem fanout_leaves_unselected_untouched st ev replies d :
  NoDup (id <$> restream_destinations st) →
  length (enumerate st (streamId ev)) = length replies →
  d ∈ restream_destinations st →
  ¬ selected st (streamId ev) d →
  let tid := length (tasks st) in
  let st' := run st (StreamStart ev :: DbDone tid None :: fanout_script tid replies) in
  lookup_row (id d) (restream_destinations st') = Some d
  ∧ activeProcesses st' !! id d = activeProcesses st !! id d.
Proof.
  intros Hkey Hlen Hd Hns tid st'. subst st'. rewrite fanout_start.
  set (src := ("rtmp://srs:1935/live/" ++ streamKey ev)%string).
  set (st1 := set_pc tid (at_head src (enumerate st (streamId ev)))
                     (spawn_task (StartAwaitEnumerate ev) st)).
  destruct (fanout_run tid src (enumerate st (streamId ev)) replies st1 Hlen
              (fanout_start_head st ev) (enumerate_NoDup st _ Hkey))
    as (_ & _ & _ & Hout & _).
  destruct (Hout (id d) (not_selected_not_enumerated st _ d Hkey Hd Hns)) as [Hrow Hreg].
  split; [|exact Hreg]. etransitivity; [exact Hrow|]. by apply lookup_row_unique.
Qed.

Lemma fanout_leaves_unselected_untouched_witness :
  let st' := run streamS_more (StreamStart startS :: DbDone 0 None
                                 :: fanout_script 0 [good; ApiError; good]) in
  lookup_row "E" (restream_destinations st') = Some destE
  ∧ activeProcesses st' !! "E" = None.
Proof.
  refine (fanout_leaves_unselected_untouched streamS_more startS
            [good; ApiError; good] destE _ eq_refl _ _).
  - apply (bool_decide_unpack _). vm_compute. exact I.
  - unfold streamS_more, streamS. simpl. repeat constructor.
  - intros (_ & sa & Hsa & Hact). vm_compute in Hsa. by injection Hsa as <-.
Defined.

(** *** Stopping a stream *)

Lemma kill_registered_frame st i :
  restream_destinations (kill_registered st i) = restream_destinations st
  ∧ tasks (kill_registered st i) = tasks st
  ∧ procs (kill_registered st i) = procs st
  ∧ social_accounts (kill_registered st i) = social_accounts st.
Proof. unfold kill_registered. by case_match. Qed.

Lemma kill_fold ids : ∀ st,
  let st' := foldl kill_registered st ids in
  restream_destinations st' = restream_destinations st
  ∧ tasks st' = tasks st
  ∧ procs st' = procs st
  ∧ (∀ i, activeProcesses st' !! i
          = if bool_decide (i ∈ ids) then None else activeProcesses st !! i)
  ∧ ∃ ks, trace st' = trace st ++ (EvKill <$> ks)
          ∧ ∀ pid, pid ∈ ks ↔ ∃ i, i ∈ ids ∧ activeProcesses st !! i = Some pid.
Proof.
  induction ids as [|j ids IH]; intros st st'; subst st'.
  { simpl. repeat split; try done. exists []. split; [by rewrite app_nil_r|].
    intros pid. split; [by intros ?%elem_of_nil|].
    by intros (i & ?%elem_of_nil & _). }
  simpl. destruct (IH (kill_registered st j)) as (Hd & Ht & Hp & Hreg & ks & Htr & Hks).
  destruct (kill_registered_frame st j) as (Hd1 & Ht1 & Hp1 & _).
  split; [congruence|]. split; [congruence|]. split; [congruence|].
  assert (Hreg1 : ∀ i, activeProcesses (kill_registered st j) !! i
                       = if bool_decide (i = j) then None else activeProcesses st !! i).
  { intros i. unfold kill_registered.
    destruct (activeProcesses st !! j) as [pid|] eqn:Hj; simpl.
    - rewrite lookup_delete. case_decide; case_bool_decide; congruence.
    - case_bool_decide; congruence. }
  split.
  - intros i. rewrite Hreg, Hreg1. destruct (decide (i = j)) as [->|Hne].
    + rewrite (bool_decide_eq_true_2 (j ∈ j :: ids)) by (by left).
      rewrite (bool_decide_eq_true_2 (j = j)) by done. by case_bool_decide.
    + rewrite (bool_decide_eq_false_2 (i = j)) by done.
      apply (f_equal (λ b : bool, if b then None else activeProcesses st !! i)).
      apply bool_decide_ext. rewrite elem_of_cons. tauto.
  - destruct (activeProcesses st !! j) as [pid|] eqn:Hj.
    + exists (pid :: ks). split.
      * rewrite Htr. unfold kill_registered. rewrite Hj. simpl.
        by rewrite <- app_assoc.
      * intros q. rewrite elem_of_cons, Hks. split.
        -- intros [->|(i & Hi & Hq)]; [exists j; split; [by left|done]|].
           rewrite Hreg1 in Hq. case_bool_decide; [done|].
           exists i. split; [by right|done].
        -- intros (i & [->|Hi]%elem_of_cons & Hq); [left; congruence|].
           destruct (decide (i = j)) as [->|Hne]; [left; congruence|].
           right. exists i. split; [done|]. rewrite Hreg1.
           by rewrite bool_decide_eq_false_2.
    + exists ks. split.
      * rewrite Htr. unfold kill_registered. by rewrite Hj.
      * intros q. rewrite Hks. split.
        -- intros (i & Hi & Hq). rewrite Hreg1 in Hq. case_bool_decide; [done|].
           exists i. split; [by right|done].
        -- intros (i & [->|Hi]%elem_of_cons & Hq); [congruence|].
           exists i. split; [done|]. rewrite Hreg1.
           case_bool_decide; [congruence|done].
Qed.

Lemma log_fold (ids : list string) : ∀ s,
  let s' := foldl (λ s i, log (EvWrite i stopped) s) s ids in
  tasks s' = tasks s
  ∧ activeProcesses s' = activeProcesses s
  ∧ restream_destinations s' = restream_destinations s
  ∧ trace s' = trace s ++ ((λ i, EvWrite i stopped) <$> ids).
Proof.
  induction ids as [|x ids IH]; intros s s'; subst s'; simpl.
  - by rewrite app_nil_r.
  - destruct (IH (log (EvWrite x stopped) s)) as (-> & -> & -> & ->).
    simpl. by rewrite <- app_assoc.
Qed.

Lemma write_stopped_active_spec sid s :
  let s' := write_stopped_active sid s in
  tasks s' = tasks s
  ∧ activeProcesses s' = activeProcesses s
  ∧ restream_destinations s'
    = update_where (active_in sid) (with_status stopped) (restream_destinations s)
  ∧ trace s' = trace s ++ ((λ i, EvWrite i stopped) <$> select_active s sid).
Proof.
  unfold write_stopped_active. simpl.
  by destruct (log_fold (select_active s sid) s) as (-> & -> & _ & ->).
Qed.

Lemma stream_stop_effect st sid :
  let tid := length (tasks st) in
  let st' := run st [StreamStop sid; DbDone tid None; DbDone tid None] in
  tasks st' !! tid = Some Returned
  ∧ (∀ i, lookup_row i (restream_destinations st')
          = (λ d, if active_in sid d then with_status stopped d else d)
              <$> lookup_row i (restream_destinations st))
  ∧ (∀ i, activeProcesses st' !! i
          = if bool_decide (i ∈ select_active st sid) then None
            else activeProcesses st !! i)
  ∧ (∀ pid, EvKill pid ∈ trace st'
            ↔ EvKill pid ∈ trace st
              ∨ ∃ i, i ∈ select_active st sid ∧ activeProcesses st !! i = Some pid).
Proof.
  intros tid st'.
  set (st0 := spawn_task (StopAwaitSelect sid) st).
  set (st1 := foldl kill_registered st0 (select_active st0 sid)).
  assert (E : st' = set_pc tid Returned
                      (write_stopped_active sid (set_pc tid (StopAwaitUpdate sid) st1))).
  { subst st'. rewrite rs_run_cons. unfold step at 1, handleStreamStop. fold st0.
    rewrite rs_run_cons, (rs_step_DbDone _ tid (StopAwaitSelect sid));
      [|subst st0 tid; simpl; rewrite lookup_app_r by lia; by rewrite Nat.sub_diag].
    unfold resume_db, stop_selected. fold st1.
    rewrite rs_run_cons, (rs_step_DbDone _ tid (StopAwaitUpdate sid)); [done|].
    simpl. apply list_lookup_insert_eq.
    subst st1. destruct (kill_fold (select_active st0 sid) st0) as (_ & -> & _).
    subst st0 tid. simpl. rewrite length_app. simpl. lia. }
  destruct (kill_fold (select_active st0 sid) st0) as (Hd & Ht & Hp & Hreg & ks & Htr & Hks).
  fold st1 in Hd, Ht, Hp, Hreg, Htr.
  change (select_active st0 sid) with (select_active st sid) in *.
  change (activeProcesses st0) with (activeProcesses st) in *.
  change (trace st0) with (trace st) in *.
  change (restream_destinations st0) with (restream_destinations st) in *.
  destruct (write_stopped_active_spec sid (set_pc tid (StopAwaitUpdate sid) st1))
    as (Hwt & Hwr & Hwd & Hwtr).
  rewrite E. clear E.
  change (tasks (set_pc tid Returned ?s)) with (<[tid := Returned]> (tasks s)).
  change (restream_destinations (set_pc tid Returned ?s)) with (restream_destinations s).
  change (activeProcesses (set_pc tid Returned ?s)) with (activeProcesses s).
  change (trace (set_pc tid Returned ?s)) with (trace s).
  rewrite Hwt, Hwr, Hwd, Hwtr. simpl.
  split; [|split; [|split]].
  - apply list_lookup_insert_eq. rewrite length_insert, Ht.
    subst st0 tid. simpl. rewrite length_app. simpl. lia.
  - intros i. rewrite Hd. by apply lookup_row_update_where.
  - intros i. apply Hreg.
  - intros pid. rewrite Htr, !elem_of_app, !list_elem_of_fmap.
    split.
    + intros [[?|(q & [= ->] & Hq)]|(i & ? & _)]; [by left| |done].
      right. by apply Hks.
    + intros [?|Hq]; [by left; left|]. left. right. apply Hks in Hq. by exists pid.
Qed.

(** X11.  A stream stop, once its two queries have completed: every row
    of the stream that was active reads stopped, every other row is as it
    was; every selected destination is out of the registry, the others
    keep their entry; the children that were registered for selected
    destinations, and no others, have been sent a kill; the handler has
    returned. *)
Theorem stream_stop_stops_every_active st sid :
  let tid := length (tasks st) in
  let st' := run st [StreamStop sid; DbDone tid None; DbDone tid None] in
  tasks st' !! tid = Some Returned
  ∧ (∀ i, lookup_row i (restream_destinations st')
          = (λ d, if active_in sid d then with_status stopped d else d)
              <$> lookup_row i (restream_destinations st))
  ∧ (∀ i, activeProcesses st' !! i
          = if bool_decide (i ∈ select_active st sid) then None
            else activeProcesses st !! i)
  ∧ (∀ pid, EvKill pid ∈ trace st'
            ↔ EvKill pid ∈ trace st
              ∨ ∃ i, i ∈ select_active st sid ∧ activeProcesses st !! i = Some pid).
Proof. exact (stream_stop_effect st sid). Qed.

(** *** Manual start *)

Lemma manual_start_effect st ev reply :
  let tid := length (tasks st) in
  let i := destinationId ev in
  let st1 := run st [RestreamStart ev; Resolved tid reply] in
  let st2 := step st1 (DbDone tid None) in
  match getPlatformRtmpUrl st (rs_platform ev) (socialAccountId ev) reply with
  | Threw _ =>
      tasks st1 !! tid = Some Rejected
      ∧ restream_destinations st1 = restream_destinations st
      ∧ activeProcesses st1 = activeProcesses st
      ∧ trace st1 = trace st
      ∧ st2 = st1
  | Returns None =>
      tasks st2 !! tid = Some Returned
      ∧ restream_destinations st2
        = update_where (has_id i) (with_error failed "Failed to get RTMP credentials")
                       (restream_destinations st)
      ∧ activeProcesses st2 = activeProcesses st
      ∧ trace st2 = trace st ++ [EvWrite i failed]
  | Returns (Some info) =>
      tasks st2 !! tid = Some Returned
      ∧ restream_destinations st2
        = update_where (has_id i) (with_status active) (restream_destinations st)
      ∧ activeProcesses st2 = <[i := length (procs st)]> (activeProcesses st)
      ∧ procs st2 = procs st ++ [(i, false)]
      ∧ trace st2 = trace st
                    ++ [EvSpawn (length (procs st)) i
                                ("rtmp://srs:1935/live/" ++ rs_streamKey ev)%string
                                (destinationUrl_of info);
                        EvWrite i active]
  end.
Proof.
  intros tid i st1 st2.
  assert (Hfresh : (tasks st ++ [ManualAwaitResolve ev]) !! tid
                   = Some (ManualAwaitResolve ev)).
  { subst tid. rewrite lookup_app_r by lia. by rewrite Nat.sub_diag. }
  assert (Hlt : tid < length (tasks st ++ [ManualAwaitResolve ev])).
  { subst tid. rewrite length_app. simpl. lia. }
  assert (E1 : st1 = manual_resolved tid ev reply (handleRestreamStart ev st)).
  { subst st1. rewrite rs_run_cons. unfold step at 1.
    rewrite rs_run_cons, rs_run_nil. unfold step. simpl. by rewrite Hfresh. }
  unfold manual_resolved in E1.
  change (getPlatformRtmpUrl (handleRestreamStart ev st))
    with (getPlatformRtmpUrl st) in E1.
  destruct (getPlatformRtmpUrl st (rs_platform ev) (socialAccountId ev) reply)
    as [m|[info|]]; simpl in E1.
  - assert (Ht1 : tasks st1 !! tid = Some Rejected).
    { rewrite E1. simpl. by apply list_lookup_insert_eq. }
    repeat split; try done; try (by rewrite E1).
    subst st2. by rewrite (rs_step_DbDone _ _ _ _ Ht1).
  - assert (Ht1 : tasks st1 !! tid = Some (ManualAwaitActiveWrite ev)).
    { rewrite E1. simpl. by apply list_lookup_insert_eq. }
    subst st2. rewrite (rs_step_DbDone _ _ _ _ Ht1). unfold resume_db.
    rewrite E1. simpl. repeat split.
    + apply list_lookup_insert_eq. by rewrite length_insert.
    + by rewrite <- app_assoc.
  - assert (Ht1 : tasks st1 !! tid = Some (ManualAwaitFailedWrite ev)).
    { rewrite E1. simpl. by apply list_lookup_insert_eq. }
    subst st2. rewrite (rs_step_DbDone _ _ _ _ Ht1). unfold resume_db.
    rewrite E1. simpl. repeat split.
    apply list_lookup_insert_eq. by rewrite length_insert.
Qed.

(** X12.  What a manual start does, by the resolver's outcome.  When the
    resolver throws, the handler is rejected and has written nothing: the
    row keeps the status it had.  When it returns null, the row is written
    failed with the text 'Failed to get RTMP credentials' and nothing is
    spawned.  When it delivers, a child is spawned and registered under
    the destination id (replacing any entry there) and the row is written
    active; its [rtmp_url] is left as it was. *)
Theorem manual_start_by_outcome st ev reply :
  let tid := length (tasks st) in
  let i := destinationId ev in
  let st1 := run st [RestreamStart ev; Resolved tid reply] in
  let st2 := step st1 (DbDone tid None) in
  match getPlatformRtmpUrl st (rs_platform ev) (socialAccountId ev) reply with
  | Threw _ =>
      tasks st1 !! tid = Some Rejected
      ∧ restream_destinations st1 = restream_destinations st
      ∧ activeProcesses st1 = activeProcesses st
      ∧ trace st1 = trace st
      ∧ st2 = st1
  | Returns None =>
      tasks st2 !! tid = Some Returned
      ∧ restream_destinations st2
        = update_where (has_id i) (with_error failed "Failed to get RTMP credentials")
                       (restream_destinations st)
      ∧ activeProcesses st2 = activeProcesses st
      ∧ trace st2 = trace st ++ [EvWrite i failed]
  | Returns (Some info) =>
      tasks st2 !! tid = Some Returned
      ∧ restream_destinations st2
        = update_where (has_id i) (with_status active) (restream_destinations st)
      ∧ activeProcesses st2 = <[i := length (procs st)]> (activeProcesses st)
      ∧ procs st2 = procs st ++ [(i, false)]
      ∧ trace st2 = trace st
                    ++ [EvSpawn (length (procs st)) i
                                ("rtmp://srs:1935/live/" ++ rs_streamKey ev)%string
                                (destinationUrl_of info);
                        EvWrite i active]
  end.
Proof. exact (manual_start_effect st ev reply). Qed.

(** *** A close that comes from a superseded child *)

(** X13.  The close handler of a child removes whatever the registry
    holds under the child's destination id.  When the destination has
    been started again meanwhile, the close of the old child unregisters
    the new one: the new child is still open, but a stop for the
    destination then finds no entry and sends no kill; the row gets the
    status of the old child's exit. *)
Theorem close_of_superseded_child_unregisters_current st X p1 p2 code :
  procs st !! p1 = Some (X, false) →
  procs st !! p2 = Some (X, false) →
  activeProcesses st !! X = Some p2 →
  p1 ≠ p2 →
  let st' := step st (ProcClose p1 code) in
  activeProcesses st' !! X = None
  ∧ procs st' !! p2 = Some (X, false)
  ∧ trace st' = trace st ++ [EvWrite X (match code with
                                        | Some 0%Z => stopped
                                        | _ => failed
                                        end)]
  ∧ step st' (RestreamStop X) = st'.
Proof.
  intros Hp1 Hp2 Hreg Hne st'. subst st'. simpl. unfold on_close. rewrite Hp1.
  unfold handleRestreamStop, kill_registered. simpl.
  rewrite lookup_delete_eq, list_lookup_insert_ne by done. done.
Qed.

Lemma close_of_superseded_child_unregisters_current_witness :
  let st' := step streamX_restarted (ProcClose 0 (Some 0%Z)) in
  activeProcesses st' !! "X" = None
  ∧ procs st' !! 1 = Some ("X"%string, false)
  ∧ trace st' = trace streamX_restarted ++ [EvWrite "X" stopped]
  ∧ step st' (RestreamStop "X") = st'.
Proof.
  refine (close_of_superseded_child_unregisters_current streamX_restarted "X" 0 1
            (Some 0%Z) eq_refl eq_refl eq_refl _).
  lia.
Defined.

(** *** The resolver *)

(** X14.  [getPlatformRtmpUrl] throws only when the account query is
    rejected or when decryption fails for an existing account; a failing
    platform request never escapes it.  It returns null exactly when the
    account does not exist, when the platform request (or the parse of a
    custom account) failed, or when the platform is none of facebook,
    youtube, twitch and custom. *)
Theorem resolver_failure_cases st p a reply :
  (∀ m, getPlatformRtmpUrl st p a reply = Threw m
        ↔ reply = QueryError m
          ∨ (reply = DecryptError m ∧ is_Some (social_accounts st !! a)))
  ∧ (getPlatformRtmpUrl st p a reply = Returns None
     ↔ (∃ m, reply = DecryptError m) ∧ social_accounts st !! a = None
       ∨ (reply = ApiError ∨ ∃ u k x, reply = ApiData u k x)
         ∧ (social_accounts st !! a = None ∨ reply = ApiError ∨ ¬ known_platform p)).
Proof.
  unfold getPlatformRtmpUrl, platform_case, known_platform. split.
  - intros m. unfold is_Some.
    destruct (social_accounts st !! a) as [sa|]; destruct reply as [m'|m'|?|u k x];
      naive_solver.
  - destruct (social_accounts st !! a) as [sa|]; destruct reply as [m'|m'|?|u k x];
      try naive_solver.
    repeat case_bool_decide; subst; naive_solver.
Qed.

Lemma js_or_nonempty x d : d ≠ ""%string → js_or x d ≠ ""%string.
Proof. destruct x as [s0|]; intros Hd; unfold js_or; [|done]. by case_bool_decide. Qed.

(** X15.  For facebook, youtube and twitch, a resolution that delivers
    always delivers a defined, non-empty ingest url and a defined key
    (defaults fill in what the platform's answer lacks), so the child is
    never pointed at an "undefined" target. *)
Theorem resolved_url_is_defined st p a reply info :
  p = "facebook"%string ∨ p = "youtube"%string ∨ p = "twitch"%string →
  getPlatformRtmpUrl st p a reply = Returns (Some info) →
  ∃ u k, rtmpUrl info = Some u ∧ u ≠ ""%string ∧ rtmpKey info = Some k
         ∧ destinationUrl_of info = (u ++ "/" ++ k)%string.
Proof.
  intros Hp H. unfold getPlatformRtmpUrl, platform_case in H.
  pose proof js_or_nonempty as Hor.
  destruct (social_accounts st !! a); destruct reply as [?|?|?|u k x]; try done.
  destruct Hp as [-> | [-> | ->]]; simpl in H; injection H as <-;
    eexists _, _; (split; [reflexivity|]);
    (split; [by apply Hor || done | split; reflexivity]).
Qed.

Lemma resolved_url_is_defined_witness :
  ∃ u k, rtmpUrl {| rtmpUrl := Some "rtmp://a.rtmp.youtube.com/live2"%string;
                    rtmpKey := Some ""%string |} = Some u
         ∧ u ≠ ""%string
         ∧ rtmpKey {| rtmpUrl := Some "rtmp://a.rtmp.youtube.com/live2"%string;
                      rtmpKey := Some ""%string |} = Some k
         ∧ destinationUrl_of {| rtmpUrl := Some "rtmp://a.rtmp.youtube.com/live2"%string;
                                rtmpKey := Some ""%string |}
           = (u ++ "/" ++ k)%string.
Proof.
  refine (resolved_url_is_defined streamS "youtube" "sa-B" (ApiData None None None)
            _ _ eq_refl).
  right. by left.
Defined.

(** *** Failing status writes during a fan-out *)

Lemma rs_resume_db_frame tid' k e st tid :
  tid' ≠ tid → tasks (resume_db tid' k e st) !! tid = tasks st !! tid.
Proof.
  intros Hne. unfold resume_db.
  destruct k as [ev|src d rest|src d rest|src d rest info|src d rest m
                |sid|sid|ev|ev|ev| |];
    destruct e; try done; rewrite ?next_dest_head; unfold stop_selected;
    change (tasks (set_pc ?t ?k ?s)) with (<[t:=k]> (tasks s));
    rewrite list_lookup_insert_ne by done; try done.
  - by destruct (kill_fold (select_active st sid) st) as (_ & -> & _).
  - by destruct (write_stopped_active_spec sid st) as (-> & _).
Qed.

Lemma rs_resume_resolver_frame tid' k r st tid :
  tid' ≠ tid → tasks (resume_resolver tid' k r st) !! tid = tasks st !! tid.
Proof.
  intros Hne. unfold resume_resolver, start_resolved, manual_resolved.
  destruct k; try done;
    match goal with
    | |- context [getPlatformRtmpUrl ?s ?p ?a ?r] =>
        destruct (getPlatformRtmpUrl s p a r) as [?|[?|]]
    end; unfold startRestream; simpl; by rewrite list_lookup_insert_ne.
Qed.

(** A handler that returned or was rejected never moves again. *)
Lemma rs_done_stable st i tid k :
  tasks st !! tid = Some k → done_pc k → tasks (step st i) !! tid = Some k.
Proof.
  intros Ht Hk. destruct i as [ev|sid|ev|d|tid' e|tid' r|pid code]; simpl.
  - by apply lookup_app_l_Some.
  - by apply lookup_app_l_Some.
  - by apply lookup_app_l_Some.
  - unfold handleRestreamStop. by destruct (kill_registered_frame st d) as (_ & -> & _).
  - destruct (tasks st !! tid') as [k'|] eqn:Ht'; [|done].
    destruct (decide (tid' = tid)) as [->|Hne].
    + assert (k' = k) as -> by congruence. by destruct Hk as [-> | ->].
    + by rewrite rs_resume_db_frame.
  - destruct (tasks st !! tid') as [k'|] eqn:Ht'; [|done].
    destruct (decide (tid' = tid)) as [->|Hne].
    + assert (k' = k) as -> by congruence. by destruct Hk as [-> | ->].
    + by rewrite rs_resume_resolver_frame.
  - unfold on_close. by repeat case_match.
Qed.

Lemma rs_done_stable_run ins : ∀ st tid k,
  tasks st !! tid = Some k → done_pc k → tasks (run st ins) !! tid = Some k.
Proof.
  induction ins as [|i ins IH]; intros st tid k Ht Hk; [done|].
  rewrite rs_run_cons. apply IH; [|done]. by apply rs_done_stable.
Qed.

(** X16.  Isolation ends where the catch block's own write fails: when
    the write of failed in the catch block is rejected, [handleStreamStart]
    is rejected.  Nothing else changes in that step, and the handler never
    moves again, so the destinations that were still to come are not
    handled by it. *)
Theorem failed_catch_write_aborts_fanout st tid src d rest m e :
  tasks st !! tid = Some (StartAwaitCatchWrite src d rest m) →
  let st' := step st (DbDone tid (Some e)) in
  st' = set_pc tid Rejected st
  ∧ ∀ ins, tasks (run st' ins) !! tid = Some Rejected.
Proof.
  intros Ht st'. subst st'. rewrite (rs_step_DbDone _ _ _ _ Ht). simpl.
  split; [done|]. intros ins. apply rs_done_stable_run; [|by right].
  simpl. apply list_lookup_insert_eq. by eapply lookup_lt_Some.
Qed.

Lemma failed_catch_write_aborts_fanout_witness :
  let st' := step streamS_A_threw (DbDone 0 (Some "down"%string)) in
  st' = set_pc 0 Rejected streamS_A_threw
  ∧ ∀ ins, tasks (run st' ins) !! 0 = Some Rejected.
Proof.
  exact (failed_catch_write_aborts_fanout streamS_A_threw 0
           "rtmp://srs:1935/live/key-S" (rowOf "A" "sa-A" "facebook")
           [rowOf "B" "sa-B" "youtube"; rowOf "C" "sa-C" "twitch"]
           "down" "down" eq_refl).
Defined.

(** X17.  When the write of active fails after the child was spawned, the
    catch block records the destination as failed with the write's error
    text, while its child stays registered and is sent no kill; the loop
    then goes on with the next destination. *)
Theorem failed_active_write_marks_running_child_failed
    st tid src d rest info pid e :
  tasks st !! tid = Some (StartAwaitActiveWrite src d rest info) →
  activeProcesses st !! dest_id d = Some pid →
  let st' := run st [DbDone tid (Some e); DbDone tid None] in
  lookup_row (dest_id d) (restream_destinations st')
  = with_error failed e <$> lookup_row (dest_id d) (restream_destinations st)
  ∧ activeProcesses st' !! dest_id d = Some pid
  ∧ trace st' = trace st ++ [EvWrite (dest_id d) failed]
  ∧ tasks st' !! tid = Some (at_head src rest).
Proof.
  intros Ht Hreg st'. pose proof (lookup_lt_Some _ _ _ Ht) as Hlt.
  assert (E : st' = set_pc tid (at_head src rest)
                      (write_failed (dest_id d) e
                         (set_pc tid (StartAwaitCatchWrite src d rest e) st))).
  { subst st'. rewrite rs_run_cons, (rs_step_DbDone _ _ _ _ Ht). simpl.
    rewrite rs_run_cons, rs_run_nil.
    erewrite rs_step_DbDone by (simpl; by apply list_lookup_insert_eq).
    simpl. by rewrite next_dest_head. }
  rewrite E. simpl. repeat split; try done.
  - by apply lookup_row_update_eq.
  - apply list_lookup_insert_eq. by rewrite length_insert.
Qed.

Lemma failed_active_write_marks_running_child_failed_witness :
  let st' := run streamS_A_spawned [DbDone 0 (Some "down"%string); DbDone 0 None] in
  lookup_row "A" (restream_destinations st')
  = with_error failed "down" <$> lookup_row "A" (restream_destinations streamS_A_spawned)
  ∧ activeProcesses st' !! "A" = Some 0
  ∧ trace st' = trace streamS_A_spawned ++ [EvWrite "A" failed]
  ∧ tasks st' !! 0
    = Some (at_head "rtmp://srs:1935/live/key-S"
                    [rowOf "B" "sa-B" "youtube"; rowOf "C" "sa-C" "twitch"]).
Proof.
  exact (failed_active_write_marks_running_child_failed streamS_A_spawned 0
           "rtmp://srs:1935/live/key-S" (rowOf "A" "sa-A" "facebook")
           [rowOf "B" "sa-B" "youtube"; rowOf "C" "sa-C" "twitch"]
           {| rtmpUrl := Some "rtmp://ingest"%string; rtmpKey := Some "k"%string |}
           0 "down" eq_refl eq_refl).
Defined.

(** *** The stop route *)

(** X18.  The stop route acts only for the owner of the destination's
    stream: when no row with the given id belongs to a stream of the
    caller, it answers 404, writes nothing and publishes nothing. *)
Theorem stop_route_rejects_stranger st X user :
  (∀ d, d ∈ restream_destinations st → id d = X →
        streams st !! stream_id d ≠ Some user) →
  stop_route X user st = (st, AppError 404 "Destination not found").
Proof.
  intros Hno. unfold stop_route.
  assert (Hex : existsb (λ d, has_id X d && owned_by st user d)
                        (restream_destinations st) = false).
  { induction (restream_destinations st) as [|d rows IH]; [done|]. simpl.
    rewrite IH by (intros; apply Hno; [by right|done]). rewrite orb_false_r.
    destruct (has_id X d) eqn:Hd; [|done]. apply has_id_true in Hd. simpl.
    unfold owned_by. apply bool_decide_eq_false_2, Hno; [by left|done]. }
  by rewrite Hex.
Qed.

Lemma stop_route_rejects_stranger_witness :
  stop_route "X" "u2" streamX = (streamX, AppError 404 "Destination not found").
Proof.
  refine (stop_route_rejects_stranger streamX "X" "u2" _).
  intros d Hd _. vm_compute in Hd.
  apply list_elem_of_singleton in Hd as ->. vm_compute. discriminate.
Defined.

End RestreamMore.

(** * Properties of the start and delete routes of the restream API *)

Module RestreamRoutesSpec.
Import Restream Fanout Api RestreamCases RestreamRoutes RestreamSpec RestreamMore.

#[local] Set Warnings "-clear-no-such-hyp,-unused-intro-pattern".

Lemma start_rows_head st X user row sa :
  lookup_row X (restream_destinations st) = Some row →
  streams st !! stream_id row = Some user →
  social_accounts st !! social_account_id row = Some sa →
  ∃ tl, start_rows X user st = (row, sa) :: tl.
Proof.
  intros Hrow Hown Hsa. unfold start_rows.
  induction (restream_destinations st) as [|d rows IH]; [done|].
  simpl in Hrow. csimpl. destruct (has_id X d) eqn:Hd; simpl.
  - injection Hrow as ->. unfold owned_by.
    rewrite (bool_decide_eq_true_2 _ Hown), Hsa. simpl. by eexists.
  - by apply IH.
Qed.

Lemma lookup_row_None i rows : lookup_row i rows = None ↔ i ∉ id <$> rows.
Proof.
  induction rows as [|d rows IH]; csimpl.
  - split; [intros _; by apply not_elem_of_nil|done].
  - rewrite not_elem_of_cons, <- IH. unfold has_id.
    case_bool_decide; naive_solver.
Qed.

(** X19.  The start route, called by the owner of the destination's
    stream, sets the row to pending whatever its status was and publishes
    [restream:start] with the destination's account, its platform and the
    stream's key.  When that event is handled and the resolver delivers,
    the destination ends active with a newly spawned child registered
    under its id. *)
Theorem start_route_then_resolution st key X user row sa reply info :
  lookup_row X (restream_destinations st) = Some row →
  streams st !! stream_id row = Some user →
  social_accounts st !! social_account_id row = Some sa →
  getPlatformRtmpUrl st (platform sa) (social_account_id row) reply
  = Returns (Some info) →
  let ev := {| destinationId := X; rs_streamKey := key (stream_id row);
               socialAccountId := social_account_id row;
               rs_platform := platform sa |} in
  let st1 := write_status X pending st in
  let tid := length (tasks st) in
  let st' := run st1 [RestreamStart ev; Resolved tid reply; DbDone tid None] in
  start_route key X user st = (st1, Publish (RestreamStart ev))
  ∧ status_of st1 X = Some pending
  ∧ status_of st' X = Some active
  ∧ activeProcesses st' !! X = Some (length (procs st))
  ∧ tasks st' !! tid = Some Returned.
Proof.
  intros Hrow Hown Hsa Hres ev st1 tid st'.
  pose proof (lookup_row_id _ _ _ Hrow) as Hid.
  destruct (start_rows_head st X user row sa Hrow Hown Hsa) as [tl Htl].
  split; [unfold start_route; rewrite Htl, Hid; done|].
  assert (Hrow1 : lookup_row X (restream_destinations st1)
                  = Some (with_status pending row)).
  { subst st1. simpl. rewrite lookup_row_update_eq by done. by rewrite Hrow. }
  split; [unfold status_of; by rewrite Hrow1|].
  pose proof (manual_start_effect st1 ev reply) as Heff. cbv zeta in Heff.
  change (getPlatformRtmpUrl st1 (rs_platform ev) (socialAccountId ev) reply)
    with (getPlatformRtmpUrl st (platform sa) (social_account_id row) reply) in Heff.
  rewrite Hres in Heff. destruct Heff as (Hret & Hrows & Hreg & _ & _).
  assert (Hrows' : restream_destinations st'
                   = update_where (has_id X) (with_status active)
                                  (restream_destinations st1)) by exact Hrows.
  assert (Hreg' : activeProcesses st'
                  = <[X := length (procs st)]> (activeProcesses st)) by exact Hreg.
  split; [|split; [|exact Hret]].
  - unfold status_of. rewrite Hrows', lookup_row_update_eq by done.
    by rewrite Hrow1.
  - rewrite Hreg'. apply lookup_insert_eq.
Qed.

Lemma start_route_then_resolution_witness :
  let ev := startX in
  let st1 := write_status "X" pending streamX in
  let st' := run st1 [RestreamStart ev; Resolved 1 good; DbDone 1 None] in
  start_route (λ _, "key-S"%string) "X" "u1" streamX = (st1, Publish (RestreamStart ev))
  ∧ status_of st1 "X" = Some pending
  ∧ status_of st' "X" = Some active
  ∧ activeProcesses st' !! "X" = Some 1
  ∧ tasks st' !! 1 = Some Returned.
Proof.
  exact (start_route_then_resolution streamX (λ _, "key-S"%string) "X" "u1"
           (with_url active (Some "rtmp://live.twitch.tv/app"%string)
                     (destination "X" "sa-X"))
           (account "twitch") good
           {| rtmpUrl := Some "rtmp://live.twitch.tv/app"%string;
              rtmpKey := Some "k"%string |}
           eq_refl eq_refl eq_refl eq_refl).
Defined.

(** X20.  Deleting a destination does not stop its child.  The route
    removes the row and touches nothing else: the child stays registered
    and is sent no kill.  A later stream stop does not reach it either,
    since it selects the destinations to kill from the table. *)
Theorem delete_route_leaves_child_running st X user row pid sid :
  NoDup (id <$> restream_destinations st) →
  lookup_row X (restream_destinations st) = Some row →
  streams st !! stream_id row = Some user →
  activeProcesses st !! X = Some pid →
  let st1 := (delete_route X user st).1 in
  let tid := length (tasks st1) in
  let st' := run st1 [StreamStop sid; DbDone tid None; DbDone tid None] in
  (delete_route X user st).2 = Removed
  ∧ lookup_row X (restream_destinations st1) = None
  ∧ activeProcesses st1 = activeProcesses st
  ∧ trace st1 = trace st
  ∧ activeProcesses st' !! X = Some pid.
Proof.
  intros Hnd Hrow Hown Hreg st1 tid st'.
  pose proof (lookup_row_id _ _ _ Hrow) as Hid.
  set (hit := λ d, has_id X d && owned_by st user d).
  assert (Hhit : hit row = true).
  { subst hit. simpl. apply andb_true_iff. split; [by apply has_id_true|].
    by apply bool_decide_eq_true_2. }
  assert (Hin : row ∈ restream_destinations st).
  { clear -Hrow. induction (restream_destinations st) as [|d rows IH]; [done|].
    simpl in Hrow. destruct (has_id X d); [injection Hrow as ->; by left|].
    right. by apply IH. }
  assert (Hex : existsb hit (restream_destinations st) = true).
  { apply existsb_exists. exists row. split; [by apply list_elem_of_In|done]. }
  assert (E : delete_route X user st
              = (set_destinations
                   (List.filter (λ d, negb (hit d)) (restream_destinations st)) st,
                 Removed)).
  { unfold delete_route. fold hit. by rewrite Hex. }
  assert (Hgone : lookup_row X (restream_destinations st1) = None).
  { subst st1. rewrite E. simpl. apply lookup_row_None.
    intros (d & Hd & Hdin)%list_elem_of_fmap.
    apply list_elem_of_In, filter_In in Hdin as [Hdin Hnh].
    apply list_elem_of_In in Hdin.
    assert (d = row) as -> by (eapply NoDup_id_inj; eauto; congruence).
    by rewrite Hhit in Hnh. }
  assert (Hreg1 : activeProcesses st1 = activeProcesses st) by (subst st1; by rewrite E).
  split; [by rewrite E|]. split; [done|]. split; [done|].
  split; [subst st1; by rewrite E|].
  destruct (stream_stop_effect st1 sid) as (_ & _ & Hregs & _).
  fold tid in Hregs. fold st' in Hregs. rewrite Hregs, Hreg1, Hreg.
  rewrite bool_decide_eq_false_2; [done|].
  unfold select_active. intros (d & Hd & Hdin)%list_elem_of_fmap.
  apply list_elem_of_filter in Hdin as [_ Hdin].
  apply lookup_row_None in Hgone. apply Hgone. rewrite Hd.
  by apply list_elem_of_fmap_2.
Qed.

Lemma delete_route_leaves_child_running_witness :
  let st1 := (delete_route "X" "u1" streamX).1 in
  let st' := run st1 [StreamStop "S"; DbDone 1 None; DbDone 1 None] in
  (delete_route "X" "u1" streamX).2 = Removed
  ∧ lookup_row "X" (restream_destinations st1) = None
  ∧ activeProcesses st1 = activeProcesses streamX
  ∧ trace st1 = trace streamX
  ∧ activeProcesses st' !! "X" = Some 0.
Proof.
  refine (delete_route_leaves_child_running streamX "X" "u1"
            (with_url active (Some "rtmp://live.twitch.tv/app"%string)
                      (destination "X" "sa-X"))
            0 "S" _ eq_refl eq_refl eq_refl).
  apply (bool_decide_unpack _). vm_compute. exact I.
Defined.

End RestreamRoutesSpec.

(** * Properties of the linear-channel routes *)

Module LinearApiSpec.
Import LinearApi.

#[local] Set Warnings "-clear-no-such-hyp,-unused-intro-pattern".





Lemma set_items_same db : set_items (playlist_items db) db = db.
Proof. by destruct db. Qed.



(** *** Reordering *)

Lemma position_of_exists ch a items :
  is_Some (position_of ch a items) → existsb (hits ch a) items = true.
Proof.
  induction items as [|i items IH]; simpl; [by intros [? ?]|].
  destruct (hits ch a i); [done|]. apply IH.
Qed.

Lemma hits_in_channel ch a i : hits ch a i = true → in_channel ch i = true.
Proof. unfold hits. by intros [_ ?]%andb_true_iff. Qed.

Lemma hits_id ch a i : hits ch a i = true → item_id i = a.
Proof. unfold hits. by intros [?%bool_decide_eq_true _]%andb_true_iff. Qed.

Lemma position_of_other ch a b p items :
  position_of ch b items = Some p → a ≠ b →
  p ∈ positions ch (List.filter (λ i, negb (hits ch a i)) items).
Proof.
  intros Hb Hne. unfold positions.
  induction items as [|i items IH]; [done|]. simpl in Hb. simpl.
  destruct (hits ch b i) eqn:Hbi.
  - injection Hb as <-.
    assert (hits ch a i = false) as ->.
    { destruct (hits ch a i) eqn:Hai; [|done].
      apply hits_id in Hai. apply hits_id in Hbi. congruence. }
    simpl. rewrite (hits_in_channel _ _ _ Hbi). simpl. by left.
  - specialize (IH Hb). destruct (hits ch a i); simpl; [done|].
    destruct (in_channel ch i); simpl; [by right|done].
Qed.

(** X22.  A reorder is applied one update at a time, and the uniqueness
    of positions within a channel is checked at each.  So a reorder whose
    first entry moves an item to the position another item of the channel
    holds is rejected with a 500 and changes nothing, whatever its other
    entries say: in particular, two items cannot be swapped. *)
Theorem reorder_to_taken_position_is_rejected db ch user a b p rest :
  owns db user ch = true →
  is_Some (position_of ch a (playlist_items db)) →
  position_of ch b (playlist_items db) = Some p →
  a ≠ b →
  reorder ch user (Some ((a, p) :: rest)) db
  = (db, Error 500 "Failed to reorder playlist").
Proof.
  intros Hown Ha Hb Hne. unfold reorder. rewrite Hown. simpl.
  unfold update_position.
  destruct (int32 p); simpl; [|by rewrite set_items_same].
  rewrite (position_of_exists _ _ _ Ha).
  rewrite (bool_decide_eq_true_2 _ (position_of_other _ _ _ _ _ Hb Hne)). simpl.
  by rewrite set_items_same.
Qed.

Lemma reorder_to_taken_position_is_rejected_witness :
  reorder "C" "u1" (Some [("a"%string, 1%Z); ("b"%string, 0%Z)]) dbC
  = (dbC, Error 500 "Failed to reorder playlist").
Proof.
  refine (reorder_to_taken_position_is_rejected dbC "C" "u1" "a" "b" 1
            [("b"%string, 0%Z)] eq_refl _ eq_refl _).
  - by eexists.
  - discriminate.
Defined.

Lemma hits_moved ch a p ch' id' i :
  hits ch' id' (if hits ch a i then with_position p i else i) = hits ch' id' i.
Proof. by destruct (hits ch a i). Qed.

Lemma position_of_moved ch a p ch' id' items :
  position_of ch' id' (moved ch a p items)
  = if bool_decide (ch' = ch ∧ id' = a)
    then position_of ch a items ≫= (λ _, Some p)
    else position_of ch' id' items.
Proof.
  unfold moved. induction items as [|i items IH]; csimpl.
  - by case_bool_decide.
  - rewrite hits_moved, IH. destruct (hits ch' id' i) eqn:Hi.
    + case_bool_decide as Hc.
      * destruct Hc as [-> ->]. by rewrite Hi.
      * destruct (hits ch a i) eqn:Hai; [|done]. exfalso. apply Hc.
        pose proof (hits_id _ _ _ Hi). pose proof (hits_id _ _ _ Hai).
        apply hits_in_channel, bool_decide_eq_true in Hi.
        apply hits_in_channel, bool_decide_eq_true in Hai. split; congruence.
    + case_bool_decide as Hc; [|done]. destruct Hc as [-> ->]. by rewrite Hi.
Qed.

Lemma positions_moved ch a p items q :
  q ∈ positions ch (moved ch a p items) → q = p ∨ q ∈ positions ch items.
Proof.
  unfold positions, moved. induction items as [|i items IH]; csimpl; [by right|].
  destruct (hits ch a i) eqn:Hai.
  - pose proof (hits_in_channel _ _ _ Hai) as Hin.
    assert (in_channel ch (with_position p i) = true) as -> by done.
    rewrite Hin. csimpl. intros [->|Hq]%elem_of_cons; [by left|].
    destruct (IH Hq); [by left|right; by right].
  - destruct (in_channel ch i); csimpl; [|done].
    intros [->|Hq]%elem_of_cons; [right; by left|].
    destruct (IH Hq); [by left|right; by right].
Qed.

Lemma positions_filter_sub ch (f : Item → bool) items q :
  q ∈ positions ch (List.filter f items) → q ∈ positions ch items.
Proof.
  unfold positions. induction items as [|i items IH]; simpl; [done|].
  destruct (f i); simpl; destruct (in_channel ch i); csimpl; try done.
  - intros [->|Hq]%elem_of_cons; [by left|right; by apply IH].
  - intros Hq. right. by apply IH.
Qed.

Lemma update_position_fresh ch a p items :
  int32 p = true →
  p ∉ positions ch items → update_position ch a p items = Some (moved ch a p items).
Proof.
  intros Hr Hp. unfold update_position. rewrite Hr. cbn [negb].
  rewrite (bool_decide_eq_false_2 (p ∈ _)); [by rewrite andb_false_r|].
  intros Hq. by apply Hp, (positions_filter_sub ch (λ i, negb (hits ch a i))).
Qed.

Lemma reorder_loop_fresh ch es : ∀ items,
  NoDup es.*1 → NoDup es.*2 →
  (∀ p, p ∈ es.*2 → int32 p = true) →
  (∀ p, p ∈ es.*2 → p ∉ positions ch items) →
  ∃ items', reorder_loop ch es items = (items', true)
    ∧ (∀ a p, (a, p) ∈ es → is_Some (position_of ch a items) →
              position_of ch a items' = Some p)
    ∧ (∀ ch' a, ch' ≠ ch ∨ a ∉ es.*1 →
                position_of ch' a items' = position_of ch' a items).
Proof.
  induction es as [|[a p] es IH]; intros items Hid Hpos Hint Hfresh.
  { exists items. split; [done|]. split; [|done]. by intros a p ?%elem_of_nil. }
  rewrite fmap_cons in Hid. rewrite fmap_cons in Hpos. simpl in Hid, Hpos.
  apply NoDup_cons in Hid as [Ha Hid]. apply NoDup_cons in Hpos as [Hp Hpos].
  simpl. rewrite update_position_fresh by (first [apply Hint | apply Hfresh]; by left).
  destruct (IH (moved ch a p items) Hid Hpos) as (items' & Hloop & Hset & Hkeep).
  { intros q Hq. apply Hint. by right. }
  { intros q Hq [->|Hin]%positions_moved; [done|].
    by apply (Hfresh q); [right|]. }
  exists items'. split; [done|]. split.
  - intros b q [[= -> ->]|Hin]%elem_of_cons Hsome.
    + rewrite Hkeep by (by right). rewrite position_of_moved.
      rewrite bool_decide_eq_true_2 by done. by destruct Hsome as [x ->].
    + apply Hset; [done|]. rewrite position_of_moved.
      case_bool_decide as Hc; [|done]. destruct Hc as [_ ->].
      exfalso. apply Ha. by apply (list_elem_of_fmap_2 fst _ (a, q)).
  - intros ch' b Hb. rewrite Hkeep, position_of_moved.
    + rewrite bool_decide_eq_false_2; [done|]. intros [-> ->].
      destruct Hb as [?|Hb]; [done|]. apply Hb. by left.
    + destruct Hb as [?|Hb]; [by left|]. right. intros ?. apply Hb. by right.
Qed.

(** X23.  A reorder by the channel's owner that lists stored items, each
    once, and gives them pairwise distinct INTEGER positions, none of
    which is held in the channel beforehand, succeeds: every listed item
    that belongs to the channel ends at the position given for it, and
    every other item, of this or of another channel, keeps its position. *)
Theorem reorder_to_fresh_positions db ch user es :
  owns db user ch = true →
  (∀ a, a ∈ es.*1 → ∃ i, i ∈ playlist_items db ∧ item_id i = a) →
  NoDup es.*1 →
  NoDup es.*2 →
  (∀ p, p ∈ es.*2 → int32 p = true) →
  (∀ p, p ∈ es.*2 → p ∉ positions ch (playlist_items db)) →
  ∃ items',
    reorder ch user (Some es) db = (set_items items' db, Ok "Playlist reordered")
    ∧ (∀ a p, (a, p) ∈ es → is_Some (position_of ch a (playlist_items db)) →
              position_of ch a items' = Some p)
    ∧ (∀ ch' a, ch' ≠ ch ∨ a ∉ es.*1 →
                position_of ch' a items' = position_of ch' a (playlist_items db)).
Proof.
  intros Hown _ Hid Hpos Hint Hfresh.
  destruct (reorder_loop_fresh ch es (playlist_items db) Hid Hpos Hint Hfresh)
    as (items' & Hloop & Hset & Hkeep).
  exists items'. split; [|done]. unfold reorder. by rewrite Hown, Hloop.
Qed.

Lemma reorder_to_fresh_positions_witness :
  ∃ items',
    reorder "C" "u1" (Some [("a"%string, 11%Z); ("b"%string, 10%Z)]) dbC
    = (set_items items' dbC, Ok "Playlist reordered")
    ∧ (∀ a p, (a, p) ∈ [("a"%string, 11%Z); ("b"%string, 10%Z)] →
              is_Some (position_of "C" a (playlist_items dbC)) →
              position_of "C" a items' = Some p)
    ∧ (∀ ch' a, ch' ≠ "C"%string ∨ a ∉ [("a"%string, 11%Z); ("b"%string, 10%Z)].*1 →
                position_of ch' a items' = position_of ch' a (playlist_items dbC)).
Proof.
  refine (reorder_to_fresh_positions dbC "C" "u1"
            [("a"%string, 11%Z); ("b"%string, 10%Z)] eq_refl _ _ _ _ _).
  - intros a Ha. vm_compute in Ha.
    apply elem_of_cons in Ha as [->|Ha];
      [exists itemA|apply list_elem_of_singleton in Ha as ->; exists itemB];
      (split; [unfold dbC; simpl; repeat constructor|done]).
  - apply (bool_decide_unpack _). vm_compute. exact I.
  - apply (bool_decide_unpack _). vm_compute. exact I.
  - intros p Hp. vm_compute in Hp.
    apply elem_of_cons in Hp as [->|Hp];
      [|apply list_elem_of_singleton in Hp as ->]; done.
  - intros p Hp Hin. vm_compute in Hin.
    apply elem_of_cons in Hin as [->|Hin];
      [|apply list_elem_of_singleton in Hin as ->];
      vm_compute in Hp; repeat (apply elem_of_cons in Hp as [Hp|Hp]; [done|]);
      by apply elem_of_nil in Hp.
Defined.

(** X24.  The updates of a reorder are committed one by one, so a
    rejected reorder is not undone: when a later entry is rejected, the
    request answers 500 while the earlier entries stay applied.  Here two
    items of the channel are both sent to one free INTEGER position: the
    first update is accepted and stays, the second is rejected. *)
Theorem reorder_failure_keeps_earlier_updates db ch user a b p rest :
  owns db user ch = true →
  a ≠ b →
  is_Some (position_of ch a (playlist_items db)) →
  is_Some (position_of ch b (playlist_items db)) →
  int32 p = true →
  p ∉ positions ch (playlist_items db) →
  ∃ items',
    reorder ch user (Some ((a, p) :: (b, p) :: rest)) db
    = (set_items items' db, Error 500 "Failed to reorder playlist")
    ∧ position_of ch a items' = Some p
    ∧ (∀ ch' c, ch' ≠ ch ∨ c ≠ a →
                position_of ch' c items' = position_of ch' c (playlist_items db)).
Proof.
  intros Hown Hne Ha Hb Hr Hp. exists (moved ch a p (playlist_items db)).
  assert (Ha' : position_of ch a (moved ch a p (playlist_items db)) = Some p).
  { rewrite position_of_moved, bool_decide_eq_true_2 by done.
    by destruct Ha as [x ->]. }
  split; [|split; [done|]].
  - unfold reorder. rewrite Hown. simpl.
    rewrite update_position_fresh by done.
    unfold update_position at 1. rewrite Hr. cbn [negb].
    rewrite position_of_exists.
    2:{ rewrite position_of_moved, bool_decide_eq_false_2; [done|].
        intros [_ ?]; congruence. }
    rewrite (bool_decide_eq_true_2 _ (position_of_other ch b a p _ Ha' (not_eq_sym Hne))).
    done.
  - intros ch' c Hc. rewrite position_of_moved, bool_decide_eq_false_2; [done|].
    intros [-> ->]. by destruct Hc.
Qed.

Lemma reorder_failure_keeps_earlier_updates_witness :
  ∃ items',
    reorder "C" "u1" (Some [("a"%string, 7%Z); ("b"%string, 7%Z)]) dbC
    = (set_items items' dbC, Error 500 "Failed to reorder playlist")
    ∧ position_of "C" "a" items' = Some 7%Z
    ∧ (∀ ch' c, ch' ≠ "C"%string ∨ c ≠ "a"%string →
                position_of ch' c items' = position_of ch' c (playlist_items dbC)).
Proof.
  refine (reorder_failure_keeps_earlier_updates dbC "C" "u1" "a" "b" 7 []
            eq_refl _ _ _ eq_refl _).
  - discriminate.
  - by eexists.
  - by eexists.
  - intros Hin. vm_compute in Hin.
    repeat (apply elem_of_cons in Hin as [Hin|Hin]; [done|]).
    by apply elem_of_nil in Hin.
Defined.

(** *** Removing an item *)

Lemma position_of_removed ch a ch' c items :
  position_of ch' c (List.filter (λ i, negb (hits ch a i)) items)
  = if bool_decide (ch' = ch ∧ c = a) then None else position_of ch' c items.
Proof.
  induction items as [|i items IH]; simpl.
  - by case_bool_decide.
  - destruct (hits ch a i) eqn:Hai; simpl.
    + rewrite IH. case_bool_decide as Hc; [done|].
      destruct (hits ch' c i) eqn:Hi; [|done]. exfalso. apply Hc.
      pose proof (hits_id _ _ _ Hi). pose proof (hits_id _ _ _ Hai).
      apply hits_in_channel, bool_decide_eq_true in Hi.
      apply hits_in_channel, bool_decide_eq_true in Hai. split; congruence.
    + rewrite IH. case_bool_decide as Hc; [|done].
      destruct Hc as [-> ->]. by rewrite Hai.
Qed.

(** X25.  The owner of a channel removes an item of it: the answer is
    200, that item is gone from the channel, and every other item (of
    this or of any other channel) keeps its position: the positions after
    it are not renumbered, a gap stays. *)
Theorem remove_item_removes_only_that_item db ch itemId user :
  owns db user ch = true →
  is_Some (position_of ch itemId (playlist_items db)) →
  ∃ items',
    remove_item ch itemId user db = (set_items items' db, Ok "Item removed from playlist")
    ∧ position_of ch itemId items' = None
    ∧ (∀ ch' c, ch' ≠ ch ∨ c ≠ itemId →
                position_of ch' c items' = position_of ch' c (playlist_items db)).
Proof.
  intros Hown Hi.
  exists (List.filter (λ i, negb (hits ch itemId i)) (playlist_items db)).
  split; [|split].
  - unfold remove_item. by rewrite Hown, (position_of_exists _ _ _ Hi).
  - by rewrite position_of_removed, bool_decide_eq_true_2.
  - intros ch' c Hc. rewrite position_of_removed, bool_decide_eq_false_2; [done|].
    intros [-> ->]. by destruct Hc.
Qed.

Lemma remove_item_removes_only_that_item_witness :
  ∃ items',
    remove_item "C" "a" "u1" dbC = (set_items items' dbC, Ok "Item removed from playlist")
    ∧ position_of "C" "a" items' = None
    ∧ (∀ ch' c, ch' ≠ "C"%string ∨ c ≠ "a"%string →
                position_of ch' c items' = position_of ch' c (playlist_items dbC)).
Proof.
  refine (remove_item_removes_only_that_item dbC "C" "a" "u1" eq_refl _).
  by eexists.
Defined.

(** *** Deleting a channel *)

(** X26.  The delete route publishes the stop before it looks at who
    asks.  So a caller who does not own the channel gets a 404 and the
    channel stays in the store, but its playout is stopped all the same:
    the playing child is killed and the channel is unregistered.  The
    stop route, for the same caller, publishes nothing. *)
Theorem delete_by_stranger_stops_playout db user st tid ev l k pid pl :
  owns db user (Playout.channelId ev) = false →
  PlayoutCases.playing st tid ev l k pid pl →
  let ch := Playout.channelId ev in
  delete_channel ch user db = (db, Error 404 "Channel not found", [Playout.Stop ch])
  ∧ stop ch user db = (db, Error 404 "Channel not found", [])
  ∧ let st' := Playout.run st (delete_channel ch user db).2 in
    Playout.trace st' = Playout.trace st ++ [Playout.EvKill pid]
    ∧ Playout.activePlayouts st' !! ch = None
    ∧ Playout.procs st' = Playout.procs st.
Proof.
  intros Hown Hplay ch. pose proof Hplay as (Hh & _).
  assert (E : delete_channel ch user db
              = (db, Error 404 "Channel not found", [Playout.Stop ch])).
  { unfold delete_channel. fold ch in Hown. by rewrite Hown. }
  split; [done|]. split.
  - unfold stop. unfold owns in Hown. fold ch in Hown.
    destruct (linear_channels db !! ch); [|done]. by rewrite Hown.
  - rewrite E. simpl.
    assert (E' : Playout.run st [Playout.Stop ch]
                 = Playout.set_activePlayouts
                     (delete ch (Playout.activePlayouts st))
                     (Playout.log (Playout.EvKill pid) st)).
    { rewrite PlayoutSpec.run_cons, PlayoutSpec.run_nil.
      rewrite PlayoutMore.step_Stop by done. unfold Playout.stopPlayout. subst ch.
      by rewrite (PlayoutMore.kill_current_playing _ _ _ _ _ _ _ Hplay). }
    rewrite E'. simpl. split; [done|]. split; [apply lookup_delete_eq|done].
Qed.

Lemma delete_by_stranger_stops_playout_witness :
  let st := PlayoutCases.channelC_playing in
  let ch := "C"%string in
  delete_channel ch "u2" dbC = (dbC, Error 404 "Channel not found", [Playout.Stop ch])
  ∧ stop ch "u2" dbC = (dbC, Error 404 "Channel not found", [])
  ∧ let st' := Playout.run st (delete_channel ch "u2" dbC).2 in
    Playout.trace st' = Playout.trace st ++ [Playout.EvKill 0]
    ∧ Playout.activePlayouts st' !! ch = None
    ∧ Playout.procs st' = Playout.procs st.
Proof.
  refine (delete_by_stranger_stops_playout dbC "u2" PlayoutCases.channelC_playing
            0 (Scripts.startC false) 0 0 0 _ eq_refl _).
  vm_compute. repeat split; reflexivity.
Defined.

End LinearApiSpec.

(** * Properties of the viewer counters *)

Module ViewersSpec.
Import Viewers.

Lemma alter_last {A} (f : A → A) (l : list A) (x : A) :
  alter f (length l) (l ++ [x]) = l ++ [f x].
Proof. by rewrite <- (Nat.add_0_r (length l)), alter_app_r. Qed.

Lemma lookup_last {A} (l : list A) (x : A) : (l ++ [x]) !! length l = Some x.
Proof. by apply list_lookup_middle. Qed.

Lemma counter_set st k v k' :
  counter (set_counter k v st) k' = if bool_decide (k' = k) then v else counter st k'.
Proof.
  unfold counter, set_counter; simpl. case_bool_decide as H.
  - subst. by rewrite lookup_insert_eq.
  - by rewrite lookup_insert_ne.
Qed.

(** A play hook handled alone. *)
Lemma handle_play st k ok :
  handle st (Play k ok)
  = let v := (counter st k + 1)%Z in
    {| counters := <[k := v]> (counters st);
       streams := if ok
                  then alter (λ row, {| viewer_count := v;
                                        peak_viewers := Z.max (peak_viewers row) v |})
                             k (streams st)
                  else streams st;
       requests := requests st ++ [{| key := k; pc := Responded |}] |}.
Proof.
  unfold handle, run. simpl. rewrite lookup_last. unfold resume_redis. simpl.
  rewrite alter_last. simpl. rewrite lookup_last. unfold resume_db. simpl.
  destruct ok; unfold set_pc, counter; simpl; repeat (rewrite alter_last; simpl); done.
Qed.

(** A stop hook handled alone. *)
Lemma handle_stop st k ok :
  handle st (StopWatching k ok)
  = let v := Z.max 0 (counter st k - 1)%Z in
    {| counters := <[k := v]> (counters st);
       streams := if ok
                  then alter (λ row, {| viewer_count := v;
                                        peak_viewers := peak_viewers row |})
                             k (streams st)
                  else streams st;
       requests := requests st ++ [{| key := k; pc := Responded |}] |}.
Proof.
  unfold handle, run, step, resume_redis, resume_db, set_pc, set_counter, arrive,
    update_stream, counter.
  cbn -[Z.ltb Z.sub Z.max]. rewrite lookup_last. cbn -[Z.ltb Z.sub Z.max].
  rewrite alter_last. cbn -[Z.ltb Z.sub Z.max].
  destruct (default 0 (counters st !! k) - 1 <? 0)%Z eqn:Hneg;
    cbn -[Z.ltb Z.sub Z.max]; rewrite lookup_insert_eq; cbn -[Z.ltb Z.sub Z.max];
    rewrite Hneg; cbn -[Z.ltb Z.sub Z.max];
    repeat (first [rewrite lookup_last | rewrite alter_last];
            cbn -[Z.ltb Z.sub Z.max]).
  - apply Z.ltb_lt in Hneg. rewrite insert_insert_eq, Z.max_l by lia.
    destruct ok; cbn -[Z.ltb Z.sub Z.max]; by rewrite alter_last.
  - apply Z.ltb_ge in Hneg. rewrite Z.max_r by lia.
    destruct ok; cbn -[Z.ltb Z.sub Z.max]; by rewrite alter_last.
Qed.

(** A hook whose first command is rejected answers at once. *)
Lemma handle_play_refused st k :
  handle st (PlayRefused k)
  = {| counters := counters st; streams := streams st;
       requests := requests st ++ [{| key := k; pc := Responded |}] |}.
Proof.
  unfold handle, run, step, arrive. cbn [foldl requests]. rewrite lookup_last.
  unfold resume_redis, set_pc. cbn [negb counters streams requests key].
  by rewrite alter_last.
Qed.

Lemma handle_stop_refused st k :
  handle st (StopRefused k)
  = {| counters := counters st; streams := streams st;
       requests := requests st ++ [{| key := k; pc := Responded |}] |}.
Proof.
  unfold handle, run, step, arrive. cbn [foldl requests]. rewrite lookup_last.
  unfold resume_redis, set_pc. cbn [negb counters streams requests key].
  by rewrite alter_last.
Qed.

(** A stop hook whose reset is rejected: the counter keeps the value the
    decrement gave it, and the hook answers without its update. *)
Lemma handle_stop_not_reset st k ok :
  handle st (StopNotReset k ok)
  = let count := (counter st k - 1)%Z in
    {| counters := <[k := count]> (counters st);
       streams := if (count <? 0)%Z then streams st
                  else if ok
                  then alter (λ row, {| viewer_count := count;
                                        peak_viewers := peak_viewers row |})
                             k (streams st)
                  else streams st;
       requests := requests st ++ [{| key := k; pc := Responded |}] |}.
Proof.
  unfold handle, run, step, resume_redis, resume_db, set_pc, set_counter, arrive,
    update_stream, counter.
  cbn -[Z.ltb Z.sub Z.max]. rewrite lookup_last. cbn -[Z.ltb Z.sub Z.max].
  rewrite alter_last. cbn -[Z.ltb Z.sub Z.max].
  destruct (default 0 (counters st !! k) - 1 <? 0)%Z eqn:Hneg;
    cbn -[Z.ltb Z.sub Z.max]; rewrite lookup_insert_eq; cbn -[Z.ltb Z.sub Z.max];
    rewrite Hneg; cbn -[Z.ltb Z.sub Z.max];
    repeat (first [rewrite lookup_last | rewrite alter_last];
            cbn -[Z.ltb Z.sub Z.max]).
  - done.
  - destruct ok; cbn -[Z.ltb Z.sub Z.max]; by rewrite alter_last.
Qed.

(** The counters after a hook handled alone. *)
Lemma handle_counter st h k' :
  counter (handle st h) k'
  = if bool_decide (k' = hook_key h)
    then match h with
         | Play _ _ => (counter st k' + 1)%Z
         | StopWatching _ _ => Z.max 0 (counter st k' - 1)
         | PlayRefused _ | StopRefused _ => counter st k'
         | StopNotReset _ _ => (counter st k' - 1)%Z
         end
    else counter st k'.
Proof.
  destruct h as [k ok|k ok|k|k|k ok];
    [rewrite handle_play|rewrite handle_stop|rewrite handle_play_refused
    |rewrite handle_stop_refused|rewrite handle_stop_not_reset];
    unfold counter; cbn -[Z.max Z.sub]; case_bool_decide as Hk;
    try subst k'; by rewrite ?lookup_insert_eq, ?lookup_insert_ne.
Qed.

Lemma sane_counter st k : sane st → (0 ≤ counter st k)%Z.
Proof.
  intros [Hc _]. unfold counter. destruct (counters st !! k) as [v|] eqn:E; simpl.
  - by eapply Hc.
  - done.
Qed.

Lemma handle_sane st h : sane st → accepted h = true → sane (handle st h).
Proof.
  intros Hs Hacc. pose proof Hs as [Hc Hr]. split.
  - intros k' v Hv. pose proof (handle_counter st h k') as E.
    unfold counter at 1 in E. rewrite Hv in E. simpl in E. rewrite E.
    pose proof (sane_counter st k' Hs).
    case_bool_decide; [destruct h|]; try done; lia.
  - intros k' r Hrow. rewrite handle_counter.
    pose proof (sane_counter st k' Hs) as H0.
    destruct h as [k ok|k ok|k|k|k ok]; simpl in Hacc; simpl hook_key; [| | | |done].
    + subst ok. rewrite handle_play in Hrow. cbn -[Z.max] in Hrow.
      case_bool_decide as Hk.
      * subst k'. rewrite lookup_alter_eq in Hrow.
        destruct (streams st !! k) as [r0|] eqn:E0; [|done].
        injection Hrow as <-. cbn -[Z.max]. destruct (Hr _ _ E0). lia.
      * rewrite lookup_alter_ne in Hrow by done. by apply Hr.
    + rewrite handle_stop in Hrow. cbn -[Z.max Z.sub] in Hrow.
      case_bool_decide as Hk.
      * subst k'. destruct ok.
        -- rewrite lookup_alter_eq in Hrow.
           destruct (streams st !! k) as [r0|] eqn:E0; [|done].
           injection Hrow as <-. cbn -[Z.max Z.sub]. destruct (Hr _ _ E0). lia.
        -- destruct (Hr _ _ Hrow). lia.
      * destruct ok; [rewrite lookup_alter_ne in Hrow by done|]; by apply Hr.
    + rewrite handle_play_refused in Hrow. cbn [streams] in Hrow.
      destruct (Hr _ _ Hrow). by case_bool_decide.
    + rewrite handle_stop_refused in Hrow. cbn [streams] in Hrow.
      destruct (Hr _ _ Hrow). by case_bool_decide.
Qed.

Lemma hooks_sane hs : ∀ st,
  sane st → forallb accepted hs = true → sane (hooks st hs).
Proof.
  induction hs as [|h hs IH]; intros st Hs Hacc; [done|].
  simpl in Hacc. apply andb_true_iff in Hacc as [Hh Hacc].
  apply (IH (handle st h)); [by apply handle_sane|done].
Qed.

(** X27.  Hooks handled one at a time keep the counts sane, as long as
    no reset of a stop hook is rejected and every play hook whose
    increment is accepted has its update accepted: no counter is negative,
    and no stream shows a negative count or more viewers than its peak.
    Rejected increments and decrements, and rejected updates of stop
    hooks, do no harm. *)
Theorem one_at_a_time_counts_stay_sane st hs :
  sane st → forallb accepted hs = true → sane (hooks st hs).
Proof. exact (hooks_sane hs st). Qed.

Lemma one_at_a_time_counts_stay_sane_witness :
  sane (hooks fresh [Play "key-S" true; StopWatching "key-S" false;
                     StopRefused "key-S"; StopWatching "key-S" true;
                     PlayRefused "key-S"; Play "key-S" true]).
Proof.
  refine (one_at_a_time_counts_stay_sane fresh
            [Play "key-S" true; StopWatching "key-S" false;
             StopRefused "key-S"; StopWatching "key-S" true;
             PlayRefused "key-S"; Play "key-S" true] _ eq_refl).
  split.
  - intros k v Hv. unfold fresh in Hv. simpl in Hv. by rewrite lookup_empty in Hv.
  - intros k r Hr. unfold fresh in Hr. simpl in Hr.
    apply lookup_singleton_Some in Hr as [<- <-]. by vm_compute.
Defined.

Lemma hooks_app st hs1 hs2 : hooks st (hs1 ++ hs2) = hooks (hooks st hs1) hs2.
Proof. apply foldl_app. Qed.

Lemma hooks_cons st h hs : hooks st (h :: hs) = hooks (handle st h) hs.
Proof. done. Qed.

Lemma counted_cons o os :
  counted (o :: os) = ((if o is Some _ then 1 else 0) + counted os)%Z.
Proof. unfold counted. destruct o; csimpl; lia. Qed.

Lemma counted_nonneg os : (0 ≤ counted os)%Z.
Proof. unfold counted. lia. Qed.

Lemma plays_count k (joins : list (option bool)) : ∀ st k',
  counter (hooks st (join k <$> joins)) k'
  = if bool_decide (k' = k) then (counter st k' + counted joins)%Z
    else counter st k'.
Proof.
  induction joins as [|o joins IH]; intros st k'.
  - unfold counted. simpl. case_bool_decide; lia.
  - rewrite fmap_cons, hooks_cons, IH, handle_counter, counted_cons.
    destruct o; simpl hook_key; simpl join; repeat case_bool_decide; lia.
Qed.

Lemma stops_count k (leaves : list (option bool)) : ∀ st k',
  (0 ≤ counter st k')%Z →
  counter (hooks st (leave k <$> leaves)) k'
  = if bool_decide (k' = k) then Z.max 0 (counter st k' - counted leaves)
    else counter st k'.
Proof.
  induction leaves as [|o leaves IH]; intros st k' H0.
  - unfold counted. simpl. case_bool_decide; lia.
  - pose proof (counted_nonneg leaves).
    rewrite fmap_cons, hooks_cons, counted_cons.
    rewrite IH; rewrite handle_counter; destruct o; simpl hook_key; simpl leave;
      repeat case_bool_decide; lia.
Qed.

(** X28.  Viewers who join and then leave, one hook at a time: after
    play hooks and then stop hooks on one key, none of whose resets is
    rejected, the key's count is its count before, plus the play hooks
    whose increment was accepted, minus the stop hooks whose decrement
    was accepted, and never less than 0, whether or not the hooks'
    updates of the stream row were accepted; the counts of other keys are
    as before. *)
Theorem joins_then_leaves_count st k (joins leaves : list (option bool)) :
  (0 ≤ counter st k)%Z →
  let st' := hooks st ((join k <$> joins) ++ (leave k <$> leaves)) in
  getViewerCount k st'
  = Z.max 0 (counter st k + counted joins - counted leaves)
  ∧ ∀ k', k' ≠ k → getViewerCount k' st' = counter st k'.
Proof.
  intros H0 st'. subst st'. unfold getViewerCount. rewrite hooks_app.
  pose proof (counted_nonneg joins).
  split.
  - rewrite stops_count.
    + rewrite bool_decide_eq_true_2 by done.
      rewrite plays_count, bool_decide_eq_true_2 by done. lia.
    + rewrite plays_count, bool_decide_eq_true_2 by done. lia.
  - intros k' Hk. pose proof (plays_count k joins st k') as Ep.
    rewrite bool_decide_eq_false_2 in Ep by done.
    rewrite <- Ep. generalize (hooks st (join k <$> joins)).
    clear -Hk. induction leaves as [|o leaves IH]; intros s; [done|].
    rewrite fmap_cons, hooks_cons, IH, handle_counter.
    destruct o; simpl hook_key; simpl leave; by rewrite bool_decide_eq_false_2.
Qed.

Lemma joins_then_leaves_count_witness :
  let st' := hooks fresh ((join "key-S" <$> [Some true; None; Some false; Some true])
                          ++ (leave "key-S" <$> [Some true; None; Some false])) in
  getViewerCount "key-S" st'
  = Z.max 0 (counter fresh "key-S"
             + counted [Some true; None; Some false; Some true]
             - counted [Some true; None; Some false])
  ∧ ∀ k', k' ≠ "key-S"%string → getViewerCount k' st' = counter fresh k'.
Proof.
  refine (joins_then_leaves_count fresh "key-S"
            [Some true; None; Some false; Some true]
            [Some true; None; Some false] _).
  by vm_compute.
Defined.

(** Two requests in flight behind those of [rs]. *)
Lemma two_lookup_l {A} (l : list A) a b : (l ++ [a; b]) !! length l = Some a.
Proof. by apply list_lookup_middle. Qed.

Lemma two_lookup_r {A} (l : list A) a b : (l ++ [a; b]) !! S (length l) = Some b.
Proof.
  rewrite lookup_app_r by lia.
  by replace (S (length l) - length l) with 1 by lia.
Qed.

Lemma two_alter_l {A} (f : A → A) (l : list A) a b :
  alter f (length l) (l ++ [a; b]) = l ++ [f a; b].
Proof. by rewrite <- (Nat.add_0_r (length l)), alter_app_r. Qed.

Lemma two_alter_r {A} (f : A → A) (l : list A) a b :
  alter f (S (length l)) (l ++ [a; b]) = l ++ [a; f b].
Proof. by rewrite <- (Nat.add_1_r (length l)), alter_app_r. Qed.

Lemma step_decr_l c sm rs k b :
  step {| counters := c; streams := sm;
          requests := rs ++ [{| key := k; pc := AwaitDecr |}; b] |}
       (RedisDone (length rs) true)
  = let count := (default 0 (c !! k) - 1)%Z in
    {| counters := <[k := count]> c; streams := sm;
       requests := rs ++ [{| key := k;
                             pc := if (count <? 0)%Z then AwaitReset
                                   else AwaitStopUpdate count |}; b] |}.
Proof.
  unfold step. cbn [requests]. rewrite two_lookup_l.
  unfold resume_redis, counter, set_counter, set_pc.
  cbn [negb pc key counters streams requests].
  destruct (default 0 (c !! k) - 1 <? 0)%Z;
    cbn [counters streams requests]; by rewrite two_alter_l.
Qed.

Lemma step_incr_r c sm rs a k :
  step {| counters := c; streams := sm;
          requests := rs ++ [a; {| key := k; pc := AwaitIncr |}] |}
       (RedisDone (S (length rs)) true)
  = let v := (default 0 (c !! k) + 1)%Z in
    {| counters := <[k := v]> c; streams := sm;
       requests := rs ++ [a; {| key := k; pc := AwaitPlayUpdate v |}] |}.
Proof.
  unfold step. cbn [requests]. rewrite two_lookup_r.
  unfold resume_redis, counter, set_counter, set_pc.
  cbn [negb pc key counters streams requests]. by rewrite two_alter_r.
Qed.

Lemma step_reset_l c sm rs k b :
  step {| counters := c; streams := sm;
          requests := rs ++ [{| key := k; pc := AwaitReset |}; b] |}
       (RedisDone (length rs) true)
  = {| counters := <[k := 0%Z]> c; streams := sm;
       requests := rs ++ [{| key := k; pc := AwaitStopUpdate 0 |}; b] |}.
Proof.
  unfold step. cbn [requests]. rewrite two_lookup_l.
  unfold resume_redis, counter, set_counter, set_pc.
  cbn [negb pc key counters streams requests]. by rewrite two_alter_l.
Qed.

Lemma step_play_update_r c sm rs a k v :
  step {| counters := c; streams := sm;
          requests := rs ++ [a; {| key := k; pc := AwaitPlayUpdate v |}] |}
       (DbDone (S (length rs)) true)
  = {| counters := c;
       streams := alter (λ row, {| viewer_count := v;
                                   peak_viewers := Z.max (peak_viewers row) v |}) k sm;
       requests := rs ++ [a; {| key := k; pc := Responded |}] |}.
Proof.
  unfold step. cbn [requests]. rewrite two_lookup_r.
  unfold resume_db, update_stream, set_pc.
  cbn [pc key counters streams requests]. by rewrite two_alter_r.
Qed.

Lemma step_stop_update_l c sm rs k v b :
  step {| counters := c; streams := sm;
          requests := rs ++ [{| key := k; pc := AwaitStopUpdate v |}; b] |}
       (DbDone (length rs) true)
  = {| counters := c;
       streams := alter (λ row, {| viewer_count := v;
                                   peak_viewers := peak_viewers row |}) k sm;
       requests := rs ++ [{| key := k; pc := Responded |}; b] |}.
Proof.
  unfold step. cbn [requests]. rewrite two_lookup_l.
  unfold resume_db, update_stream, set_pc.
  cbn [pc key counters streams requests]. by rewrite two_alter_l.
Qed.

(** X29.  A stop hook and a play hook that overlap on a key whose counter
    is 0 lose the viewer who joins: the stop's decrement to -1, the play's
    increment to 0 and then the stop's reset leave the counter and the
    stream's count at 0, where the same two hooks handled one after the
    other leave both at 1. *)
Theorem overlapping_stop_and_play_lose_the_viewer st k row :
  counter st k = 0%Z →
  streams st !! k = Some row →
  let s := length (requests st) in
  let p := S s in
  let st1 := run st [StopHook k; PlayHook k;
                     RedisDone s true; RedisDone p true; RedisDone s true;
                     DbDone p true; DbDone s true] in
  let st2 := hooks st [StopWatching k true; Play k true] in
  (getViewerCount k st1 = 0%Z ∧ viewer_count <$> streams st1 !! k = Some 0%Z)
  ∧ (getViewerCount k st2 = 1%Z ∧ viewer_count <$> streams st2 !! k = Some 1%Z).
Proof.
  intros Hc Hrow s p st1 st2. split.
  - subst st1 p s. unfold getViewerCount. unfold counter in Hc.
    unfold run. cbn [foldl].
    assert (E0 : step (step st (StopHook k)) (PlayHook k)
                 = {| counters := counters st; streams := streams st;
                      requests := requests st ++ [{| key := k; pc := AwaitDecr |};
                                                  {| key := k; pc := AwaitIncr |}] |}).
    { unfold step, arrive. cbn [requests counters streams].
      by rewrite <- (assoc_L (++)). }
    rewrite E0. clear E0.
    rewrite step_decr_l. cbn zeta. rewrite Hc.
    change (0 - 1 <? 0)%Z with true. cbn iota.
    rewrite step_incr_r. cbn zeta. rewrite lookup_insert_eq.
    change (default 0 (Some (0 - 1)) + 1)%Z with 0%Z.
    rewrite step_reset_l, step_play_update_r, step_stop_update_l.
    unfold counter. cbn [counters streams]. rewrite lookup_insert_eq.
    by rewrite !lookup_alter_eq, Hrow.
  - subst st2. rewrite !hooks_cons. change (hooks ?s []) with s.
    unfold getViewerCount.
    rewrite !handle_counter. simpl hook_key. rewrite !bool_decide_eq_true_2 by done.
    rewrite Hc. split; [done|].
    set (s1 := handle st (StopWatching k true)).
    assert (Es : streams s1 !! k
                 = Some {| viewer_count := 0; peak_viewers := peak_viewers row |}).
    { subst s1. rewrite handle_stop. cbn [streams].
      by rewrite lookup_alter_eq, Hrow, Hc. }
    assert (Ec : counter s1 k = 0%Z).
    { subst s1. rewrite handle_counter. simpl hook_key.
      by rewrite bool_decide_eq_true_2, Hc. }
    rewrite handle_play. cbn [streams]. by rewrite lookup_alter_eq, Es, Ec.
Qed.

Lemma overlapping_stop_and_play_lose_the_viewer_witness :
  let st1 := run fresh [StopHook "key-S"; PlayHook "key-S";
                        RedisDone 0 true; RedisDone 1 true; RedisDone 0 true;
                        DbDone 1 true; DbDone 0 true] in
  let st2 := hooks fresh [StopWatching "key-S" true; Play "key-S" true] in
  (getViewerCount "key-S" st1 = 0%Z
   ∧ viewer_count <$> streams st1 !! "key-S"%string = Some 0%Z)
  ∧ (getViewerCount "key-S" st2 = 1%Z
     ∧ viewer_count <$> streams st2 !! "key-S"%string = Some 1%Z).
Proof.
  exact (overlapping_stop_and_play_lose_the_viewer fresh "key-S"
           {| viewer_count := 0; peak_viewers := 0 |} eq_refl eq_refl).
Defined.

End ViewersSpec.
